(** * Path ORAM simulator: a shallow embedding of [path_oram_sim_py38.py]

    The Python engine is embedded function by function.  Python integers are
    [Z]; Python lists are [list] addressed through [py_index] (negative
    indices wrap, anything else out of range raises [IndexError]); the stash,
    a [dict] whose iteration order is its insertion order, is an association
    list with unique keys; the process-wide [random] module is an abstract
    [RandomSource] whose state is threaded next to the engine object.
    Statements that may raise run in a state-and-exception monad whose
    [Raise] outcome keeps the state reached when the exception left. *)

From Stdlib Require Import ZArith String Lia.
From Stdlib Require Import Ascii Decimal DecimalString DecimalZ DecimalPos.
From stdpp Require Import base tactics option list list_numbers.

Local Open Scope Z_scope.

(** ** Python values, exceptions, and the monad of statements *)

(** The data a block carries: the engine stores the block id itself
    ([(a, a)]) at construction, the harness writes [(a, version)] tuples,
    and callers may write [None] or a string. *)
Inductive pyval : Type :=
| PNone
| PInt (z : Z)
| PStr (s : string)
| PTuple (a b : Z).

Inductive exn : Type :=
| AssertionError
| IndexError
| KeyError
| ValueError.

Inductive outcome (S A : Type) : Type :=
| Ok (a : A) (s : S)
| Raise (e : exn) (s : S).
Arguments Ok {S A} a s.
Arguments Raise {S A} e s.

Definition M (S A : Type) : Type := S -> outcome S A.

Definition ret {S A} (a : A) : M S A := fun s => Ok a s.

Definition bind {S A B} (c : M S A) (k : A -> M S B) : M S B :=
  fun s => match c s with
           | Ok a s' => k a s'
           | Raise e s' => Raise e s'
           end.

Definition raise {S A} (e : exn) : M S A := fun s => Raise e s.
Definition get {S} : M S S := fun s => Ok s s.
Definition modify {S} (f : S -> S) : M S unit := fun s => Ok tt (f s).

(** [assert c]: Python's [assert] statement. *)
Definition assert {S} (c : bool) : M S unit :=
  if c then ret tt else raise AssertionError.

Declare Scope py_scope.
Delimit Scope py_scope with py.
Notation "x <- c ;; k" := (bind c (fun x => k))
  (at level 100, c at next level, right associativity) : py_scope.
Notation "c ;;; k" := (bind c (fun _ => k))
  (at level 100, right associativity) : py_scope.
Local Open Scope py_scope.

(** [for x in xs: body]. *)
Fixpoint for_each {S X} (xs : list X) (body : X -> M S unit) : M S unit :=
  match xs with
  | [] => ret tt
  | x :: xs' => body x ;;; for_each xs' body
  end.

(** ** Python lists and dicts *)

(** [lst[i]]: the slot a Python index denotes in a list of length [len]. *)
Definition py_index (len : nat) (i : Z) : option nat :=
  if (0 <=? i) && (i <? Z.of_nat len) then Some (Z.to_nat i)
  else if (- Z.of_nat len <=? i) && (i <? 0) then Some (Z.to_nat (i + Z.of_nat len))
  else None.

(** [range(a, b)] and [range(a, -1, -1)]. *)
Definition py_range (a b : Z) : list Z := seqZ a (b - a).
Definition py_range_down (a : Z) : list Z := reverse (py_range 0 (a + 1)).

(** A [dict] with integer keys, in insertion order. *)
Abbreviation dict V := (list (Z * V)).

Fixpoint dict_get {V} (k : Z) (d : dict V) : option V :=
  match d with
  | [] => None
  | (k', v) :: d' => if k' =? k then Some v else dict_get k d'
  end.

(** [d[k] = v]: an existing key keeps its place, a new key goes last. *)
Fixpoint dict_set {V} (k : Z) (v : V) (d : dict V) : dict V :=
  match d with
  | [] => [(k, v)]
  | (k', v') :: d' => if k' =? k then (k, v) :: d' else (k', v') :: dict_set k v d'
  end.

(** [d.pop(k)]: the value and the dict without the key; [None] is
    [KeyError]. *)
Fixpoint dict_pop {V} (k : Z) (d : dict V) : option (V * dict V) :=
  match d with
  | [] => None
  | (k', v) :: d' =>
      if k' =? k then Some (v, d')
      else match dict_pop k d' with
           | Some (w, d'') => Some (w, (k', v) :: d'')
           | None => None
           end
  end.

Definition dict_keys {V} (d : dict V) : list Z := d.*1.

(** ** The three free functions *)

Definition node_index (level idx : Z) : Z := Z.shiftl 1 level - 1 + idx.

Definition path_nodes (L leaf_x : Z) : list (Z * Z) :=
  (fun l => (l, if 0 <? l then Z.shiftr leaf_x (L - l) else 0)) <$> py_range 0 (L + 1).

Definition same_subtree_at_level (L leaf_a leaf_b level : Z) : bool :=
  if level =? 0 then true
  else Z.shiftr leaf_a (L - level) =? Z.shiftr leaf_b (L - level).

(** ** The random module *)

(** Python's [random] is not part of the repository.  It is taken as an
    interface: a generator state, the four calls the engine makes, and the
    two facts of the library's documentation the engine relies on. *)
Record RandomSource : Type := {
  rng : Type;
  rng_seed : Z -> rng;
  rng_randrange : Z -> rng -> Z * rng;
  rng_shuffle : list Z -> rng -> list Z * rng;
  rng_getrandbits : Z -> rng -> Z * rng;
  rng_randrange_bound : forall n g, 0 < n -> 0 <= (rng_randrange n g).1 < n;
  rng_shuffle_perm : forall l g, (rng_shuffle l g).1 ≡ₚ l
}.

(** ** The engine object *)

(** A bucket: the [(block_id, data)] tuples in the order they were appended. *)
Abbreviation bucket := (list (Z * pyval)).

Record PathORAM : Type := {
  o_N : Z;
  o_Z : Z;
  o_L : Z;
  num_nodes : Z;
  tree : list bucket;
  leaf_space : Z;
  position : list Z;
  stash : dict pyval
}.

Definition with_tree (t : list bucket) (o : PathORAM) : PathORAM :=
  {| o_N := o_N o; o_Z := o_Z o; o_L := o_L o; num_nodes := num_nodes o;
     tree := t; leaf_space := leaf_space o; position := position o;
     stash := stash o |}.

Definition with_position (p : list Z) (o : PathORAM) : PathORAM :=
  {| o_N := o_N o; o_Z := o_Z o; o_L := o_L o; num_nodes := num_nodes o;
     tree := tree o; leaf_space := leaf_space o; position := p;
     stash := stash o |}.

Definition with_stash (s : dict pyval) (o : PathORAM) : PathORAM :=
  {| o_N := o_N o; o_Z := o_Z o; o_L := o_L o; num_nodes := num_nodes o;
     tree := tree o; leaf_space := leaf_space o; position := position o;
     stash := s |}.

(** [self._bucket(level, idx)] returns a reference to a bucket: the slot of
    [self.tree] it lives in. *)
Definition _bucket (level idx : Z) : M PathORAM nat :=
  o <- get ;;
  match py_index (length (tree o)) (node_index level idx) with
  | Some r => ret r
  | None => raise IndexError
  end.

(** The list behind a bucket reference. *)
Definition deref (r : nat) (o : PathORAM) : bucket := default [] (tree o !! r).

(** [bucket.append(p)] and [bucket.clear()] through a reference. *)
Definition bucket_append (r : nat) (p : Z * pyval) : M PathORAM unit :=
  modify (fun o => with_tree (<[r := deref r o ++ [p]]> (tree o)) o).
Definition bucket_clear (r : nat) : M PathORAM unit :=
  modify (fun o => with_tree (<[r := []]> (tree o)) o).

(** [self.position[a]]. *)
Definition position_at (a : Z) : M PathORAM Z :=
  o <- get ;;
  match py_index (length (position o)) a with
  | Some i => match position o !! i with
              | Some p => ret p
              | None => raise IndexError
              end
  | None => raise IndexError
  end.

(** [self.stash[k] = v]. *)
Definition stash_set (k : Z) (v : pyval) : M PathORAM unit :=
  modify (fun o => with_stash (dict_set k v (stash o)) o).

(** [self.stash.pop(k)]. *)
Definition stash_pop (k : Z) : M PathORAM pyval :=
  o <- get ;;
  match dict_pop k (stash o) with
  | Some (v, d) => modify (with_stash d) ;;; ret v
  | None => raise KeyError
  end.

(** [self.position[a] = p]. *)
Definition position_set (a p : Z) : M PathORAM unit :=
  o <- get ;;
  match py_index (length (position o)) a with
  | Some i => modify (with_position (<[i := p]> (position o)))
  | None => raise IndexError
  end.

(** ** The engine and the generator together *)

Section Engine.

Context (R : RandomSource).

(** The engine object next to the state of the [random] module. *)
Definition world : Type := PathORAM * rng R.

Definition lift_self {A} (c : M PathORAM A) : M world A :=
  fun w => match c w.1 with
           | Ok a o => Ok a (o, w.2)
           | Raise e o => Raise e (o, w.2)
           end.

Definition lift_random {A} (c : M (rng R) A) : M world A :=
  fun w => match c w.2 with
           | Ok a g => Ok a (w.1, g)
           | Raise e g => Raise e (w.1, g)
           end.

(** [random.seed(s)], [random.randrange(n)] (which rejects an empty range),
    [random.shuffle(l)] and [random.getrandbits(k)]. *)
Definition seed_call (s : Z) : M (rng R) unit := modify (fun _ => rng_seed R s).

Definition randrange (n : Z) : M (rng R) Z :=
  if n <=? 0 then raise ValueError
  else fun g => Ok (rng_randrange R n g).1 (rng_randrange R n g).2.

Definition shuffle (l : list Z) : M (rng R) (list Z) :=
  fun g => Ok (rng_shuffle R l g).1 (rng_shuffle R l g).2.

Definition getrandbits (k : Z) : M (rng R) Z :=
  fun g => Ok (rng_getrandbits R k g).1 (rng_getrandbits R k g).2.

(** [[c for _ in range(n)]]. *)
Fixpoint comprehension {S A} (n : nat) (c : M S A) : M S (list A) :=
  match n with
  | O => ret []
  | S n' => a <- c ;; rest <- comprehension n' c ;; ret (a :: rest)
  end.

(** *** [_initial_place_blocks] *)

(** The inner [for l in range(self.L, -1, -1)] with its [break]; the result
    is the flag [placed]. *)
Fixpoint place_loop (a leaf : Z) (levels : list Z) : M PathORAM bool :=
  match levels with
  | [] => ret false
  | l :: rest =>
      o <- get ;;
      let idx := if 0 <? l then Z.shiftr leaf (o_L o - l) else 0 in
      r <- _bucket l idx ;;
      o <- get ;;
      if Z.of_nat (length (deref r o)) <? o_Z o
      then bucket_append r (a, PInt a) ;;; ret true
      else place_loop a leaf rest
  end.

(** The body of [for a in order]. *)
Definition place_block (a : Z) : M PathORAM unit :=
  leaf <- position_at a ;;
  o <- get ;;
  placed <- place_loop a leaf (py_range_down (o_L o)) ;;
  if negb placed then stash_set a (PInt a) else ret tt.

Definition _initial_place_blocks : M world unit :=
  o <- lift_self get ;;
  order <- lift_random (shuffle (py_range 0 (o_N o))) ;;
  lift_self (for_each order place_block).

(** *** [__init__] *)

(** Runs the rest of the constructor on the object built so far and hands
    the object out. *)
Definition construct (o : PathORAM) (c : M world unit) : M (rng R) PathORAM :=
  fun g => match c (o, g) with
           | Ok _ w => Ok w.1 w.2
           | Raise e w => Raise e w.2
           end.

Definition __init__ (N Z' L : Z) (seed : option Z) : M (rng R) PathORAM :=
  assert (0 <? N) ;;;
  assert (0 <? Z') ;;;
  assert ((1 <=? L) && (N <=? Z.shiftl 1 L)) ;;;
  let num_nodes := Z.shiftl 1 (L + 1) - 1 in
  let tree := replicate (Z.to_nat num_nodes) ([] : bucket) in
  match seed with Some s => seed_call s | None => ret tt end ;;;
  let leaf_space := Z.shiftl 1 L in
  position <- comprehension (Z.to_nat N) (randrange leaf_space) ;;
  construct {| o_N := N; o_Z := Z'; o_L := L; num_nodes := num_nodes;
               tree := tree; leaf_space := leaf_space; position := position;
               stash := [] |}
            _initial_place_blocks.

(** *** [access] *)

(** Lines 80-84: the body of the loop over the path, and the loop. *)
Definition read_bucket (nd : Z * Z) : M PathORAM unit :=
  r <- _bucket nd.1 nd.2 ;;
  o <- get ;;
  for_each (deref r o) (fun p => stash_set p.1 p.2) ;;;
  bucket_clear r.

Definition read_path (x : Z) : M PathORAM unit :=
  o <- get ;;
  for_each (path_nodes (o_L o) x) read_bucket.

(** Lines 97-101: the scan of the stash keys with its [break]. *)
Fixpoint choose_loop (x l capacity : Z) (keys chosen : list Z) : M PathORAM (list Z) :=
  match keys with
  | [] => ret chosen
  | bid :: rest =>
      p <- position_at bid ;;
      o <- get ;;
      if same_subtree_at_level (o_L o) p x l then
        let chosen' := chosen ++ [bid] in
        if Z.of_nat (length chosen') =? capacity then ret chosen'
        else choose_loop x l capacity rest chosen'
      else choose_loop x l capacity rest chosen
  end.

(** Lines 91-103: the body of the eviction loop at level [l]. *)
Definition evict_level (x l : Z) : M PathORAM unit :=
  o <- get ;;
  let idx := if 0 <? l then Z.shiftr x (o_L o - l) else 0 in
  r <- _bucket l idx ;;
  if o_Z o <=? Z.of_nat (length (deref r o)) then ret tt
  else
    let capacity := o_Z o - Z.of_nat (length (deref r o)) in
    chosen <- choose_loop x l capacity (dict_keys (stash o)) [] ;;
    for_each chosen (fun bid => v <- stash_pop bid ;; bucket_append r (bid, v)).

Definition evict (x : Z) : M PathORAM unit :=
  o <- get ;;
  for_each (py_range_down (o_L o)) (evict_level x).

(** Lines 75-84: the checks, the old leaf, the fresh leaf, the path read.
    The result is the old leaf [x]. *)
Definition access_read (op : string) (a : Z) : M world Z :=
  o <- lift_self get ;;
  assert ((0 <=? a) && (a <? o_N o)) ;;;
  assert (String.eqb op "read" || String.eqb op "write") ;;;
  x <- lift_self (position_at a) ;;
  p <- lift_random (randrange (leaf_space o)) ;;
  lift_self (position_set a p) ;;;
  lift_self (read_path x) ;;;
  ret x.

(** Lines 86-88: the logical operation; the result is [old_data]. *)
Definition access_serve (op : string) (a : Z) (new_data : pyval) : M PathORAM pyval :=
  o <- get ;;
  let old_data := default (PInt a) (dict_get a (stash o)) in
  (if String.eqb op "write" then stash_set a new_data else ret tt) ;;;
  ret old_data.

Definition access (op : string) (a : Z) (new_data : pyval) : M world pyval :=
  x <- access_read op a ;;
  old_data <- lift_self (access_serve op a new_data) ;;
  lift_self (evict x) ;;;
  ret old_data.

(** *** [simulate] *)

(** Integer lists indexed the Python way; [None] is [IndexError]. *)
Definition list_get (l : list Z) (i : Z) : option Z :=
  py_index (length l) i ≫= fun j => l !! j.

Definition list_set (l : list Z) (i v : Z) : option (list Z) :=
  py_index (length l) i ≫= fun j => Some (<[j := v]> l).

(** [max(l) if l else 0]. *)
Definition max_or_zero (l : list Z) : Z :=
  match l with
  | [] => 0
  | v :: rest => foldl Z.max v rest
  end.

(** Lines 132-133: [for val in recorded_stash_sizes: hist[val] += 1]. *)
Fixpoint fill_hist (recorded hist : list Z) : option (list Z) :=
  match recorded with
  | [] => Some hist
  | val :: rest =>
      list_get hist val ≫= fun h =>
      list_set hist val (h + 1) ≫= fun hist' =>
      fill_hist rest hist'
  end.

(** Lines 135-138: the running sum from [max_stash] down to 0. *)
Fixpoint fill_suffix (ks hist : list Z) (running : Z) (suffix_ge : list Z) : option (list Z) :=
  match ks with
  | [] => Some suffix_ge
  | k :: rest =>
      list_get hist k ≫= fun h =>
      let running' := running + h in
      list_set suffix_ge k running' ≫= fun suffix_ge' =>
      fill_suffix rest hist running' suffix_ge'
  end.

(** Lines 139-140. *)
Fixpoint fill_tail (idxs : list Z) (max_stash : Z) (suffix_ge : list Z)
    (tail_counts : dict Z) : option (dict Z) :=
  match idxs with
  | [] => Some tail_counts
  | i :: rest =>
      (if i + 1 <=? max_stash then list_get suffix_ge (i + 1) else Some 0) ≫= fun v =>
      fill_tail rest max_stash suffix_ge (dict_set i v tail_counts)
  end.

(** Lines 128-140 and the returned triple. *)
Definition tail_statistics (recorded : list Z) : option (dict Z * Z * Z) :=
  let max_stash := max_or_zero recorded in
  let s := Z.of_nat (length recorded) in
  fill_hist recorded (replicate (Z.to_nat (max_stash + 1)) 0) ≫= fun hist =>
  fill_suffix (py_range_down max_stash) hist 0
              (replicate (Z.to_nat (max_stash + 2)) 0) ≫= fun suffix_ge =>
  fill_tail (py_range 0 (max_stash + 1)) max_stash suffix_ge [] ≫= fun tail_counts =>
  Some (tail_counts, max_stash, s).

(** The local variables the operation loop updates. *)
Record sim_locals : Type := {
  versions : list Z;
  recorded_stash_sizes : list Z;
  block : Z
}.

(** Lines 113-126: one round of the operation loop. *)
Definition sim_step (warmup_ops : Z) (loc : sim_locals) (t : Z) : M world sim_locals :=
  bit <- lift_random (getrandbits 1) ;;
  let op := if bit =? 0 then "read"%string else "write"%string in
  let a := block loc in
  o <- lift_self get ;;
  let block' := if a + 1 =? o_N o then 0 else a + 1 in
  versions' <-
    (if String.eqb op "write" then
       match list_get (versions loc) a with
       | Some v =>
           match list_set (versions loc) a (v + 1) with
           | Some vs => access "write" a (PTuple a (v + 1)) ;;; ret vs
           | None => raise IndexError
           end
       | None => raise IndexError
       end
     else access "read" a PNone ;;; ret (versions loc)) ;;
  o' <- lift_self get ;;
  ret {| versions := versions';
         recorded_stash_sizes :=
           if warmup_ops <=? t
           then recorded_stash_sizes loc ++ [Z.of_nat (length (stash o'))]
           else recorded_stash_sizes loc;
         block := block' |}.

Fixpoint sim_loop (warmup_ops : Z) (ts : list Z) (loc : sim_locals) : M world sim_locals :=
  match ts with
  | [] => ret loc
  | t :: rest => loc' <- sim_step warmup_ops loc t ;; sim_loop warmup_ops rest loc'
  end.

(** [simulate] with [record_file = None]; writing the file is left out. *)
Definition simulate (total_ops warmup_ops : Z) : M world (dict Z * Z * Z) :=
  assert ((warmup_ops <? total_ops) && (0 <=? warmup_ops)) ;;;
  o <- lift_self get ;;
  loc <- sim_loop warmup_ops (py_range 0 total_ops)
           {| versions := replicate (Z.to_nat (o_N o)) 0;
              recorded_stash_sizes := [];
              block := 0 |} ;;
  match tail_statistics (recorded_stash_sizes loc) with
  | Some res => ret res
  | None => raise IndexError
  end.

End Engine.

Arguments world R : clear implicits.

(** ** Specification predicates *)

(** A node of the tree: a level and an index within the level. *)
Definition valid_node (L l idx : Z) : Prop := 0 <= l <= L /\ 0 <= idx < 2 ^ l.

(** The bucket at [(l, idx)]. *)
Definition bucket_of (o : PathORAM) (l idx : Z) : bucket :=
  default [] (tree o !! Z.to_nat (node_index l idx)).

(** Every [(block_id, data)] pair the engine holds, tree first, and the
    block ids among them, with multiplicity. *)
Definition pairs (o : PathORAM) : list (Z * pyval) := concat (tree o) ++ stash o.
Definition block_ids (o : PathORAM) : list Z := (pairs o).*1.

Definition valid_params (N Z' L : Z) : Prop :=
  0 < N /\ 0 < Z' /\ 1 <= L /\ N <= 2 ^ L.

Definition valid_access (o : PathORAM) (op : string) (a : Z) : Prop :=
  0 <= a < o_N o /\ (op = "read"%string \/ op = "write"%string).

(** The parameters and the sizes that never change after construction. *)
Record shape (o : PathORAM) : Prop := {
  shape_params : valid_params (o_N o) (o_Z o) (o_L o);
  shape_nodes : num_nodes o = 2 ^ (o_L o + 1) - 1;
  shape_leaves : leaf_space o = 2 ^ o_L o;
  shape_tree : Z.of_nat (length (tree o)) = num_nodes o;
  shape_position : Z.of_nat (length (position o)) = o_N o;
  shape_leaf : Forall (fun p => 0 <= p < 2 ^ o_L o) (position o)
}.

Definition conserved (o : PathORAM) : Prop :=
  block_ids o ≡ₚ py_range 0 (o_N o).

Definition capacity_ok (o : PathORAM) : Prop :=
  Forall (fun b : bucket => Z.of_nat (length b) <= o_Z o) (tree o).

(** Every resident of a bucket has its leaf below the bucket's node. *)
Definition subtree_ok (o : PathORAM) : Prop :=
  forall l idx bid d, valid_node (o_L o) l idx ->
    (bid, d) ∈ bucket_of o l idx ->
    exists p, position o !! Z.to_nat bid = Some p /\ Z.shiftr p (o_L o - l) = idx.

Record wf (o : PathORAM) : Prop := {
  wf_shape : shape o;
  wf_conserved : conserved o;
  wf_capacity : capacity_ok o;
  wf_subtree : subtree_ok o
}.

(** The data block [a] carries, wherever the block is. *)
Definition data_of (o : PathORAM) (a : Z) : option pyval := dict_get a (pairs o).

(** The flat slots of the buckets on the path to leaf [x]. *)
Definition path_slots (L x : Z) : list nat :=
  (fun nd => Z.to_nat (node_index nd.1 nd.2)) <$> path_nodes L x.

(** The number of samples strictly above a threshold. *)
Definition count_gt (i : Z) (samples : list Z) : Z :=
  Z.of_nat (length (filter (fun v => i < v) samples)).

(** What the loops of [access] keep: the parameters, the sizes, the
    position map, and the pairs held, wherever they now are. *)
Record moved (o o' : PathORAM) : Prop := {
  moved_N : o_N o' = o_N o;
  moved_Z : o_Z o' = o_Z o;
  moved_L : o_L o' = o_L o;
  moved_nodes : num_nodes o' = num_nodes o;
  moved_leaves : leaf_space o' = leaf_space o;
  moved_position : position o' = position o;
  moved_tree : length (tree o') = length (tree o);
  moved_pairs : pairs o' ≡ₚ pairs o
}.

(** What [access] as a whole keeps: the parameters and the sizes. *)
Record same_params (o o' : PathORAM) : Prop := {
  same_N : o_N o' = o_N o;
  same_Z : o_Z o' = o_Z o;
  same_L : o_L o' = o_L o;
  same_nodes : num_nodes o' = num_nodes o;
  same_leaves : leaf_space o' = leaf_space o;
  same_tree : length (tree o') = length (tree o);
  same_position : length (position o') = length (position o)
}.

(** The number of samples equal to a value: what the histogram holds. *)
Definition count_eq (k : Z) (samples : list Z) : Z :=
  Z.of_nat (length (filter (fun v => v = k) samples)).

Section Reachable.

Context (R : RandomSource).

(** The leaf [access] draws for the block. *)
Definition fresh_leaf (o : PathORAM) (g : rng R) : Z :=
  (rng_randrange R (leaf_space o) g).1.

(** The states of an engine: what a successful construction returns, and
    what a successful [access] leaves, whatever the generator held. *)
Inductive reachable : PathORAM -> Prop :=
| reach_init N Z' L seed g o g' :
    __init__ R N Z' L seed g = Ok o g' -> reachable o
| reach_access o g op a new_data r o' g' :
    reachable o -> access R op a new_data (o, g) = Ok r (o', g') -> reachable o'.

(** Calls of [access] one after the other; the result is the list of the
    values they returned. *)
Fixpoint run_ops (ops : list (string * Z * pyval)) : M (world R) (list pyval) :=
  match ops with
  | [] => ret []
  | (op, a, new_data) :: rest =>
      r <- access R op a new_data ;;
      rs <- run_ops rest ;;
      ret (r :: rs)
  end.

(** Construction, then the operations, with nothing else drawing from the
    generator; the result is the returned values and the final stash size. *)
Definition session (N Z' L : Z) (seed : option Z) (ops : list (string * Z * pyval))
  : M (rng R) (list pyval * Z) :=
  fun g => match __init__ R N Z' L seed g with
           | Ok o g' =>
               match run_ops ops (o, g') with
               | Ok rs w => Ok (rs, Z.of_nat (length (stash w.1))) w.2
               | Raise e w => Raise e w.2
               end
           | Raise e g' => Raise e g'
           end.

End Reachable.

(** ** A concrete generator

    A linear congruential generator stands in for the Mersenne Twister where
    the engine has to be run on a concrete input.  Its [shuffle] cuts the
    list at a drawn point and swaps the two parts. *)
Module LCG.

Definition step (g : Z) : Z := (1103515245 * g + 12345) mod 2147483648.

Definition randrange (n g : Z) : Z * Z := (step g mod n, step g).

Definition shuffle (l : list Z) (g : Z) : list Z * Z :=
  let k := Z.to_nat (step g mod (Z.of_nat (length l) + 1)) in
  (drop k l ++ take k l, step g).

Definition getrandbits (k g : Z) : Z * Z :=
  ((step g / 65536) mod (2 ^ k), step g).

Lemma randrange_bound n g : 0 < n -> 0 <= (randrange n g).1 < n.
Proof. intros Hn. simpl. apply Z.mod_pos_bound, Hn. Qed.

Lemma shuffle_perm l g : (shuffle l g).1 ≡ₚ l.
Proof.
  simpl. rewrite Permutation_app_comm. by rewrite take_drop.
Qed.

Definition source : RandomSource :=
  {| rng := Z;
     rng_seed := fun s => s;
     rng_randrange := randrange;
     rng_shuffle := shuffle;
     rng_getrandbits := getrandbits;
     rng_randrange_bound := randrange_bound;
     rng_shuffle_perm := shuffle_perm |}.

End LCG.

(** ** A concrete engine

    What [PathORAM(4, 2, 2, seed=1)] builds over the generator above, and
    the state the generator is left in. *)
Module Demo.

Definition engine : PathORAM :=
  {| o_N := 4; o_Z := 2; o_L := 2; num_nodes := 7;
     tree := [[]; []; []; [(2, PInt 2)]; [(3, PInt 3)]; [(0, PInt 0)]; [(1, PInt 1)]];
     leaf_space := 4;
     position := [2; 3; 0; 1];
     stash := [] |}.

Definition generator : rng LCG.source := 2035015474.

End Demo.

(** ** Further specification predicates *)

(** What the engine holds right after the placement loop: every pair is
    [(a, a)], and a block is in the stash only beside a full path. *)
Definition fresh_engine (o : PathORAM) : Prop :=
  (forall p, p ∈ pairs o -> p.2 = PInt p.1)
  /\ (forall a d, (a, d) ∈ stash o ->
        exists leaf, position o !! Z.to_nat a = Some leaf
          /\ forall l, 0 <= l <= o_L o ->
               o_Z o <= Z.of_nat (length (bucket_of o l (Z.shiftr leaf (o_L o - l))))).

(** What eviction has achieved at a level of the path to [x]: the bucket
    is full, or no key left in the stash passes the subtree test there. *)
Definition settled (o : PathORAM) (x l : Z) : Prop :=
  o_Z o <= Z.of_nat (length (bucket_of o l (Z.shiftr x (o_L o - l))))
  \/ forall bid p, bid ∈ (stash o).*1 -> position o !! Z.to_nat bid = Some p ->
       same_subtree_at_level (o_L o) p x l = false.

(** A sample is the stash size of some reachable state of the engine. *)
Definition sample_of (R : RandomSource) (o : PathORAM) (v : Z) : Prop :=
  exists o_t, reachable R o_t /\ o_N o_t = o_N o /\ o_Z o_t = o_Z o
    /\ v = Z.of_nat (length (stash o_t)).

(** A plain array of cells indexed by block id, cell [a] holding [a] at
    first: the memory the engine stands for. *)
Definition ram : Type := Z -> pyval.

Definition ram_init : ram := fun a => PInt a.

Definition ram_access (m : ram) (op : string) (a : Z) (v : pyval) : pyval * ram :=
  (m a, if String.eqb op "write" then fun b => if b =? a then v else m b else m).

Fixpoint ram_run (m : ram) (ops : list (string * Z * pyval)) : list pyval :=
  match ops with
  | [] => []
  | (op, a, v) :: rest =>
      (ram_access m op a v).1 :: ram_run (ram_access m op a v).2 rest
  end.

(** ** A generator that is stuck

    Every draw is 0 and [shuffle] leaves the list as it is: all blocks get
    leaf 0, which is the worst case for the stash. *)
Module Stuck.

Lemma stuck_randrange_bound (n : Z) (g : unit) : 0 < n -> 0 <= (0, g).1 < n.
Proof. simpl. lia. Qed.

Lemma stuck_shuffle_perm (l : list Z) (g : unit) : (l, g).1 ≡ₚ l.
Proof. done. Qed.

Definition source : RandomSource :=
  {| rng := unit;
     rng_seed := fun _ => tt;
     rng_randrange := fun _ g => (0, g);
     rng_shuffle := fun l g => (l, g);
     rng_getrandbits := fun _ g => (1, g);
     rng_randrange_bound := stuck_randrange_bound;
     rng_shuffle_perm := stuck_shuffle_perm |}.

(** [PathORAM(4, 1, 2)] over the stuck generator: one block overflows. *)
Definition engine : PathORAM :=
  {| o_N := 4; o_Z := 1; o_L := 2; num_nodes := 7;
     tree := [[(2, PInt 2)]; [(1, PInt 1)]; []; [(0, PInt 0)]; []; []; []];
     leaf_space := 4;
     position := [0; 0; 0; 0];
     stash := [(3, PInt 3)] |}.

End Stuck.

(** [PathORAM(2, 2, 1, seed=1)] over the congruential generator: a bucket
    holds every block. *)
Module Wide.

Definition engine : PathORAM :=
  {| o_N := 2; o_Z := 2; o_L := 1; num_nodes := 3;
     tree := [[]; [(0, PInt 0)]; [(1, PInt 1)]];
     leaf_space := 2;
     position := [0; 1];
     stash := [] |}.

Definition generator : rng LCG.source := 662824084.

End Wide.

(** ** Text: the statistics file

    [simulate] can write its statistics to a text file, which
    [read_simulation_file] of [plot_stash_probability.py] reads.  A text is
    a [string] whose characters are code points below 256.  The file system
    is left out: the file opens, and what is read is the text that was
    written. *)

Local Infix "+++" := String.append (at level 60, right associativity).

(** [c.isspace()]: what [str.strip()] removes. *)
Definition is_space (c : ascii) : bool :=
  let n := nat_of_ascii c in
  ((9 <=? n)%nat && (n <=? 13)%nat) || ((28 <=? n)%nat && (n <=? 32)%nat)
  || (n =? 133)%nat || (n =? 160)%nat.

(** Iterating over a text file breaks it into lines after [\n], [\r] and
    [\r\n].  The reader strips every line and skips the empty ones, so the
    text is cut at every [\n] and every [\r] here: the line break itself
    and the empty line between [\r] and [\n] make no difference. *)
Definition is_newline (c : ascii) : bool :=
  let n := nat_of_ascii c in (n =? 10)%nat || (n =? 13)%nat.

Definition is_comma (c : ascii) : bool := Ascii.eqb c ",".

Fixpoint lstrip (s : string) : string :=
  match s with
  | EmptyString => EmptyString
  | String c r => if is_space c then lstrip r else s
  end.

Fixpoint rstrip (s : string) : string :=
  match s with
  | EmptyString => EmptyString
  | String c r =>
      match rstrip r with
      | EmptyString => if is_space c then EmptyString else String c EmptyString
      | r' => String c r'
      end
  end.

(** [s.strip()]. *)
Definition strip (s : string) : string := rstrip (lstrip s).

(** [s.split(sep)] for a one-character separator, and the same for a set
    of separators. *)
Fixpoint split_at (sep : ascii -> bool) (s : string) : list string :=
  match s with
  | EmptyString => [EmptyString]
  | String c r =>
      if sep c then EmptyString :: split_at sep r
      else match split_at sep r with
           | p :: ps => String c p :: ps
           | [] => [String c EmptyString]
           end
  end.

(** [str(z)], as an f-string renders an integer: decimal digits, with a
    minus sign in front of a negative number. *)
Definition py_str (z : Z) : string := NilZero.string_of_int (Z.to_int z).

(** Python's [int(s)] is taken as an interface: a partial function on
    strings, [None] for [ValueError], that reads back what [str] prints
    (in Python 3.8, which the simulator is written for, neither conversion
    limits the number of digits). *)
Record IntSyntax : Type := {
  int_of_str : string -> option Z;
  int_of_str_str : forall z, int_of_str (py_str z) = Some z
}.

(** *** Lines 142-146 of the simulator: the writer *)

(** The loop of line 145; [None] is the [KeyError] of [tail_counts[i]]. *)
Fixpoint record_lines (idxs : list Z) (tail_counts : dict Z) : option string :=
  match idxs with
  | [] => Some EmptyString
  | i :: rest =>
      dict_get i tail_counts ≫= fun c =>
      record_lines rest tail_counts ≫= fun t =>
      Some (py_str i +++ "," +++ py_str c +++ String "010" EmptyString +++ t)
  end.

(** The text the [with] block writes. *)
Definition record_text (s max_stash : Z) (tail_counts : dict Z) : option string :=
  record_lines (py_range 0 (max_stash + 1)) tail_counts ≫= fun t =>
  Some ("-1," +++ py_str s +++ String "010" EmptyString +++ t).

(** [simulate] with a [record_file]: the result comes with the text
    written to the file. *)
Definition simulate_record (R : RandomSource) (total_ops warmup_ops : Z)
  : M (world R) (dict Z * Z * Z * string) :=
  bind (simulate R total_ops warmup_ops) (fun res =>
    match record_text res.2 res.1.2 res.1.1 with
    | Some text => ret (res, text)
    | None => raise KeyError
    end).

(** *** [read_simulation_file] *)

Inductive result (A : Type) : Type :=
| Val (a : A)
| Err (e : exn).
Arguments Val {A} a.
Arguments Err {A} e.

Section Reader.

Context (P : IntSyntax).

(** The body of the loop over the lines: [st] is
    [(total_accesses, tail_counts)]. *)
Definition read_line (line : string) (st : option Z * dict Z) : result (option Z * dict Z) :=
  match strip line with
  | EmptyString => Val st
  | line' =>
      match split_at is_comma line' with
      | [] => Err IndexError
      | p0 :: rest =>
          if String.prefix "-1" p0 then
            match rest with
            | [] => Err IndexError
            | p1 :: _ =>
                match int_of_str P p1 with
                | None => Err ValueError
                | Some t => Val (Some t, st.2)
                end
            end
          else
            match int_of_str P p0 with
            | None => Err ValueError
            | Some i =>
                match rest with
                | [] => Err IndexError
                | p1 :: _ =>
                    match int_of_str P p1 with
                    | None => Err ValueError
                    | Some c => Val (st.1, dict_set i c st.2)
                    end
                end
            end
      end
  end.

Fixpoint read_lines (lines : list string) (st : option Z * dict Z)
  : result (option Z * dict Z) :=
  match lines with
  | [] => Val st
  | line :: rest =>
      match read_line line st with
      | Val st' => read_lines rest st'
      | Err e => Err e
      end
  end.

(** [read_simulation_file] on the text of the file. *)
Definition read_simulation_file (text : string) : result (Z * dict Z) :=
  match read_lines (split_at is_newline text) (None, []) with
  | Val (Some total_accesses, tail_counts) => Val (total_accesses, tail_counts)
  | Val (None, _) => Err ValueError
  | Err e => Err e
  end.

End Reader.

(** *** A concrete [int]

    [int] on a string of code points below 256: white space around the
    number is skipped, a sign may come first, and the digits may be
    separated by single underscores. *)

Definition digit_of (c : ascii) : option Z :=
  let n := nat_of_ascii c in
  if (48 <=? n)%nat && (n <=? 57)%nat then Some (Z.of_nat n - 48) else None.

(** Digits, with single underscores allowed between them. *)
Fixpoint digits (s : string) (acc : Z) (after_digit : bool) : option Z :=
  match s with
  | EmptyString => if after_digit then Some acc else None
  | String c r =>
      match digit_of c with
      | Some d => digits r (10 * acc + d) true
      | None =>
          if Ascii.eqb c "_" && after_digit then digits r acc false else None
      end
  end.

Definition signed_digits (s : string) : option Z :=
  match s with
  | String "+" r => digits r 0 false
  | String "-" r => Z.opp <$> digits r 0 false
  | _ => digits s 0 false
  end.

(** What [int] skips around the number, on code points below 256. *)
Definition is_int_space (c : ascii) : bool :=
  let n := nat_of_ascii c in
  ((9 <=? n)%nat && (n <=? 13)%nat) || (n =? 32)%nat || (n =? 133)%nat || (n =? 160)%nat.

Fixpoint int_lstrip (s : string) : string :=
  match s with
  | EmptyString => EmptyString
  | String c r => if is_int_space c then int_lstrip r else s
  end.

Fixpoint int_rstrip (s : string) : string :=
  match s with
  | EmptyString => EmptyString
  | String c r =>
      match int_rstrip r with
      | EmptyString => if is_int_space c then EmptyString else String c EmptyString
      | r' => String c r'
      end
  end.

Definition py_int (s : string) : option Z := signed_digits (int_rstrip (int_lstrip s)).

(** Every character of [s] passes [p]. *)
Fixpoint all_chars (p : ascii -> bool) (s : string) : bool :=
  match s with
  | EmptyString => true
  | String c r => p c && all_chars p r
  end.

(** A character of a printed integer: a digit or the minus sign. *)
Definition is_numeral (c : ascii) : bool :=
  match digit_of c with Some _ => true | None => Ascii.eqb c "-" end.

(** The lines of the file for a table, in the table's order. *)
Fixpoint lines_of (t : dict Z) : string :=
  match t with
  | [] => EmptyString
  | (k, v) :: r =>
      (py_str k +++ "," +++ py_str v) +++ String "010" (lines_of r)
  end.

(** A numeral or a comma is neither white space nor a line break. *)
Definition is_field_char (c : ascii) : bool := is_numeral c || is_comma c.

Lemma all_chars_impl (p q : ascii -> bool) s :
  (forall c, p c = true -> q c = true) -> all_chars p s = true -> all_chars q s = true.
Proof.
  intros Hpq. induction s as [|x s IH]; simpl; [done|].
  intros [Hx Hs]%andb_true_iff. by rewrite (Hpq x Hx), IH.
Qed.

Lemma numeral_uint d : all_chars is_numeral (NilEmpty.string_of_uint d) = true.
Proof. induction d; simpl; auto. Qed.

Lemma py_str_numeral z : all_chars is_numeral (py_str z) = true.
Proof.
  unfold py_str, NilZero.string_of_int, NilZero.string_of_uint.
  destruct (Z.to_int z) as [d|d]; destruct d; simpl; try done; apply numeral_uint.
Qed.

Lemma numeral_fields (p : ascii -> bool) z :
  (forall c, is_numeral c = true -> p c = true) -> all_chars p (py_str z) = true.
Proof. intros Hp. eapply all_chars_impl; [exact Hp|apply py_str_numeral]. Qed.

(** The concrete [int] reads what [str] prints. *)

Lemma digits_step (c : ascii) (k : Z) (r : string) (acc : Z) (b : bool) :
  digit_of c = Some k -> digits (String c r) acc b = digits r (10 * acc + k) true.
Proof. intros H. simpl. by rewrite H. Qed.

Lemma digits_acc d :
  forall p : positive,
  digits (NilEmpty.string_of_uint d) (Z.pos p) true = Some (Z.pos (Pos.of_uint_acc d p)).
Proof.
  induction d; intros p; cbn [NilEmpty.string_of_uint Pos.of_uint_acc]; [done|..];
    (erewrite digits_step by (vm_compute; reflexivity)); rewrite <- IHd; f_equal; lia.
Qed.

Lemma digits_zero d b :
  d ≠ Nil \/ b = true ->
  digits (NilEmpty.string_of_uint d) 0 b = Some (Z.of_N (Pos.of_uint d)).
Proof.
  revert b. induction d; intros b Hd;
    cbn [NilEmpty.string_of_uint Pos.of_uint].
  - destruct Hd as [Hd| ->]; done.
  - erewrite digits_step by (vm_compute; reflexivity). apply IHd. by right.
  - erewrite digits_step by (vm_compute; reflexivity). apply (digits_acc d 1).
  - erewrite digits_step by (vm_compute; reflexivity). apply (digits_acc d 2).
  - erewrite digits_step by (vm_compute; reflexivity). apply (digits_acc d 3).
  - erewrite digits_step by (vm_compute; reflexivity). apply (digits_acc d 4).
  - erewrite digits_step by (vm_compute; reflexivity). apply (digits_acc d 5).
  - erewrite digits_step by (vm_compute; reflexivity). apply (digits_acc d 6).
  - erewrite digits_step by (vm_compute; reflexivity). apply (digits_acc d 7).
  - erewrite digits_step by (vm_compute; reflexivity). apply (digits_acc d 8).
  - erewrite digits_step by (vm_compute; reflexivity). apply (digits_acc d 9).
Qed.

Lemma int_strip_plain s :
  all_chars (fun c => negb (is_int_space c)) s = true ->
  int_rstrip (int_lstrip s) = s.
Proof.
  intros Hs.
  assert (int_lstrip s = s) as ->.
  { destruct s as [|c r]; [done|]. simpl in *.
    apply andb_true_iff in Hs as [Hc _]. by destruct (is_int_space c). }
  induction s as [|c r IH]; [done|]. simpl in *.
  apply andb_true_iff in Hs as [Hc Hr]. rewrite (IH Hr).
  destruct r; [|done]. by destruct (is_int_space c).
Qed.

Lemma numeral_not_int_space c : is_numeral c = true -> negb (is_int_space c) = true.
Proof.
  destruct c as [[] [] [] [] [] [] [] []]; vm_compute; intros H; by try discriminate H.
Qed.

Lemma signed_digits_uint d :
  d ≠ Nil ->
  signed_digits (NilEmpty.string_of_uint d) = digits (NilEmpty.string_of_uint d) 0 false.
Proof. by destruct d. Qed.

Lemma py_int_str z : py_int (py_str z) = Some z.
Proof.
  unfold py_int.
  rewrite int_strip_plain by (apply numeral_fields, numeral_not_int_space).
  unfold py_str. destruct z as [|p|p]; [done|..]; cbn [Z.to_int NilZero.string_of_int].
  - pose proof (Unsigned.to_uint_nonnil p) as Hp.
    assert (NilZero.string_of_uint (Pos.to_uint p)
            = NilEmpty.string_of_uint (Pos.to_uint p)) as ->
      by (by destruct (Pos.to_uint p)).
    rewrite signed_digits_uint, digits_zero, Unsigned.of_to by auto. done.
  - pose proof (Unsigned.to_uint_nonnil p) as Hp.
    assert (NilZero.string_of_uint (Pos.to_uint p)
            = NilEmpty.string_of_uint (Pos.to_uint p)) as ->
      by (by destruct (Pos.to_uint p)).
    cbn [signed_digits].
    rewrite digits_zero, Unsigned.of_to by auto. done.
Qed.

(** Python's [int], on code points below 256, as an instance of the
    interface. *)
Definition python_int : IntSyntax :=
  {| int_of_str := py_int; int_of_str_str := py_int_str |}.

(** * Verification *)

(** ** Arithmetic of the tree layout *)

Lemma shiftl_1_pow l : 0 <= l -> Z.shiftl 1 l = 2 ^ l.
Proof. intros. rewrite Z.shiftl_mul_pow2 by lia. lia. Qed.

Lemma pow2_pos l : 0 <= l -> 0 < 2 ^ l.
Proof. intros. apply Z.pow_pos_nonneg; lia. Qed.

Lemma pow2_succ l : 0 <= l -> 2 ^ (l + 1) = 2 * 2 ^ l.
Proof. intros. rewrite Z.pow_add_r by lia. lia. Qed.

Lemma pow2_le l l' : 0 <= l <= l' -> 2 ^ l <= 2 ^ l'.
Proof. intros. apply Z.pow_le_mono_r; lia. Qed.

(** The ancestor at level [l] of a leaf is a node of that level. *)
Lemma shiftr_leaf_bound L x l :
  0 <= l <= L -> 0 <= x < 2 ^ L -> 0 <= Z.shiftr x (L - l) < 2 ^ l.
Proof.
  intros Hl Hx. rewrite Z.shiftr_div_pow2 by lia.
  assert (0 < 2 ^ (L - l)) by (apply pow2_pos; lia).
  split; [apply Z.div_pos; lia|].
  apply Z.div_lt_upper_bound; [lia|].
  rewrite <- Z.pow_add_r by lia. replace (L - l + l) with L by lia. lia.
Qed.

Lemma shiftr_leaf_root L x : 0 <= L -> 0 <= x < 2 ^ L -> Z.shiftr x L = 0.
Proof.
  intros HL Hx. pose proof (shiftr_leaf_bound L x 0) as H.
  rewrite Z.sub_0_r in H. simpl in H. lia.
Qed.


Lemma node_index_range L l idx :
  valid_node L l idx -> 2 ^ l - 1 <= node_index l idx < 2 ^ (l + 1) - 1.
Proof.
  intros [Hl Hi]. unfold node_index. rewrite shiftl_1_pow, pow2_succ by lia. lia.
Qed.

Lemma node_index_bound L l idx :
  valid_node L l idx -> 0 <= node_index l idx < 2 ^ (L + 1) - 1.
Proof.
  intros Hv. pose proof (node_index_range _ _ _ Hv) as Hr. destruct Hv as [Hl Hi].
  assert (0 < 2 ^ l) by (apply pow2_pos; lia).
  assert (2 ^ (l + 1) <= 2 ^ (L + 1)) by (apply pow2_le; lia). lia.
Qed.

Lemma node_index_inj L l idx l' idx' :
  valid_node L l idx -> valid_node L l' idx' ->
  node_index l idx = node_index l' idx' -> l = l' /\ idx = idx'.
Proof.
  intros Hv Hv' Heq.
  pose proof (node_index_range _ _ _ Hv) as Hr.
  pose proof (node_index_range _ _ _ Hv') as Hr'.
  destruct Hv as [Hl Hi], Hv' as [Hl' Hi'].
  assert (l = l') as ->.
  { destruct (Z.lt_trichotomy l l') as [Hlt|[?|Hlt]]; [|done|].
    - assert (2 ^ (l + 1) <= 2 ^ l') by (apply pow2_le; lia). lia.
    - assert (2 ^ (l' + 1) <= 2 ^ l) by (apply pow2_le; lia). lia. }
  split; [done|]. unfold node_index in Heq. lia.
Qed.

(** Every slot of the flat array is the slot of a node. *)
Lemma node_index_surj L j :
  0 <= L -> 0 <= j < 2 ^ (L + 1) - 1 ->
  exists l idx, valid_node L l idx /\ node_index l idx = j.
Proof.
  intros HL Hj. exists (Z.log2 (j + 1)), (j + 1 - 2 ^ Z.log2 (j + 1)).
  pose proof (Z.log2_spec (j + 1) ltac:(lia)) as Hs.
  pose proof (Z.log2_nonneg (j + 1)) as Hn.
  assert (Z.log2 (j + 1) <= L) as HlL.
  { destruct (Z.le_gt_cases (Z.log2 (j + 1)) L) as [|Hgt]; [done|].
    assert (2 ^ (L + 1) <= 2 ^ Z.log2 (j + 1)) by (apply pow2_le; lia). lia. }
  unfold valid_node, node_index. rewrite shiftl_1_pow by lia.
  rewrite <- Z.add_1_r, pow2_succ in Hs by lia. lia.
Qed.

(** ** Python lists and dicts *)

Lemma py_index_in len i :
  0 <= i < Z.of_nat len -> py_index len i = Some (Z.to_nat i).
Proof.
  intros H. unfold py_index.
  destruct (Z.leb_spec 0 i); [|lia]. destruct (Z.ltb_spec i (Z.of_nat len)); [done|lia].
Qed.

Lemma py_range_down_elem a l : l ∈ py_range_down a <-> 0 <= l <= a.
Proof.
  unfold py_range_down, py_range. rewrite elem_of_reverse, elem_of_seqZ. lia.
Qed.

Lemma py_range_elem a b l : l ∈ py_range a b <-> a <= l < b.
Proof. unfold py_range. rewrite elem_of_seqZ. lia. Qed.

Section Dict.

Context {V : Type}.
Implicit Types (d : dict V) (k : Z) (v : V).

Lemma dict_get_None k d : dict_get k d = None <-> k ∉ d.*1.
Proof.
  induction d as [|[k' v'] d IH]; simpl.
  - split; [intros _; apply not_elem_of_nil|done].
  - rewrite not_elem_of_cons. destruct (Z.eqb_spec k' k) as [->|Hne].
    + split; [done|]. by intros [Hk _].
    + rewrite IH. split; [by intros; split; [congruence|]|by intros [_ ?]].
Qed.

Lemma dict_get_Some_elem k v d : dict_get k d = Some v -> (k, v) ∈ d.
Proof.
  induction d as [|[k' v'] d IH]; simpl; [done|].
  destruct (Z.eqb_spec k' k) as [->|]; intros H.
  - injection H as ->. left.
  - right. auto.
Qed.

Lemma dict_get_elem k v d : NoDup d.*1 -> (k, v) ∈ d -> dict_get k d = Some v.
Proof.
  induction d as [|[k' v'] d IH]; simpl; intros Hnd Hin.
  - by apply elem_of_nil in Hin.
  - apply NoDup_cons in Hnd as [Hk Hnd]. apply elem_of_cons in Hin as [Heq|Hin].
    + injection Heq as <- <-. by rewrite Z.eqb_refl.
    + destruct (Z.eqb_spec k' k) as [->|]; [|auto].
      exfalso. apply Hk. by apply (list_elem_of_fmap_2 fst) in Hin.
Qed.

Lemma dict_get_app k d1 d2 :
  dict_get k (d1 ++ d2) = match dict_get k d1 with
                          | Some v => Some v
                          | None => dict_get k d2
                          end.
Proof.
  induction d1 as [|[k' v'] d1 IH]; simpl; [done|]. by destruct (k' =? k).
Qed.

Lemma dict_get_perm k d d' : NoDup d.*1 -> d ≡ₚ d' -> dict_get k d = dict_get k d'.
Proof.
  intros Hnd Hp.
  assert (NoDup d'.*1) as Hnd' by (by rewrite <- Hp).
  destruct (dict_get k d) as [v|] eqn:Hg.
  - symmetry. apply dict_get_elem; [done|]. rewrite <- Hp. by apply dict_get_Some_elem.
  - symmetry. apply dict_get_None. rewrite <- Hp. by apply dict_get_None.
Qed.

Lemma dict_set_fresh k v d : k ∉ d.*1 -> dict_set k v d = d ++ [(k, v)].
Proof.
  induction d as [|[k' v'] d IH]; simpl; [done|].
  rewrite not_elem_of_cons. intros [Hne Hk].
  destruct (Z.eqb_spec k' k); [congruence|]. by rewrite IH.
Qed.

Lemma dict_set_keys k v d : k ∈ d.*1 -> (dict_set k v d).*1 = d.*1.
Proof.
  induction d as [|[k' v'] d IH]; simpl; intros Hin.
  - by apply elem_of_nil in Hin.
  - destruct (Z.eqb_spec k' k) as [->|Hne]; [done|]. simpl. f_equal. apply IH.
    apply elem_of_cons in Hin as [?|?]; [congruence|done].
Qed.

Lemma dict_get_set k v d k' :
  dict_get k' (dict_set k v d) = if k' =? k then Some v else dict_get k' d.
Proof.
  induction d as [|[k0 v0] d IH]; simpl.
  - by rewrite (Z.eqb_sym k k').
  - destruct (Z.eqb_spec k0 k) as [->|Hne]; simpl.
    + rewrite (Z.eqb_sym k k'). by destruct (k' =? k).
    + destruct (Z.eqb_spec k0 k') as [->|]; [|done].
      by destruct (Z.eqb_spec k' k).
Qed.

Lemma dict_pop_spec k d :
  k ∈ d.*1 ->
  exists v d', dict_pop k d = Some (v, d') /\ dict_get k d = Some v /\ d ≡ₚ (k, v) :: d'.
Proof.
  induction d as [|[k' v'] d IH]; simpl; intros Hin.
  - by apply elem_of_nil in Hin.
  - destruct (Z.eqb_spec k' k) as [->|Hne]; [by eauto|].
    apply elem_of_cons in Hin as [?|Hin]; [congruence|].
    destruct (IH Hin) as (v & d' & -> & Hg & Hp). exists v, ((k', v') :: d').
    split_and!; [done..|]. rewrite Hp. apply Permutation_swap.
Qed.

End Dict.

(** ** Loops *)

(** A loop that keeps an invariant indexed by the elements already
    visited runs to its end and establishes the invariant of the whole
    list. *)
Lemma for_each_inv {S X} (I : list X -> S -> Prop) (xs : list X) (body : X -> M S unit) s :
  I [] s ->
  (forall pre x post s1, xs = pre ++ x :: post -> I pre s1 ->
     exists s2, body x s1 = Ok tt s2 /\ I (pre ++ [x]) s2) ->
  exists s', for_each xs body s = Ok tt s' /\ I xs s'.
Proof.
  revert I s. induction xs as [|x xs IH]; intros I s H0 Hstep; simpl.
  - by exists s.
  - destruct (Hstep [] x xs s eq_refl H0) as (s2 & Hb & HI).
    unfold bind. rewrite Hb.
    apply (IH (fun pre => I (x :: pre))); [done|].
    intros pre y post s1 -> Hpre. apply (Hstep (x :: pre) y post); [done|done].
Qed.

(** ** The engine's primitives *)

Lemma moved_refl o : moved o o.
Proof. by constructor. Qed.

Lemma moved_trans o1 o2 o3 : moved o1 o2 -> moved o2 o3 -> moved o1 o3.
Proof.
  intros [] []. constructor; try congruence. by etrans.
Qed.

Lemma moved_shape o o' : shape o -> moved o o' -> shape o'.
Proof.
  intros [Hp Hn Hl Ht Hpo Hlf] [mN mZ mL mn ml mp mt _].
  constructor; rewrite ?mN, ?mZ, ?mL, ?mn, ?ml, ?mp, ?mt; done.
Qed.

Lemma moved_conserved o o' : conserved o -> moved o o' -> conserved o'.
Proof.
  unfold conserved, block_ids. intros Hc [mN _ _ _ _ _ _ mp]. by rewrite mp, mN.
Qed.

Lemma conserved_NoDup o : conserved o -> NoDup (block_ids o).
Proof. unfold conserved, py_range. intros ->. apply NoDup_seqZ. Qed.

Lemma conserved_range o bid : conserved o -> bid ∈ block_ids o -> 0 <= bid < o_N o.
Proof.
  unfold conserved. intros -> Hin. apply py_range_elem in Hin. lia.
Qed.

Lemma shape_L o : shape o -> 0 <= o_L o.
Proof. intros [(? & ? & ? & ?)]. lia. Qed.

Lemma path_idx_eq L x l :
  0 <= l <= L -> 0 <= x < 2 ^ L ->
  (if 0 <? l then Z.shiftr x (L - l) else 0) = Z.shiftr x (L - l).
Proof.
  intros Hl Hx. destruct (Z.ltb_spec 0 l); [done|].
  assert (l = 0) as -> by lia. rewrite Z.sub_0_r. symmetry. apply shiftr_leaf_root; lia.
Qed.

Lemma path_node_valid L x l :
  0 <= l <= L -> 0 <= x < 2 ^ L -> valid_node L l (Z.shiftr x (L - l)).
Proof. intros. split; [done|]. by apply shiftr_leaf_bound. Qed.

Lemma path_nodes_elem L x nd :
  0 <= x < 2 ^ L ->
  nd ∈ path_nodes L x <-> 0 <= nd.1 <= L /\ nd.2 = Z.shiftr x (L - nd.1).
Proof.
  intros Hx. unfold path_nodes. rewrite list_elem_of_fmap. split.
  - intros (l & -> & Hl). apply py_range_elem in Hl. simpl.
    split; [lia|]. apply path_idx_eq; lia.
  - intros [Hl Hn]. exists nd.1. split; [|apply py_range_elem; lia].
    rewrite path_idx_eq by lia. rewrite <- Hn. by destruct nd.
Qed.

Lemma path_slots_elem L x j :
  0 <= x < 2 ^ L ->
  j ∈ path_slots L x <->
  exists l, 0 <= l <= L /\ j = Z.to_nat (node_index l (Z.shiftr x (L - l))).
Proof.
  intros Hx. unfold path_slots. rewrite list_elem_of_fmap. split.
  - intros ([l idx] & -> & Hin). apply path_nodes_elem in Hin as [Hl Hi]; [|done].
    simpl in *. subst idx. eauto.
  - intros (l & Hl & ->). exists (l, Z.shiftr x (L - l)). split; [done|].
    by apply path_nodes_elem.
Qed.

Lemma bucket_spec o l idx :
  shape o -> valid_node (o_L o) l idx ->
  _bucket l idx o = Ok (Z.to_nat (node_index l idx)) o
  /\ (Z.to_nat (node_index l idx) < length (tree o))%nat.
Proof.
  intros Hs Hv. pose proof (node_index_bound _ _ _ Hv) as Hb.
  destruct Hs as [_ Hn _ Ht _ _].
  unfold _bucket, bind, get. rewrite py_index_in by lia. split; [done|lia].
Qed.

Lemma position_at_spec o a :
  shape o -> 0 <= a < o_N o ->
  exists p, position_at a o = Ok p o
    /\ position o !! Z.to_nat a = Some p /\ 0 <= p < 2 ^ o_L o.
Proof.
  intros [_ _ _ _ Hp Hl] Ha.
  destruct (lookup_lt_is_Some_2 (position o) (Z.to_nat a)) as [p Hlk]; [lia|].
  pose proof (Forall_lookup_1 _ _ _ _ Hl Hlk) as Hr. simpl in Hr.
  exists p. unfold position_at, bind, get. rewrite py_index_in by lia.
  rewrite Hlk. by split; [|split].
Qed.

(** Emptying or refilling one bucket moves its pairs and no others. *)
Lemma concat_insert_perm (t : list bucket) r b b' :
  t !! r = Some b -> concat (<[r := b']> t) ++ b ≡ₚ concat t ++ b'.
Proof.
  revert r. induction t as [|c t IH]; intros [|r] Hlk; simplify_eq/=.
  - rewrite (Permutation_app_comm (b' ++ concat t) b), <- (assoc_L (++)).
    apply Permutation_app_head, Permutation_app_comm.
  - rewrite <- !(assoc_L (++)). by rewrite IH.
Qed.

(** The copy loop of the path read: a bucket whose ids are new to the
    stash lands behind it, in order. *)
Lemma copy_bucket_spec (b : bucket) o :
  NoDup ((stash o).*1 ++ b.*1) ->
  for_each b (fun p => stash_set p.1 p.2) o = Ok tt (with_stash (stash o ++ b) o).
Proof.
  revert o. induction b as [|[bid d] b IH]; intros o Hnd; simpl.
  - rewrite app_nil_r. by destruct o.
  - unfold bind, stash_set at 1, modify. simpl.
    apply NoDup_app in Hnd as (Hs & Hdis & Hb). apply NoDup_cons in Hb as [Hbid Hb].
    rewrite dict_set_fresh by (intros Hin; apply (Hdis _ Hin); left).
    rewrite IH; simpl.
    + by rewrite <- (assoc_L (++)).
    + rewrite fmap_app. simpl. rewrite <- (assoc_L (++)). simpl.
      apply NoDup_app. split_and!; [done| |by apply NoDup_cons].
      intros k Hk. apply Hdis. done.
Qed.

(** ** The path read *)

Lemma bucket_of_lookup o l idx :
  (Z.to_nat (node_index l idx) < length (tree o))%nat ->
  tree o !! Z.to_nat (node_index l idx) = Some (bucket_of o l idx).
Proof.
  intros Hlt. unfold bucket_of.
  destruct (lookup_lt_is_Some_2 _ _ Hlt) as [b Hb]. by rewrite Hb.
Qed.

Lemma block_ids_split o r b :
  tree o !! r = Some b ->
  block_ids o ≡ₚ (concat (<[r := []]> (tree o))).*1 ++ (stash o).*1 ++ b.*1.
Proof.
  intros Hlk. unfold block_ids, pairs.
  pose proof (concat_insert_perm _ _ _ [] Hlk) as Hp. rewrite app_nil_r in Hp.
  rewrite <- Hp, !fmap_app, <- (assoc_L (++)).
  apply Permutation_app_head, Permutation_app_comm.
Qed.

Lemma read_bucket_spec o l idx :
  shape o -> NoDup (block_ids o) -> valid_node (o_L o) l idx ->
  read_bucket (l, idx) o =
    Ok tt (with_tree (<[Z.to_nat (node_index l idx) := []]> (tree o))
             (with_stash (stash o ++ bucket_of o l idx) o)).
Proof.
  intros Hs Hnd Hv. destruct (bucket_spec o l idx Hs Hv) as [Hb Hlt].
  pose proof (bucket_of_lookup o l idx Hlt) as Hlk.
  unfold read_bucket, bind. simpl. rewrite Hb.
  assert (deref (Z.to_nat (node_index l idx)) o = bucket_of o l idx) as -> by done.
  rewrite copy_bucket_spec; [done|].
  rewrite (block_ids_split _ _ _ Hlk) in Hnd. by apply NoDup_app in Hnd as (_ & _ & ?).
Qed.

Lemma read_bucket_moved o r b :
  tree o !! r = Some b ->
  moved o (with_tree (<[r := []]> (tree o)) (with_stash (stash o ++ b) o)).
Proof.
  intros Hlk. constructor; simpl; try done.
  - by rewrite length_insert.
  - unfold pairs. simpl. rewrite (Permutation_app_comm (stash o) b), (assoc_L (++)).
    by rewrite (concat_insert_perm _ _ _ [] Hlk), app_nil_r.
Qed.

(** The path read leaves the buckets of the path empty, moves their
    pairs behind the stash, and touches nothing else. *)
Lemma read_path_spec o x :
  shape o -> NoDup (block_ids o) -> 0 <= x < 2 ^ o_L o ->
  exists o', read_path x o = Ok tt o'
    /\ moved o o'
    /\ (forall j, j ∈ path_slots (o_L o) x -> tree o' !! j = Some [])
    /\ (forall j, j ∉ path_slots (o_L o) x -> tree o' !! j = tree o !! j)
    /\ (forall p, p ∈ stash o -> p ∈ stash o')
    /\ (forall j b p, j ∈ path_slots (o_L o) x -> tree o !! j = Some b -> p ∈ b ->
          p ∈ stash o').
Proof.
  intros Hs Hnd Hx. unfold read_path, bind, get.
  set (slot := fun nd : Z * Z => Z.to_nat (node_index nd.1 nd.2)).
  destruct (for_each_inv
    (fun pre o1 =>
       moved o o1
       /\ (forall j, j ∈ slot <$> pre -> tree o1 !! j = Some [])
       /\ (forall j, j ∉ slot <$> pre -> tree o1 !! j = tree o !! j)
       /\ (forall p, p ∈ stash o -> p ∈ stash o1)
       /\ (forall j b p, j ∈ slot <$> pre -> tree o !! j = Some b -> p ∈ b ->
             p ∈ stash o1))
    (path_nodes (o_L o) x) read_bucket o) as (o' & Hrun & HI).
  - split_and!; [apply moved_refl| | done | done |].
    + intros j Hj. by apply elem_of_nil in Hj.
    + intros j b p Hj. by apply elem_of_nil in Hj.
  - intros pre [l idx] post o1 Hsplit (Hmv & Hemp & Hsame & Hst & Hgot).
    assert ((l, idx) ∈ path_nodes (o_L o) x) as Hin.
    { rewrite Hsplit. apply elem_of_app. right. left. }
    apply path_nodes_elem in Hin as [Hl Hidx]; [|done]. simpl in Hl, Hidx.
    assert (valid_node (o_L o) l idx) as Hv.
    { subst idx. by apply path_node_valid. }
    pose proof (moved_shape _ _ Hs Hmv) as Hs1.
    assert (NoDup (block_ids o1)) as Hnd1.
    { unfold block_ids. by rewrite (moved_pairs _ _ Hmv). }
    rewrite <- (moved_L _ _ Hmv) in Hv.
    rewrite (read_bucket_spec o1 l idx Hs1 Hnd1 Hv).
    destruct (bucket_spec o1 l idx Hs1 Hv) as [_ Hlt].
    pose proof (bucket_of_lookup o1 l idx Hlt) as Hlk.
    eexists. split; [done|]. simpl.
    split_and!.
    + eapply moved_trans; [done|]. by apply read_bucket_moved.
    + intros j Hj. rewrite fmap_app in Hj. apply elem_of_app in Hj as [Hj|Hj].
      * destruct (decide (j = slot (l, idx))) as [->|Hne].
        { by rewrite list_lookup_insert_eq. }
        rewrite list_lookup_insert_ne by done. auto.
      * apply list_elem_of_singleton in Hj as ->. by rewrite list_lookup_insert_eq.
    + intros j Hj. rewrite fmap_app, elem_of_app in Hj.
      rewrite list_lookup_insert_ne.
      * apply Hsame. tauto.
      * intros <-. apply Hj. right. simpl. left.
    + intros p Hp. apply elem_of_app. left. auto.
    + intros j b p Hj Hb Hp. apply elem_of_app.
      rewrite fmap_app in Hj. apply elem_of_app in Hj as [Hj|Hj]; [left; eauto|].
      apply list_elem_of_singleton in Hj as ->.
      destruct (decide (slot (l, idx) ∈ slot <$> pre)) as [Hpre|Hpre]; [left; eauto|].
      right. pose proof (Hsame _ Hpre) as Hsm. unfold slot in Hsm, Hb. simpl in Hsm, Hb.
      rewrite Hsm, Hb in Hlk. by injection Hlk as <-.
  - exists o'. split; [done|]. destruct HI as (? & ? & ? & ? & ?).
    by split_and!.
Qed.

(** ** Eviction *)

Lemma concat_insert_app (t : list bucket) r b e :
  t !! r = Some b -> concat (<[r := b ++ e]> t) ≡ₚ concat t ++ e.
Proof.
  revert r. induction t as [|c t IH]; intros [|r] Hlk; simplify_eq/=.
  - rewrite <- !(assoc_L (++)). apply Permutation_app_head, Permutation_app_comm.
  - rewrite <- (assoc_L (++)). by rewrite IH.
Qed.

(** The scan picks, in stash order, keys whose leaf passes the subtree
    test, and never more than the room left. *)
Lemma choose_loop_spec o x l capacity keys chosen :
  shape o -> (forall k, k ∈ keys -> 0 <= k < o_N o) ->
  Z.of_nat (length chosen) < capacity ->
  exists extra, choose_loop x l capacity keys chosen o = Ok (chosen ++ extra) o
    /\ extra `sublist_of` keys
    /\ Z.of_nat (length (chosen ++ extra)) <= capacity
    /\ (forall bid, bid ∈ extra ->
          exists p, position o !! Z.to_nat bid = Some p
            /\ same_subtree_at_level (o_L o) p x l = true).
Proof.
  intros Hs. revert chosen. induction keys as [|bid keys IH]; intros chosen Hk Hlen; simpl.
  - exists []. rewrite app_nil_r. split_and!; [done|done|lia|].
    intros bid Hin. by apply elem_of_nil in Hin.
  - destruct (position_at_spec o bid Hs) as (p & Hp & Hlk & _); [apply Hk; left|].
    unfold bind. rewrite Hp. unfold get at 1.
    destruct (same_subtree_at_level (o_L o) p x l) eqn:Hsub.
    + destruct (Z.eqb_spec (Z.of_nat (length (chosen ++ [bid]))) capacity) as [Hfull|Hroom].
      * exists [bid]. split_and!; [done| |lia|].
        { apply sublist_skip, sublist_nil_l. }
        intros b Hin. apply list_elem_of_singleton in Hin as ->. eauto.
      * destruct (IH (chosen ++ [bid])) as (extra & Hrun & Hsl & Hle & Hall).
        { intros k Hin. apply Hk. by right. }
        { rewrite length_app in *. simpl in *. lia. }
        exists (bid :: extra). rewrite Hrun, <- (assoc_L (++)). simpl.
        split_and!; [done| |by rewrite <- (assoc_L (++)) in Hle|].
        { by apply sublist_skip. }
        intros b Hin. apply elem_of_cons in Hin as [->|Hin]; eauto.
    + destruct (IH chosen) as (extra & Hrun & Hsl & Hle & Hall); [|done|].
      { intros k Hin. apply Hk. by right. }
      exists extra. rewrite Hrun. split_and!; [done| |done|done].
      by apply sublist_cons.
Qed.

(** The move loop takes the chosen keys out of the stash and appends
    their pairs to the bucket, in order. *)
Lemma move_loop_spec o r b chosen :
  tree o !! r = Some b -> NoDup chosen ->
  (forall k, k ∈ chosen -> k ∈ (stash o).*1) ->
  exists o' mv,
    for_each chosen (fun bid => bind (stash_pop bid) (fun v => bucket_append r (bid, v))) o
      = Ok tt o'
    /\ moved o o' /\ mv.*1 = chosen
    /\ tree o' = <[r := b ++ mv]> (tree o)
    /\ stash o ≡ₚ mv ++ stash o'.
Proof.
  intros Hlk Hnd Hin.
  pose proof (lookup_lt_Some _ _ _ Hlk) as Hlt.
  destruct (for_each_inv
    (fun pre o1 =>
       moved o o1 /\ exists mv, mv.*1 = pre
         /\ tree o1 = <[r := b ++ mv]> (tree o)
         /\ stash o ≡ₚ mv ++ stash o1)
    chosen (fun bid => bind (stash_pop bid) (fun v => bucket_append r (bid, v))) o)
    as (o' & Hrun & Hmv & mv & Hk & Ht & Hst).
  - split; [apply moved_refl|]. exists []. rewrite app_nil_r.
    split_and!; [done| |done]. by rewrite list_insert_id.
  - intros pre k post o1 -> (Hmv & mv & Hk & Ht & Hst).
    assert (k ∈ (stash o1).*1) as Hk1.
    { assert (k ∈ (stash o).*1) as Hk0 by (apply Hin, elem_of_app; right; left).
      rewrite Hst, fmap_app, Hk in Hk0. apply elem_of_app in Hk0 as [Hpre|?]; [|done].
      apply NoDup_app in Hnd as (_ & Hdis & _). exfalso. apply (Hdis _ Hpre). left. }
    destruct (dict_pop_spec k (stash o1) Hk1) as (v & d' & Hpop & _ & Hperm).
    unfold stash_pop. unfold bind, get. rewrite Hpop. unfold bind, modify, ret, bucket_append, modify.
    eexists. split; [reflexivity|]. simpl.
    assert (deref r (with_stash d' o1) = b ++ mv) as Hd.
    { unfold deref. simpl. rewrite Ht. by rewrite list_lookup_insert_eq. }
    rewrite Hd. split.
    + eapply moved_trans; [done|]. constructor; simpl; try done.
      * by rewrite length_insert.
      * unfold pairs. simpl. rewrite concat_insert_app.
        { rewrite Hperm. rewrite <- (assoc_L (++)). done. }
        rewrite Ht. by apply list_lookup_insert_eq.
    + exists (mv ++ [(k, v)]). split_and!.
      * by rewrite fmap_app, Hk.
      * rewrite Ht, list_insert_insert_eq. by rewrite (assoc_L (++)).
      * rewrite Hst, Hperm, <- (assoc_L (++)). done.
  - exists o', mv. by split_and!.
Qed.

Lemma elem_of_concat {A} (x : A) (t : list (list A)) :
  x ∈ concat t <-> exists b, b ∈ t /\ x ∈ b.
Proof.
  induction t as [|c t IH]; simpl.
  - split; [intros H; by apply elem_of_nil in H|].
    intros (b & H & _). by apply elem_of_nil in H.
  - rewrite elem_of_app, IH. split.
    + intros [H|(b & Hb & Hx)]; [exists c; split; [left|done]|].
      exists b. split; [by right|done].
    + intros (b & Hb & Hx). apply elem_of_cons in Hb as [->|Hb]; [by left|].
      right. eauto.
Qed.

Lemma bucket_of_elem o l idx p : p ∈ bucket_of o l idx -> p ∈ concat (tree o).
Proof.
  unfold bucket_of. destruct (tree o !! Z.to_nat (node_index l idx)) as [b|] eqn:Hlk; simpl.
  - intros Hp. apply elem_of_concat. exists b. split; [|done].
    by eapply list_elem_of_lookup_2.
  - intros Hp. by apply elem_of_nil in Hp.
Qed.

Lemma stash_key_range o k : conserved o -> k ∈ (stash o).*1 -> 0 <= k < o_N o.
Proof.
  intros Hc Hk. apply (conserved_range o k Hc).
  unfold block_ids, pairs. rewrite fmap_app. apply elem_of_app. by right.
Qed.

Lemma stash_keys_NoDup o : conserved o -> NoDup (stash o).*1.
Proof.
  intros Hc. apply conserved_NoDup in Hc. unfold block_ids, pairs in Hc.
  rewrite fmap_app in Hc. by apply NoDup_app in Hc as (_ & _ & ?).
Qed.

(** The subtree test passed by a leaf puts it below the path node. *)
Lemma same_subtree_shiftr L p x l :
  0 <= l <= L -> 0 <= p < 2 ^ L -> 0 <= x < 2 ^ L ->
  same_subtree_at_level L p x l = true -> Z.shiftr p (L - l) = Z.shiftr x (L - l).
Proof.
  intros Hl Hp Hx. unfold same_subtree_at_level.
  destruct (Z.eqb_spec l 0) as [->|Hne].
  - intros _. rewrite Z.sub_0_r, !shiftr_leaf_root by lia. done.
  - intros H. by apply Z.eqb_eq in H.
Qed.

(** One level of eviction keeps the engine well formed, moves pairs
    only, and touches no bucket but the path node of the level. *)
Lemma evict_level_spec o x l :
  wf o -> 0 <= x < 2 ^ o_L o -> 0 <= l <= o_L o ->
  exists o', evict_level x l o = Ok tt o' /\ wf o' /\ moved o o'
    /\ (forall j, j ≠ Z.to_nat (node_index l (Z.shiftr x (o_L o - l))) ->
          tree o' !! j = tree o !! j).
Proof.
  intros [Hs Hc Hcap Hsub] Hx Hl.
  pose proof (path_node_valid _ _ _ Hl Hx) as Hv.
  destruct (bucket_spec o _ _ Hs Hv) as [Hb Hlt].
  pose proof (bucket_of_lookup o _ _ Hlt) as Hlk.
  set (idx := Z.shiftr x (o_L o - l)) in *.
  set (r := Z.to_nat (node_index l idx)) in *.
  unfold evict_level. unfold bind at 1. unfold get at 1.
  rewrite path_idx_eq by done. fold idx. unfold bind at 1. rewrite Hb.
  assert (deref r o = bucket_of o l idx) as -> by done.
  set (b := bucket_of o l idx) in *.
  destruct (Z.leb_spec (o_Z o) (Z.of_nat (length b))) as [Hfull|Hroom].
  { exists o. split_and!; [done|by constructor|apply moved_refl|done]. }
  destruct (choose_loop_spec o x l (o_Z o - Z.of_nat (length b)) (dict_keys (stash o)) [] Hs)
    as (chosen & Hch & Hsl & Hlen & Hpred).
  { intros k Hk. by apply stash_key_range. }
  { simpl. lia. }
  simpl in Hch, Hlen. unfold bind. rewrite Hch.
  destruct (move_loop_spec o r b chosen Hlk) as (o' & mv & Hrun & Hmv & Hkeys & Ht & Hst).
  { eapply sublist_NoDup; [|done]. by apply stash_keys_NoDup. }
  { intros k Hk. by eapply elem_of_sublist. }
  exists o'. split; [done|].
  assert (forall j, j ≠ r -> tree o' !! j = tree o !! j) as Hframe.
  { intros j Hj. rewrite Ht. by apply list_lookup_insert_ne. }
  split_and!; [|done|done].
  constructor.
  - by eapply moved_shape.
  - by eapply moved_conserved.
  - unfold capacity_ok. rewrite Ht, (moved_Z _ _ Hmv).
    apply Forall_insert; [done|]. rewrite length_app.
    assert (length mv = length chosen) as -> by (by rewrite <- Hkeys, length_fmap). lia.
  - intros l' idx' bid d Hv' Hin.
    rewrite (moved_L _ _ Hmv) in *. rewrite (moved_position _ _ Hmv).
    unfold bucket_of in Hin.
    destruct (decide (Z.to_nat (node_index l' idx') = r)) as [Heq|Hne].
    + assert (l' = l /\ idx' = idx) as [-> ->].
      { apply (node_index_inj (o_L o)); [done..|].
        pose proof (node_index_bound _ _ _ Hv). pose proof (node_index_bound _ _ _ Hv').
        unfold r in Heq. lia. }
      fold r in Hin. rewrite Ht, list_lookup_insert_eq in Hin by done. simpl in Hin.
      apply elem_of_app in Hin as [Hin|Hin].
      * apply (Hsub l idx bid d Hv). done.
      * assert (bid ∈ chosen) as Hbid.
        { rewrite <- Hkeys. by apply (list_elem_of_fmap_2 fst) in Hin. }
        destruct (Hpred _ Hbid) as (p & Hp & Hsame). exists p. split; [done|].
        apply same_subtree_shiftr; [done| |done|done].
        destruct Hs as [_ _ _ _ _ Hleaf].
        by apply (Forall_lookup_1 _ _ _ _ Hleaf Hp).
    + rewrite Hframe in Hin by done. by apply (Hsub l' idx' bid d Hv').
Qed.

Lemma evict_spec o x :
  wf o -> 0 <= x < 2 ^ o_L o ->
  exists o', evict x o = Ok tt o' /\ wf o' /\ moved o o'
    /\ (forall j, j ∉ path_slots (o_L o) x -> tree o' !! j = tree o !! j).
Proof.
  intros Hwf Hx. unfold evict, bind, get.
  destruct (for_each_inv
    (fun _ o1 => wf o1 /\ moved o o1
       /\ (forall j, j ∉ path_slots (o_L o) x -> tree o1 !! j = tree o !! j))
    (py_range_down (o_L o)) (evict_level x) o) as (o' & Hrun & HI).
  - split_and!; [done|apply moved_refl|done].
  - intros pre l post o1 Hsplit (Hwf1 & Hmv & Hfr).
    assert (0 <= l <= o_L o) as Hl.
    { apply py_range_down_elem. rewrite Hsplit. apply elem_of_app. right. left. }
    destruct (evict_level_spec o1 x l Hwf1) as (o2 & Hrun & Hwf2 & Hmv2 & Hfr2).
    { by rewrite (moved_L _ _ Hmv). }
    { by rewrite (moved_L _ _ Hmv). }
    exists o2. split; [done|]. split_and!; [done|by eapply moved_trans|].
    intros j Hj. rewrite Hfr2; [by apply Hfr|].
    intros ->. apply Hj. rewrite (moved_L _ _ Hmv). apply path_slots_elem; [done|]. eauto.
  - by exists o'.
Qed.

(** ** [access], phase by phase *)

Lemma moved_same_params o o' : moved o o' -> same_params o o'.
Proof.
  intros [mN mZ mL mn ml mp mt _]. constructor; try done. by rewrite mp.
Qed.

Lemma same_params_trans o1 o2 o3 :
  same_params o1 o2 -> same_params o2 o3 -> same_params o1 o3.
Proof. intros [] []. constructor; congruence. Qed.

Lemma conserved_has_data o a :
  conserved o -> 0 <= a < o_N o -> exists d, data_of o a = Some d.
Proof.
  intros Hc Ha. unfold data_of.
  destruct (dict_get a (pairs o)) as [d|] eqn:Hg; [eauto|].
  apply dict_get_None in Hg. exfalso. apply Hg.
  change (a ∈ block_ids o). unfold conserved in Hc. rewrite Hc. apply py_range_elem. lia.
Qed.

Lemma moved_data o o' a : conserved o -> moved o o' -> data_of o' a = data_of o a.
Proof.
  intros Hc Hmv. unfold data_of. symmetry. apply dict_get_perm.
  - by apply conserved_NoDup.
  - symmetry. apply Hmv.
Qed.

(** Every slot of the tree holds the bucket of some node. *)
Lemma tree_slot_node o j b :
  shape o -> tree o !! j = Some b ->
  exists l idx, valid_node (o_L o) l idx /\ j = Z.to_nat (node_index l idx)
    /\ bucket_of o l idx = b.
Proof.
  intros Hs Hlk. pose proof (lookup_lt_Some _ _ _ Hlk) as Hlt.
  pose proof (shape_L _ Hs) as HL. destruct Hs as [_ Hn _ Ht _ _].
  destruct (node_index_surj (o_L o) (Z.of_nat j) HL) as (l & idx & Hv & Hj); [lia|].
  exists l, idx. split; [done|]. unfold bucket_of. rewrite Hj, Nat2Z.id.
  split; [done|]. by rewrite Hlk.
Qed.

Section AccessPhases.

Context (R : RandomSource).

Lemma fresh_leaf_range o g : shape o -> 0 <= fresh_leaf R o g < 2 ^ o_L o.
Proof.
  intros Hs. unfold fresh_leaf. rewrite (shape_leaves _ Hs).
  apply rng_randrange_bound, pow2_pos, shape_L, Hs.
Qed.

(** The first phase: the block's old leaf is returned, its entry of the
    position map is redrawn, and the path to the old leaf is in the stash. *)
Lemma access_read_spec o g op a :
  wf o -> valid_access o op a ->
  exists x o1,
    access_read R op a (o, g) = Ok x (o1, (rng_randrange R (leaf_space o) g).2)
    /\ position o !! Z.to_nat a = Some x /\ 0 <= x < 2 ^ o_L o
    /\ same_params o o1
    /\ position o1 = <[Z.to_nat a := fresh_leaf R o g]> (position o)
    /\ pairs o1 ≡ₚ pairs o
    /\ wf o1
    /\ (forall j, j ∈ path_slots (o_L o) x -> tree o1 !! j = Some [])
    /\ (forall j, j ∉ path_slots (o_L o) x -> tree o1 !! j = tree o !! j)
    /\ (forall p, p ∈ stash o -> p ∈ stash o1)
    /\ (forall j b p, j ∈ path_slots (o_L o) x -> tree o !! j = Some b -> p ∈ b ->
          p ∈ stash o1)
    /\ a ∈ (stash o1).*1.
Proof.
  intros [Hs Hc Hcap Hsub] [Ha Hop].
  destruct (position_at_spec o a Hs Ha) as (x & Hpos & Hx & Hxr).
  pose proof (fresh_leaf_range o g Hs) as Hfr.
  set (o0 := with_position (<[Z.to_nat a := fresh_leaf R o g]> (position o)) o).
  assert (shape o0) as Hs0.
  { destruct Hs as [? ? ? ? Hlen Hleaf]. constructor; simpl; try done.
    - by rewrite length_insert.
    - by apply Forall_insert. }
  assert (NoDup (block_ids o0)) as Hnd0 by (by apply conserved_NoDup in Hc).
  destruct (read_path_spec o0 x Hs0 Hnd0 Hxr) as (o1 & Hrun & Hmv & Hemp & Hsame & Hst & Hgot).
  simpl in Hemp, Hsame, Hst, Hgot.
  exists x, o1. split.
  { unfold access_read, bind, lift_self, lift_random, get, assert, randrange. simpl.
    destruct (Z.leb_spec 0 a); [|lia]. destruct (Z.ltb_spec a (o_N o)); [|lia]. simpl.
    assert ((String.eqb op "read" || String.eqb op "write") = true) as ->.
    { destruct Hop as [-> | ->]; reflexivity. }
    simpl. rewrite Hpos. simpl.
    destruct (Z.leb_spec (leaf_space o) 0) as [Hle|_].
    { rewrite (shape_leaves _ Hs) in Hle. pose proof (pow2_pos (o_L o) (shape_L _ Hs)). lia. }
    simpl. unfold position_set, bind, get, modify.
    rewrite py_index_in by (rewrite (shape_position _ Hs); lia).
    cbn [fst snd]. fold (fresh_leaf R o g). fold o0. by rewrite Hrun. }
  assert (forall bid d l idx, valid_node (o_L o) l idx -> (bid, d) ∈ bucket_of o l idx ->
            bid = a -> Z.to_nat (node_index l idx) ∈ path_slots (o_L o) x) as Hapath.
  { intros bid d l idx Hv Hin ->.
    destruct (Hsub l idx a d Hv Hin) as (p & Hp & Hsh).
    rewrite Hx in Hp. injection Hp as <-.
    apply path_slots_elem; [done|]. exists l. rewrite Hsh. split; [apply Hv|done]. }
  do 2 (split; [done|]). split; [|split; [|split; [|split; [|do 4 (split; [done|])]]]].
  - eapply same_params_trans; [|by apply moved_same_params].
    constructor; simpl; try done. by rewrite length_insert.
  - by rewrite (moved_position _ _ Hmv).
  - by rewrite (moved_pairs _ _ Hmv).
  - constructor.
    + by eapply moved_shape.
    + apply (moved_conserved o0); [done|done].
    + unfold capacity_ok. apply Forall_lookup_2. intros j b Hj.
      rewrite (moved_Z _ _ Hmv). simpl.
      destruct (decide (j ∈ path_slots (o_L o) x)) as [Hin|Hout].
      * rewrite (Hemp _ Hin) in Hj. injection Hj as <-. simpl.
        destruct Hs as [(? & ? & ? & ?) _ _ _ _ _]. lia.
      * rewrite (Hsame _ Hout) in Hj. by apply (Forall_lookup_1 _ _ _ _ Hcap Hj).
    + intros l idx bid d Hv Hin.
      rewrite (moved_L _ _ Hmv) in *. rewrite (moved_position _ _ Hmv). simpl in *.
      unfold bucket_of in Hin.
      destruct (decide (Z.to_nat (node_index l idx) ∈ path_slots (o_L o) x)) as [Hp|Hp].
      { rewrite (Hemp _ Hp) in Hin. by apply elem_of_nil in Hin. }
      rewrite (Hsame _ Hp) in Hin.
      destruct (Hsub l idx bid d Hv Hin) as (p & Hpb & Hsh).
      exists p. split; [|done].
      rewrite list_lookup_insert_ne; [done|].
      intros Heq. apply Hp. apply (Hapath bid d l idx Hv Hin).
      assert (0 <= bid < o_N o).
      { apply (conserved_range o bid Hc). unfold block_ids, pairs.
        rewrite fmap_app. apply elem_of_app. left.
        apply (list_elem_of_fmap_2 fst (concat (tree o)) (bid, d)).
        by eapply bucket_of_elem. }
      lia.
  - destruct (conserved_has_data o a Hc Ha) as [d Hd].
    apply dict_get_Some_elem in Hd. unfold pairs in Hd.
    apply (list_elem_of_fmap_2' fst _ (a, d)); [|done].
    apply elem_of_app in Hd as [Hd|Hd]; [|by apply Hst].
    apply elem_of_concat in Hd as (b & Hb & Hd).
    apply list_elem_of_lookup_1 in Hb as [j Hj].
    destruct (tree_slot_node o j b Hs Hj) as (l & idx & Hv & -> & Hbo).
    apply (Hgot (Z.to_nat (node_index l idx)) b); [|done|done].
    apply (Hapath a d l idx Hv); [by rewrite Hbo|done].
Qed.

End AccessPhases.

Lemma stash_data o a :
  conserved o -> a ∈ (stash o).*1 -> data_of o a = dict_get a (stash o).
Proof.
  intros Hc Ha. unfold data_of, pairs. rewrite dict_get_app.
  destruct (dict_get a (concat (tree o))) as [d|] eqn:Hg; [|done].
  apply dict_get_Some_elem, (list_elem_of_fmap_2 fst) in Hg.
  apply conserved_NoDup in Hc. unfold block_ids, pairs in Hc. rewrite fmap_app in Hc.
  apply NoDup_app in Hc as (_ & Hdis & _). by destruct (Hdis _ Hg).
Qed.

(** The second phase: the value returned is the block's data, a write
    replaces it in place, and nothing else changes. *)
Lemma access_serve_spec o op a v :
  wf o -> a ∈ (stash o).*1 ->
  exists d,
    access_serve op a v o
      = Ok d (if String.eqb op "write" then with_stash (dict_set a v (stash o)) o else o)
    /\ data_of o a = Some d.
Proof.
  intros Hwf Ha. pose proof (stash_data o a (wf_conserved _ Hwf) Ha) as Hd.
  destruct (dict_get a (stash o)) as [d|] eqn:Hg.
  - exists d. split; [|done]. unfold access_serve, bind, get, stash_set, modify, ret.
    rewrite Hg. by destruct (String.eqb op "write").
  - apply dict_get_None in Hg. done.
Qed.

Lemma write_wf o a v :
  wf o -> a ∈ (stash o).*1 -> wf (with_stash (dict_set a v (stash o)) o).
Proof.
  intros [Hs Hc Hcap Hsub] Ha. constructor; try done.
  - by destruct Hs.
  - unfold conserved, block_ids, pairs in *. simpl.
    rewrite fmap_app, dict_set_keys by done. by rewrite fmap_app in Hc.
Qed.

Lemma write_data o a v b :
  conserved o -> a ∈ (stash o).*1 ->
  data_of (with_stash (dict_set a v (stash o)) o) b
  = if b =? a then Some v else data_of o b.
Proof.
  intros Hc Ha. unfold data_of at 1. unfold pairs. simpl.
  rewrite dict_get_app, dict_get_set.
  destruct (Z.eqb_spec b a) as [->|Hne].
  - pose proof (stash_data o a Hc Ha) as Hd. unfold data_of, pairs in Hd.
    rewrite dict_get_app in Hd.
    destruct (dict_get a (concat (tree o))) as [d|] eqn:Hg; [|done].
    apply dict_get_Some_elem, (list_elem_of_fmap_2 fst) in Hg.
    apply conserved_NoDup in Hc. unfold block_ids, pairs in Hc. rewrite fmap_app in Hc.
    apply NoDup_app in Hc as (_ & Hdis & _). by destruct (Hdis _ Hg).
  - unfold data_of, pairs. by rewrite dict_get_app.
Qed.

Section AccessWhole.

Context (R : RandomSource).

(** A valid [access] on a well-formed engine returns the block's data and
    leaves a well-formed engine in which only the path to the old leaf, the
    block's leaf and, for a write, the block's data have changed. *)
Lemma access_spec o g op a v :
  wf o -> valid_access o op a ->
  exists x d o',
    access R op a v (o, g) = Ok d (o', (rng_randrange R (leaf_space o) g).2)
    /\ position o !! Z.to_nat a = Some x /\ 0 <= x < 2 ^ o_L o
    /\ data_of o a = Some d
    /\ wf o'
    /\ same_params o o'
    /\ position o' = <[Z.to_nat a := fresh_leaf R o g]> (position o)
    /\ (forall j, j ∉ path_slots (o_L o) x -> tree o' !! j = tree o !! j)
    /\ data_of o' a = Some (if String.eqb op "write" then v else d)
    /\ (forall b, b ≠ a -> data_of o' b = data_of o b).
Proof.
  intros Hwf Hva.
  destruct (access_read_spec R o g op a Hwf Hva)
    as (x & o1 & Hrun1 & Hx & Hxr & Hsp1 & Hpos1 & Hpairs1 & Hwf1 & _ & Hfr1 & _ & _ & Ha1).
  destruct (access_serve_spec o1 op a v Hwf1 Ha1) as (d & Hrun2 & Hd).
  set (o2 := if String.eqb op "write" then with_stash (dict_set a v (stash o1)) o1 else o1) in *.
  assert (wf o2) as Hwf2.
  { unfold o2. destruct (String.eqb op "write"); [by apply write_wf|done]. }
  assert (same_params o1 o2 /\ position o2 = position o1 /\ tree o2 = tree o1) as (Hsp2 & Hpos2 & Ht2).
  { unfold o2. destruct (String.eqb op "write"); by split_and!. }
  assert (forall b, data_of o2 b
            = if (b =? a) && String.eqb op "write" then Some v else data_of o1 b) as Hd2.
  { intros b. unfold o2. destruct (String.eqb op "write").
    - rewrite write_data by (done || apply Hwf1). by destruct (b =? a).
    - by rewrite andb_false_r. }
  assert (forall b, data_of o1 b = data_of o b) as Hd1.
  { intros b. unfold data_of. symmetry. apply dict_get_perm; [|done].
    apply (conserved_NoDup o), Hwf. }
  destruct (evict_spec o2 x Hwf2) as (o3 & Hrun3 & Hwf3 & Hmv3 & Hfr3).
  { rewrite (same_L _ _ Hsp2), (same_L _ _ Hsp1). done. }
  rewrite (same_L _ _ Hsp2), (same_L _ _ Hsp1) in Hfr3.
  exists x, d, o3. split.
  { unfold access, bind. rewrite Hrun1. unfold lift_self at 1. cbn [fst snd].
    rewrite Hrun2. unfold lift_self. cbn [fst snd]. by rewrite Hrun3. }
  do 2 (split; [done|]). split; [by rewrite <- Hd1|]. split; [done|].
  split; [|split; [|split; [|split]]].
  - eapply same_params_trans; [done|]. eapply same_params_trans; [done|].
    by apply moved_same_params.
  - by rewrite (moved_position _ _ Hmv3), Hpos2.
  - intros j Hj. by rewrite (Hfr3 _ Hj), Ht2, (Hfr1 _ Hj).
  - rewrite (moved_data o2 o3) by (done || apply Hwf2). rewrite Hd2, Z.eqb_refl. simpl.
    by destruct (String.eqb op "write").
  - intros b Hb. rewrite (moved_data o2 o3) by (done || apply Hwf2). rewrite Hd2.
    destruct (Z.eqb_spec b a); [done|]. simpl. apply Hd1.
Qed.

End AccessWhole.

(** ** Construction *)

Lemma same_params_refl o : same_params o o.
Proof. by constructor. Qed.

Lemma same_params_shape o o' :
  shape o -> same_params o o' -> position o' = position o -> shape o'.
Proof.
  intros [Hp Hn Hl Ht Hpo Hlf] [sN sZ sL sn sl st sp] Hpos.
  constructor; rewrite ?sN, ?sZ, ?sL, ?sn, ?sl, ?st, ?Hpos; done.
Qed.

(** The appended pair is the only change, and it respects the capacity
    and the subtree of the node it lands in. *)
Lemma append_spec o l idx a d p :
  shape o -> capacity_ok o -> subtree_ok o -> valid_node (o_L o) l idx ->
  Z.of_nat (length (bucket_of o l idx)) < o_Z o ->
  position o !! Z.to_nat a = Some p -> Z.shiftr p (o_L o - l) = idx ->
  let o' := with_tree (<[Z.to_nat (node_index l idx) := bucket_of o l idx ++ [(a, d)]]> (tree o)) o in
  pairs o' ≡ₚ (a, d) :: pairs o /\ capacity_ok o' /\ subtree_ok o'.
Proof.
  intros Hs Hcap Hsub Hv Hroom Hp Hsh o'.
  destruct (bucket_spec o l idx Hs Hv) as [_ Hlt].
  pose proof (bucket_of_lookup o l idx Hlt) as Hlk.
  split_and!.
  - unfold pairs, o'. simpl. rewrite (concat_insert_app _ _ _ _ Hlk).
    rewrite <- (assoc_L (++)). simpl. by rewrite <- Permutation_middle.
  - unfold capacity_ok, o'. simpl. apply Forall_insert; [done|].
    rewrite length_app. simpl. lia.
  - intros l' idx' bid d' Hv' Hin. unfold o', bucket_of in Hin. simpl in *.
    destruct (decide (Z.to_nat (node_index l' idx') = Z.to_nat (node_index l idx))) as [Heq|Hne].
    + assert (l' = l /\ idx' = idx) as [-> ->].
      { apply (node_index_inj (o_L o)); [done..|].
        pose proof (node_index_bound _ _ _ Hv). pose proof (node_index_bound _ _ _ Hv'). lia. }
      rewrite list_lookup_insert_eq in Hin by done. simpl in Hin.
      apply elem_of_app in Hin as [Hin|Hin]; [by apply (Hsub l idx bid d')|].
      apply list_elem_of_singleton in Hin. injection Hin as -> ->. eauto.
    + rewrite list_lookup_insert_ne in Hin by done. by apply (Hsub l' idx' bid d').
Qed.

Lemma place_loop_spec o a leaf levels :
  shape o -> capacity_ok o -> subtree_ok o ->
  position o !! Z.to_nat a = Some leaf -> 0 <= leaf < 2 ^ o_L o ->
  (forall l, l ∈ levels -> 0 <= l <= o_L o) ->
  exists placed o', place_loop a leaf levels o = Ok placed o'
    /\ same_params o o' /\ position o' = position o /\ stash o' = stash o
    /\ capacity_ok o' /\ subtree_ok o'
    /\ (if placed : bool then pairs o' ≡ₚ (a, PInt a) :: pairs o else o' = o).
Proof.
  intros Hs Hcap Hsub Hp Hleaf. induction levels as [|l levels IH]; intros Hl; simpl.
  - exists false, o. by split_and!.
  - assert (0 <= l <= o_L o) as Hlr by (apply Hl; left).
    unfold bind at 1. unfold get at 1. rewrite path_idx_eq by done.
    pose proof (path_node_valid _ _ _ Hlr Hleaf) as Hv.
    destruct (bucket_spec o _ _ Hs Hv) as [Hb Hlt].
    unfold bind at 1. rewrite Hb. unfold bind at 1. unfold get at 1.
    assert (deref (Z.to_nat (node_index l (Z.shiftr leaf (o_L o - l)))) o
            = bucket_of o l (Z.shiftr leaf (o_L o - l))) as -> by done.
    destruct (Z.ltb_spec (Z.of_nat (length (bucket_of o l (Z.shiftr leaf (o_L o - l))))) (o_Z o))
      as [Hroom|Hfull].
    + destruct (append_spec o l _ a (PInt a) leaf Hs Hcap Hsub Hv Hroom Hp eq_refl)
        as (Hpairs & Hcap' & Hsub').
      eexists true, _. split; [reflexivity|].
      split_and!; try done. constructor; simpl; try done. by rewrite length_insert.
    + apply IH. intros l' Hin. apply Hl. by right.
Qed.

Lemma place_block_spec o a :
  shape o -> capacity_ok o -> subtree_ok o -> 0 <= a < o_N o ->
  a ∉ (stash o).*1 ->
  exists o', place_block a o = Ok tt o'
    /\ same_params o o' /\ position o' = position o
    /\ capacity_ok o' /\ subtree_ok o'
    /\ pairs o' ≡ₚ (a, PInt a) :: pairs o.
Proof.
  intros Hs Hcap Hsub Ha Hfresh.
  destruct (position_at_spec o a Hs Ha) as (leaf & Hrun & Hp & Hleaf).
  destruct (place_loop_spec o a leaf (py_range_down (o_L o)) Hs Hcap Hsub Hp Hleaf)
    as (placed & o' & Hloop & Hsp & Hpos & Hst & Hcap' & Hsub' & Hres).
  { intros l Hin. by apply py_range_down_elem. }
  unfold place_block, bind. rewrite Hrun. unfold get at 1. rewrite Hloop.
  destruct placed; simpl.
  - exists o'. by split_and!.
  - subst o'. eexists. split; [reflexivity|]. split_and!; try done.
    unfold pairs. simpl. rewrite dict_set_fresh by done.
    rewrite (assoc_L (++)). by rewrite <- Permutation_cons_append.
Qed.

Lemma concat_replicate_nil {A} n : concat (replicate n ([] : list A)) = [].
Proof. induction n as [|n IH]; simpl; [done|apply IH]. Qed.

Section Construction.

Context (R : RandomSource).

Lemma comprehension_spec n ls g :
  0 < ls ->
  exists ps g', comprehension n (randrange R ls) g = Ok ps g'
    /\ length ps = n /\ Forall (fun p => 0 <= p < ls) ps.
Proof.
  intros Hls. revert g. induction n as [|n IH]; intros g; simpl.
  - by exists [], g.
  - unfold bind, randrange at 1. destruct (Z.leb_spec ls 0) as [|_]; [lia|].
    destruct (IH (rng_randrange R ls g).2) as (ps & g' & -> & Hlen & Hall).
    eexists _, g'. split; [reflexivity|]. split; [simpl; by rewrite Hlen|].
    apply Forall_cons. split; [|done]. by apply rng_randrange_bound.
Qed.

(** The placement loop puts every block once, on the path to its leaf or
    in the stash. *)
Lemma initial_place_spec o g :
  shape o -> tree o = replicate (length (tree o)) [] -> stash o = [] ->
  exists o', _initial_place_blocks R (o, g)
             = Ok tt (o', (rng_shuffle R (py_range 0 (o_N o)) g).2)
    /\ wf o' /\ same_params o o' /\ position o' = position o.
Proof.
  intros Hs Ht Hst.
  set (order := (rng_shuffle R (py_range 0 (o_N o)) g).1).
  assert (order ≡ₚ py_range 0 (o_N o)) as Hperm by apply rng_shuffle_perm.
  assert (NoDup order) as Hnd by (rewrite Hperm; apply NoDup_seqZ).
  destruct (for_each_inv
    (fun pre o1 =>
       same_params o o1 /\ position o1 = position o
       /\ capacity_ok o1 /\ subtree_ok o1 /\ block_ids o1 ≡ₚ pre)
    order place_block o) as (o' & Hrun & Hsp & Hpos & Hcap & Hsub & Hids).
  - split_and!; [apply same_params_refl|done| | |].
    + unfold capacity_ok. rewrite Ht. apply Forall_replicate. simpl.
      destruct Hs as [(? & ? & ? & ?) _ _ _ _ _]. lia.
    + intros l idx bid d _ Hin. unfold bucket_of in Hin. rewrite Ht in Hin.
      destruct (replicate (length (tree o)) [] !! Z.to_nat (node_index l idx)) as [b|] eqn:Hlk.
      * apply lookup_replicate in Hlk as [-> _]. by apply elem_of_nil in Hin.
      * by apply elem_of_nil in Hin.
    + unfold block_ids, pairs. by rewrite Ht, concat_replicate_nil, Hst.
  - intros pre a post o1 Hsplit (Hsp & Hpos & Hcap & Hsub & Hids).
    pose proof (same_params_shape _ _ Hs Hsp Hpos) as Hs1.
    assert (a ∉ pre) as Hfresh.
    { rewrite Hsplit in Hnd. apply NoDup_app in Hnd as (_ & Hdis & _).
      intros Hin. apply (Hdis _ Hin). left. }
    destruct (place_block_spec o1 a Hs1 Hcap Hsub) as (o2 & Hrun & Hsp2 & Hpos2 & Hcap2 & Hsub2 & Hp2).
    { rewrite (same_N _ _ Hsp). apply (py_range_elem 0). rewrite <- Hperm, Hsplit.
      apply elem_of_app. right. left. }
    { intros Hin. apply Hfresh. rewrite <- Hids. unfold block_ids, pairs.
      rewrite fmap_app. apply elem_of_app. by right. }
    exists o2. split; [done|]. split_and!; [by eapply same_params_trans|congruence|done|done|].
    unfold block_ids. rewrite Hp2. simpl. fold (block_ids o1). rewrite Hids.
    apply Permutation_cons_append.
  - exists o'. split.
    { unfold _initial_place_blocks, bind, lift_self, lift_random, get, shuffle. cbn [fst snd].
      fold order. by rewrite Hrun. }
    split_and!; [|done|done]. constructor; [|unfold conserved|done|done].
    + by eapply same_params_shape.
    + by rewrite Hids, Hperm, (same_N _ _ Hsp).
Qed.

Lemma valid_params_checks N Z' L :
  valid_params N Z' L ->
  (0 <? N) = true /\ (0 <? Z') = true /\ ((1 <=? L) && (N <=? Z.shiftl 1 L)) = true.
Proof.
  intros (HN & HZ & HL & Hfit). rewrite shiftl_1_pow by lia.
  split_and!; [lia|lia|]. apply andb_true_intro. split; lia.
Qed.

Lemma invalid_params_checks N Z' L :
  ~ valid_params N Z' L ->
  (0 <? N) = false \/ (0 <? Z') = false \/ ((1 <=? L) && (N <=? Z.shiftl 1 L)) = false.
Proof.
  intros Hn. destruct (Z.ltb_spec 0 N); [|by left].
  destruct (Z.ltb_spec 0 Z'); [|by right; left].
  right; right. apply andb_false_iff. destruct (Z.leb_spec 1 L); [|by left].
  right. rewrite shiftl_1_pow by lia. apply Z.leb_gt.
  destruct (Z.le_gt_cases N (2 ^ L)); [|lia]. by destruct Hn.
Qed.

(** A construction with valid parameters succeeds and returns a
    well-formed engine. *)
Lemma init_ok N Z' L seed g :
  valid_params N Z' L ->
  exists o g', __init__ R N Z' L seed g = Ok o g'
    /\ wf o /\ o_N o = N /\ o_Z o = Z' /\ o_L o = L.
Proof.
  intros Hv. destruct (valid_params_checks _ _ _ Hv) as (HcN & HcZ & HcL).
  destruct Hv as (HN & HZ & HL & Hfit).
  unfold __init__, bind, assert. rewrite HcN, HcZ, HcL. unfold ret at 1 2 3.
  set (g0 := match seed with Some s => rng_seed R s | None => g end).
  assert (0 < Z.shiftl 1 L) as Hls by (rewrite shiftl_1_pow by lia; apply pow2_pos; lia).
  destruct (comprehension_spec (Z.to_nat N) (Z.shiftl 1 L) g0 Hls) as (ps & g1 & Hps & Hlen & Hall).
  assert ((match seed with Some s => seed_call R s | None => ret tt end) g = Ok tt g0) as ->.
  { by destruct seed. }
  rewrite Hps. unfold construct.
  set (o0 := {| o_N := N; o_Z := Z'; o_L := L; num_nodes := Z.shiftl 1 (L + 1) - 1;
                tree := replicate (Z.to_nat (Z.shiftl 1 (L + 1) - 1)) [];
                leaf_space := Z.shiftl 1 L; position := ps; stash := [] |}).
  assert (0 < 2 ^ (L + 1) - 1) as Hnodes.
  { rewrite pow2_succ by lia. pose proof (pow2_pos L). lia. }
  assert (shape o0) as Hs0.
  { constructor; simpl.
    - done.
    - by rewrite shiftl_1_pow by lia.
    - by rewrite shiftl_1_pow by lia.
    - rewrite length_replicate, shiftl_1_pow by lia. lia.
    - rewrite Hlen. lia.
    - by rewrite shiftl_1_pow in Hall by lia. }
  destruct (initial_place_spec o0 g1 Hs0) as (o' & Hrun & Hwf & Hsp & _).
  { simpl. by rewrite length_replicate. }
  { done. }
  rewrite Hrun. eexists _, _. split; [reflexivity|]. simpl.
  split; [done|]. by destruct Hsp.
Qed.

(** A construction with invalid parameters stops at an assertion, before
    the generator is touched. *)
Lemma init_fail N Z' L seed g :
  ~ valid_params N Z' L -> __init__ R N Z' L seed g = Raise AssertionError g.
Proof.
  intros Hn. unfold __init__, bind, assert.
  destruct (invalid_params_checks _ _ _ Hn) as [H|[H|H]].
  - by rewrite H.
  - rewrite H. by destruct (0 <? N).
  - rewrite H. destruct (0 <? N); [|done]. by destruct (0 <? Z').
Qed.

(** Seeding makes the construction independent of what the generator
    held before. *)
Lemma init_seeded N Z' L s g1 g2 :
  valid_params N Z' L ->
  __init__ R N Z' L (Some s) g1 = __init__ R N Z' L (Some s) g2.
Proof.
  intros Hv. destruct (valid_params_checks _ _ _ Hv) as (HcN & HcZ & HcL).
  unfold __init__, bind, assert. rewrite HcN, HcZ, HcL. reflexivity.
Qed.

End Construction.

(** ** Reachable engines *)

Lemma op_check_spec op :
  (String.eqb op "read" || String.eqb op "write") = true
  <-> op = "read"%string \/ op = "write"%string.
Proof.
  rewrite orb_true_iff. by rewrite !String.eqb_eq.
Qed.

Section ReachableFacts.

Context (R : RandomSource).

(** An [access] that breaks a precondition stops at the assertion with
    the engine and the generator as they were. *)
Lemma access_invalid o g op a v :
  ~ valid_access o op a -> access R op a v (o, g) = Raise AssertionError (o, g).
Proof.
  intros Hn. unfold access, access_read, bind, lift_self, get, assert. cbn [fst snd].
  destruct ((0 <=? a) && (a <? o_N o)) eqn:Ha; [|done].
  unfold ret at 1.
  destruct (String.eqb op "read" || String.eqb op "write") eqn:Hop; [|done].
  exfalso. apply Hn. apply andb_true_iff in Ha as [H1 H2]. split; [lia|].
  by apply op_check_spec.
Qed.

Lemma access_ok_valid o g op a v r w :
  access R op a v (o, g) = Ok r w -> valid_access o op a.
Proof.
  intros Hrun.
  assert (Decision (valid_access o op a)) as [Hv|Hn]; [|done|].
  { unfold valid_access. destruct (String.eqb_spec op "read"), (String.eqb_spec op "write");
      destruct (decide (0 <= a < o_N o)); (by left; auto) || (right; tauto). }
  by rewrite access_invalid in Hrun.
Qed.

Lemma init_ok_valid N Z' L seed g o g' :
  __init__ R N Z' L seed g = Ok o g' -> valid_params N Z' L.
Proof.
  intros Hrun. destruct (decide (valid_params N Z' L)) as [|Hn]; [done|].
  by rewrite init_fail in Hrun.
Qed.

Lemma reachable_wf o : reachable R o -> wf o.
Proof.
  induction 1 as [N Z' L seed g o g' Hrun|o g op a v r o' g' _ IH Hrun].
  - pose proof (init_ok_valid _ _ _ _ _ _ _ Hrun) as Hv.
    destruct (init_ok R N Z' L seed g Hv) as (o1 & g1 & Hrun1 & Hwf & _).
    rewrite Hrun in Hrun1. by injection Hrun1 as -> ->.
  - pose proof (access_ok_valid _ _ _ _ _ _ _ Hrun) as Hv.
    destruct (access_spec R o g op a v IH Hv) as (x & d & o1 & Hrun1 & _ & _ & _ & Hwf & _).
    rewrite Hrun in Hrun1. by injection Hrun1 as -> -> ->.
Qed.

End ReachableFacts.

(** ** The tail statistics *)

Lemma count_gt_cons i v l :
  count_gt i (v :: l) = (if decide (i < v) then 1 else 0) + count_gt i l.
Proof.
  unfold count_gt. rewrite filter_cons. destruct (decide (i < v)); simpl; lia.
Qed.

Lemma count_eq_cons k v l :
  count_eq k (v :: l) = (if decide (v = k) then 1 else 0) + count_eq k l.
Proof.
  unfold count_eq. rewrite filter_cons. destruct (decide (v = k)); simpl; lia.
Qed.

Lemma count_gt_step k l : count_gt (k - 1) l = count_eq k l + count_gt k l.
Proof.
  induction l as [|v l IH]; [done|].
  rewrite !count_gt_cons, count_eq_cons, IH.
  destruct (decide (k - 1 < v)), (decide (v = k)), (decide (k < v)); lia.
Qed.

Lemma count_gt_above m l : (forall v, v ∈ l -> v <= m) -> count_gt m l = 0.
Proof.
  induction l as [|v l IH]; intros Hub; [done|].
  rewrite count_gt_cons, IH by (intros u Hu; apply Hub; by right).
  assert (v <= m) by (apply Hub; left). destruct (decide (m < v)); lia.
Qed.

Lemma foldl_max_spec (rest : list Z) v :
  v <= foldl Z.max v rest
  /\ (forall u, u ∈ rest -> u <= foldl Z.max v rest)
  /\ foldl Z.max v rest ∈ v :: rest.
Proof.
  revert v. induction rest as [|w rest IH]; intros v; simpl.
  - split_and!; [lia| |left]. intros u Hu. by apply elem_of_nil in Hu.
  - destruct (IH (Z.max v w)) as (Hge & Hall & Hin). split_and!.
    + lia.
    + intros u Hu. apply elem_of_cons in Hu as [->|Hu]; [lia|auto].
    + apply elem_of_cons in Hin as [Heq|Hin]; [|by do 2 right].
      rewrite Heq. destruct (Z.max_spec v w) as [[_ ->]|[_ ->]]; [right; left|left].
Qed.

Lemma max_or_zero_ub l v : v ∈ l -> v <= max_or_zero l.
Proof.
  destruct l as [|w rest]; simpl; intros Hin; [by apply elem_of_nil in Hin|].
  destruct (foldl_max_spec rest w) as (Hge & Hall & _).
  apply elem_of_cons in Hin as [->|Hin]; auto.
Qed.

Lemma max_or_zero_in l : l ≠ [] -> max_or_zero l ∈ l.
Proof.
  destruct l as [|w rest]; [done|]. intros _. apply foldl_max_spec.
Qed.

Lemma max_or_zero_nonneg l : (forall v, v ∈ l -> 0 <= v) -> 0 <= max_or_zero l.
Proof.
  destruct l as [|w rest]; [done|]. intros Hpos. apply Hpos, max_or_zero_in. done.
Qed.

Lemma list_get_in (l : list Z) (i : Z) :
  0 <= i < Z.of_nat (length l) -> list_get l i = l !! Z.to_nat i.
Proof. intros Hi. unfold list_get. by rewrite py_index_in. Qed.

Lemma list_set_in (l : list Z) (i v : Z) :
  0 <= i < Z.of_nat (length l) -> list_set l i v = Some (<[Z.to_nat i := v]> l).
Proof. intros Hi. unfold list_set. by rewrite py_index_in. Qed.

(** The histogram loop adds to every slot the number of samples equal
    to its index. *)
Lemma fill_hist_spec recorded hist :
  (forall v, v ∈ recorded -> 0 <= v < Z.of_nat (length hist)) ->
  exists hist', fill_hist recorded hist = Some hist'
    /\ length hist' = length hist
    /\ forall (k : nat) c, hist !! k = Some c ->
         hist' !! k = Some (c + count_eq (Z.of_nat k) recorded).
Proof.
  revert hist. induction recorded as [|val rest IH]; intros hist Hr; simpl.
  - exists hist. split_and!; [done..|]. intros k c ->. f_equal. unfold count_eq. simpl. lia.
  - assert (0 <= val < Z.of_nat (length hist)) as Hval by (apply Hr; left).
    rewrite list_get_in by done.
    destruct (lookup_lt_is_Some_2 hist (Z.to_nat val)) as [h Hh]; [lia|].
    rewrite Hh. simpl. rewrite list_set_in by done. simpl.
    destruct (IH (<[Z.to_nat val := h + 1]> hist)) as (hist' & Hrun & Hlen & Hk).
    { intros v Hv. rewrite length_insert. apply Hr. by right. }
    exists hist'. split; [done|]. split; [by rewrite Hlen, length_insert|].
    intros k c Hc. rewrite count_eq_cons.
    destruct (decide (k = Z.to_nat val)) as [->|Hne].
    + rewrite (Hk (Z.to_nat val) (h + 1)).
      * rewrite Hh in Hc. injection Hc as <-. f_equal.
        destruct (decide (val = Z.of_nat (Z.to_nat val))); lia.
      * apply list_lookup_insert_eq. lia.
    + rewrite (Hk k c).
      * f_equal. destruct (decide (val = Z.of_nat k)); lia.
      * by rewrite list_lookup_insert_ne.
Qed.

(** The running sum leaves in slot [k] the number of samples at or above
    [k], for every level it visits. *)
Lemma fill_suffix_spec samples hist (n : nat) running suffix_ge :
  (forall k : nat, (k < n)%nat -> hist !! k = Some (count_eq (Z.of_nat k) samples)) ->
  (n <= length suffix_ge)%nat ->
  running = count_gt (Z.of_nat n - 1) samples ->
  exists suffix_ge',
    fill_suffix (reverse (seqZ 0 (Z.of_nat n))) hist running suffix_ge = Some suffix_ge'
    /\ length suffix_ge' = length suffix_ge
    /\ (forall k : nat, (k < n)%nat ->
          suffix_ge' !! k = Some (count_gt (Z.of_nat k - 1) samples))
    /\ (forall k : nat, (n <= k)%nat -> suffix_ge' !! k = suffix_ge !! k).
Proof.
  revert running suffix_ge. induction n as [|n IH]; intros running suffix_ge Hh Hlen Hrun.
  - exists suffix_ge. split_and!; [done|done|lia|done].
  - rewrite seqZ_S, reverse_snoc, Z.add_0_l. simpl.
    assert (length hist > n)%nat as Hhl.
    { apply (lookup_lt_Some hist n (count_eq (Z.of_nat n) samples)), Hh. lia. }
    rewrite list_get_in by lia. rewrite Nat2Z.id, (Hh n) by lia. simpl.
    rewrite list_set_in by lia. simpl. rewrite Nat2Z.id.
    destruct (IH (running + count_eq (Z.of_nat n) samples)
                 (<[n := running + count_eq (Z.of_nat n) samples]> suffix_ge))
      as (s' & Hfill & Hlen' & Hlow & Hhigh).
    { intros k Hk. apply Hh. lia. }
    { rewrite length_insert. lia. }
    { rewrite Hrun, (count_gt_step (Z.of_nat n)).
      replace (Z.of_nat (S n) - 1) with (Z.of_nat n) by lia. lia. }
    exists s'. split; [done|]. split; [by rewrite Hlen', length_insert|]. split.
    + intros k Hk. destruct (decide (k = n)) as [->|Hne]; [|apply Hlow; lia].
      rewrite Hhigh by lia. rewrite list_lookup_insert_eq by lia. f_equal.
      rewrite Hrun, (count_gt_step (Z.of_nat n)).
      replace (Z.of_nat (S n) - 1) with (Z.of_nat n) by lia. lia.
    + intros k Hk. rewrite Hhigh by lia. apply list_lookup_insert_ne. lia.
Qed.

(** The last loop files under every index it visits the value computed
    for that index, and leaves the other keys alone. *)
Lemma fill_tail_spec max_stash suffix_ge (val : Z -> Z) idxs tail_counts :
  (forall i, i ∈ idxs ->
     (if i + 1 <=? max_stash then list_get suffix_ge (i + 1) else Some 0) = Some (val i)) ->
  exists tail_counts',
    fill_tail idxs max_stash suffix_ge tail_counts = Some tail_counts'
    /\ (forall i, i ∈ idxs -> dict_get i tail_counts' = Some (val i))
    /\ (forall i, i ∉ idxs -> dict_get i tail_counts' = dict_get i tail_counts).
Proof.
  revert tail_counts. induction idxs as [|i idxs IH]; intros tail_counts Hval; simpl.
  - exists tail_counts. split_and!; [done| |done]. intros i Hi. by apply elem_of_nil in Hi.
  - rewrite (Hval i) by left. simpl.
    destruct (IH (dict_set i (val i) tail_counts)) as (tc' & Hrun & Hin & Hout).
    { intros j Hj. apply Hval. by right. }
    exists tc'. split; [done|]. split.
    + intros j Hj. destruct (decide (j ∈ idxs)) as [|Hnot]; [auto|].
      apply elem_of_cons in Hj as [->|?]; [|done].
      by rewrite (Hout _ Hnot), dict_get_set, Z.eqb_refl.
    + intros j Hj. apply not_elem_of_cons in Hj as [Hne Hj].
      rewrite (Hout _ Hj), dict_get_set. by destruct (Z.eqb_spec j i).
Qed.

(** On samples that are sizes, the post-processing returns, and the
    table it returns maps every threshold from 0 to the largest sample to
    the number of samples strictly above it, and holds no other key. *)
Lemma tail_statistics_spec samples :
  (forall v, v ∈ samples -> 0 <= v) ->
  exists tail_counts,
    tail_statistics samples
      = Some (tail_counts, max_or_zero samples, Z.of_nat (length samples))
    /\ (forall i, 0 <= i <= max_or_zero samples ->
          dict_get i tail_counts = Some (count_gt i samples))
    /\ (forall i, ~ 0 <= i <= max_or_zero samples -> dict_get i tail_counts = None).
Proof.
  intros Hpos. set (m := max_or_zero samples).
  assert (0 <= m) as Hm by (by apply max_or_zero_nonneg).
  unfold tail_statistics. fold m.
  destruct (fill_hist_spec samples (replicate (Z.to_nat (m + 1)) 0)) as (hist & -> & Hhl & Hh).
  { intros v Hv. rewrite length_replicate. pose proof (max_or_zero_ub _ _ Hv).
    specialize (Hpos v Hv). fold m in H. lia. }
  simpl. rewrite length_replicate in Hhl.
  unfold py_range_down, py_range. rewrite Z.sub_0_r.
  destruct (fill_suffix_spec samples hist (Z.to_nat (m + 1)) 0
              (replicate (Z.to_nat (m + 2)) 0)) as (sfx & Hsfx & Hsl & Hlow & _).
  { intros k Hk. rewrite (Hh k 0); [f_equal; lia|]. by apply lookup_replicate_2. }
  { rewrite length_replicate. lia. }
  { symmetry. apply count_gt_above. intros v Hv. pose proof (max_or_zero_ub _ _ Hv).
    fold m in H. lia. }
  rewrite Z2Nat.id in Hsfx by lia. rewrite Hsfx. simpl.
  rewrite length_replicate in Hsl.
  destruct (fill_tail_spec m sfx (fun i => count_gt i samples) (seqZ 0 (m + 1)) [])
    as (tc & -> & Hin & Hout).
  { intros i Hi. apply elem_of_seqZ in Hi. destruct (Z.leb_spec (i + 1) m) as [Hle|Hgt].
    - rewrite list_get_in by lia. rewrite Hlow by lia. f_equal. f_equal. lia.
    - f_equal. symmetry. replace i with m by lia. apply count_gt_above.
      intros v Hv. apply (max_or_zero_ub _ _ Hv). }
  simpl. exists tc. split; [done|]. split.
  - intros i Hi. apply Hin, elem_of_seqZ. lia.
  - intros i Hi. rewrite Hout; [done|]. rewrite elem_of_seqZ. lia.
Qed.

(** ** The operation loop of [simulate] *)

Lemma filter_ge_seqZ_length w n :
  0 <= w <= n -> length (filter (fun t => w <= t) (seqZ 0 n)) = Z.to_nat (n - w).
Proof.
  intros Hw. replace n with (w + (n - w)) at 1 by lia.
  rewrite seqZ_app, filter_app, length_app by lia.
  assert (forall a k, a + k <= w -> filter (fun t => w <= t) (seqZ a k) = []) as Hlow.
  { intros a k Hak. destruct (filter (λ t : Z, w ≤ t) (seqZ a k)) as [|t l] eqn:Hf; [done|].
    assert (t ∈ filter (λ t : Z, w ≤ t) (seqZ a k)) as Hin by (rewrite Hf; left).
    apply list_elem_of_filter in Hin as [? Hin]. apply elem_of_seqZ in Hin. lia. }
  assert (forall (k : nat) a, w <= a ->
            length (filter (fun t => w <= t) (seqZ a (Z.of_nat k))) = k) as Hhigh.
  { induction k as [|k IH]; intros a Ha; [done|].
    rewrite seqZ_cons by lia. rewrite filter_cons_True by done. simpl.
    replace (Z.pred (Z.of_nat (S k))) with (Z.of_nat k) by lia. rewrite IH; [done|lia]. }
  rewrite Hlow by lia. simpl.
  rewrite <- (Z2Nat.id (n - w)) at 1 by lia. apply Hhigh. lia.
Qed.

Section Simulation.

Context (R : RandomSource).

(** One round of the loop on a well-formed engine: the access is valid,
    so the round returns; the block cursor stays in range, and the sample
    recorded, if any, is the stash size after the access. *)
Lemma sim_step_spec warmup_ops loc t o g :
  wf o -> 0 <= block loc < o_N o -> Z.of_nat (length (versions loc)) = o_N o ->
  exists loc' o' g', sim_step R warmup_ops loc t (o, g) = Ok loc' (o', g')
    /\ wf o' /\ o_N o' = o_N o
    /\ 0 <= block loc' < o_N o /\ Z.of_nat (length (versions loc')) = o_N o
    /\ recorded_stash_sizes loc'
       = if warmup_ops <=? t
         then recorded_stash_sizes loc ++ [Z.of_nat (length (stash o'))]
         else recorded_stash_sizes loc.
Proof.
  intros Hwf Hb Hvs.
  unfold sim_step. unfold bind at 1. unfold lift_random, getrandbits. cbn [fst snd].
  set (g1 := (rng_getrandbits R 1 g).2).
  unfold bind at 1. unfold lift_self at 1, get at 1. cbn [fst snd].
  assert (0 <= (if block loc + 1 =? o_N o then 0 else block loc + 1) < o_N o) as Hb'.
  { destruct (Z.eqb_spec (block loc + 1) (o_N o)); lia. }
  destruct ((rng_getrandbits R 1 g).1 =? 0).
  - simpl String.eqb. cbv iota.
    destruct (access_spec R o g1 "read" (block loc) PNone Hwf)
      as (x & d & o' & Hrun & _ & _ & _ & Hwf' & Hsp & _); [by split; [|left]|].
    unfold bind. rewrite Hrun. unfold ret, lift_self, get. cbn [fst snd].
    eexists _, o', _. split; [reflexivity|]. simpl.
    split_and!; [done|apply Hsp|lia|lia|done|done].
  - simpl String.eqb. cbv iota.
    rewrite list_get_in by lia.
    destruct (lookup_lt_is_Some_2 (versions loc) (Z.to_nat (block loc))) as [ver Hver]; [lia|].
    rewrite Hver, list_set_in by lia.
    destruct (access_spec R o g1 "write" (block loc) (PTuple (block loc) (ver + 1)) Hwf)
      as (x & d & o' & Hrun & _ & _ & _ & Hwf' & Hsp & _); [by split; [|right]|].
    unfold bind. rewrite Hrun. unfold ret, lift_self, get. cbn [fst snd].
    eexists _, o', _. split; [reflexivity|]. simpl.
    split_and!; [done|apply Hsp|lia|lia| |done]. by rewrite length_insert.
Qed.

Lemma sim_loop_spec warmup_ops ts :
  forall loc o g,
  wf o -> 0 <= block loc < o_N o -> Z.of_nat (length (versions loc)) = o_N o ->
  exists loc' o' g', sim_loop R warmup_ops ts loc (o, g) = Ok loc' (o', g')
    /\ wf o' /\ o_N o' = o_N o
    /\ exists extra,
         recorded_stash_sizes loc' = recorded_stash_sizes loc ++ extra
         /\ (forall v, v ∈ extra -> 0 <= v)
         /\ length extra = length (filter (fun t => warmup_ops <= t) ts).
Proof.
  induction ts as [|t ts IH]; intros loc o g Hwf Hb Hvs; simpl.
  - exists loc, o, g. split_and!; [done..|]. exists []. rewrite app_nil_r.
    split_and!; [done| |done]. intros v Hv. by apply elem_of_nil in Hv.
  - destruct (sim_step_spec warmup_ops loc t o g Hwf Hb Hvs)
      as (loc1 & o1 & g1 & Hrun & Hwf1 & HN1 & Hb1 & Hvs1 & Hrec1).
    unfold bind. rewrite Hrun.
    destruct (IH loc1 o1 g1 Hwf1) as (loc' & o' & g' & Hloop & Hwf' & HN' & extra & Hrec & Hpos & Hlen).
    { by rewrite HN1. }
    { by rewrite HN1. }
    exists loc', o', g'. split; [done|]. split; [done|]. split; [congruence|].
    rewrite Hrec, Hrec1, filter_cons.
    destruct (Z.leb_spec warmup_ops t) as [Hle|Hgt].
    + exists (Z.of_nat (length (stash o1)) :: extra). rewrite <- (assoc_L (++)).
      split; [done|]. split.
      * intros v Hv. apply elem_of_cons in Hv as [->|Hv]; [lia|auto].
      * destruct (decide (warmup_ops <= t)); [|lia]. simpl. by rewrite Hlen.
    + exists extra. split; [done|]. split; [done|].
      destruct (decide (warmup_ops <= t)); [lia|done].
Qed.

End Simulation.


(** A list of valid calls on a well-formed engine runs to its end and
    leaves a well-formed engine with the same [N]. *)
Lemma run_ops_total (R : RandomSource) (N : Z) (ops : list (string * Z * pyval)) :
  Forall (fun c => 0 <= c.1.2 < N /\ (c.1.1 = "read"%string \/ c.1.1 = "write"%string)) ops ->
  forall o g, wf o -> o_N o = N ->
  exists rs o' g', run_ops R ops (o, g) = Ok rs (o', g') /\ wf o' /\ o_N o' = N.
Proof.
  induction 1 as [|[[op a] v] ops [Ha Hop] _ IH]; intros o g Hwf HN; simpl.
  - by exists [], o, g.
  - simpl in Ha, Hop.
    destruct (access_spec R o g op a v Hwf) as (x & d & o1 & Hrun & _ & _ & _ & Hwf1 & Hsp & _).
    { split; [by rewrite HN|done]. }
    unfold bind. rewrite Hrun.
    destruct (IH o1 (rng_randrange R (leaf_space o) g).2 Hwf1)
      as (rs & o' & g' & -> & Hwf' & HN').
    { by rewrite (same_N _ _ Hsp). }
    by eexists _, _, _.
Qed.

(** Calls on other blocks keep the data of block [a]. *)
Lemma run_ops_keep (R : RandomSource) (N a : Z) (ops : list (string * Z * pyval)) :
  Forall (fun c => (0 <= c.1.2 < N /\ c.1.2 ≠ a)
                   /\ (c.1.1 = "read"%string \/ c.1.1 = "write"%string)) ops ->
  forall o g, wf o -> o_N o = N ->
  exists rs o' g', run_ops R ops (o, g) = Ok rs (o', g')
    /\ wf o' /\ o_N o' = N /\ data_of o' a = data_of o a.
Proof.
  induction 1 as [|[[op b] v] ops [[Hb Hne] Hop] _ IH]; intros o g Hwf HN; simpl.
  - by exists [], o, g.
  - simpl in Hb, Hne, Hop.
    destruct (access_spec R o g op b v Hwf)
      as (x & d & o1 & Hrun & _ & _ & _ & Hwf1 & Hsp & _ & _ & _ & Hkeep).
    { split; [by rewrite HN|done]. }
    unfold bind. rewrite Hrun.
    destruct (IH o1 (rng_randrange R (leaf_space o) g).2 Hwf1)
      as (rs & o' & g' & -> & Hwf' & HN' & Hd).
    { by rewrite (same_N _ _ Hsp). }
    eexists _, _, _. split; [reflexivity|]. split; [done|]. split; [done|].
    rewrite Hd. apply Hkeep. congruence.
Qed.

(** ** Main theorems *)

(** C1 (conservation).  In every engine state reached by a successful
    construction followed by successful calls of [access], the block ids
    held by the tree buckets and the stash together are a permutation of
    [0, ..., N-1]: every id once, none missing, none twice.  From such a
    state every [access] with a valid operation and block id returns and
    leaves such a state again. *)
Theorem conservation (R : RandomSource) (o : PathORAM) :
  reachable R o ->
  block_ids o ≡ₚ py_range 0 (o_N o)
  /\ forall g op a v, valid_access o op a ->
       exists r o' g', access R op a v (o, g) = Ok r (o', g')
         /\ o_N o' = o_N o
         /\ block_ids o' ≡ₚ py_range 0 (o_N o).
Proof.
  intros Hr. pose proof (reachable_wf R o Hr) as Hwf. split; [apply Hwf|].
  intros g op a v Hv.
  destruct (access_spec R o g op a v Hwf Hv)
    as (x & d & o' & Hrun & _ & _ & _ & Hwf' & Hsp & _).
  exists d, o', (rng_randrange R (leaf_space o) g).2.
  split; [done|]. split; [apply Hsp|].
  rewrite <- (same_N _ _ Hsp). apply Hwf'.
Qed.

Lemma conservation_witness :
  block_ids Demo.engine ≡ₚ py_range 0 4
  /\ exists r o' g', access LCG.source "write" 0 (PStr "x") (Demo.engine, Demo.generator)
                     = Ok r (o', g')
       /\ o_N o' = 4
       /\ block_ids o' ≡ₚ py_range 0 4.
Proof.
  destruct (conservation LCG.source Demo.engine) as [H1 H2].
  - apply (reach_init LCG.source 4 2 2 (Some 1) 0 Demo.engine Demo.generator).
    vm_compute. reflexivity.
  - split; [exact H1|]. apply H2. split; [simpl; lia|by right].
Defined.

(** C2 (capacity).  In every reachable engine state every bucket of the
    tree holds at most [Z] pairs. *)
Theorem capacity (R : RandomSource) (o : PathORAM) :
  reachable R o ->
  Forall (fun b : bucket => Z.of_nat (length b) <= o_Z o) (tree o).
Proof. intros Hr. apply (reachable_wf R o Hr). Qed.

Lemma capacity_witness :
  Forall (fun b : bucket => Z.of_nat (length b) <= 2) (tree Demo.engine).
Proof.
  apply (capacity LCG.source Demo.engine).
  apply (reach_init LCG.source 4 2 2 (Some 1) 0 Demo.engine Demo.generator).
  vm_compute. reflexivity.
Defined.

(** C3 (subtree-correctness of eviction).  A valid [access] on a
    reachable engine returns, and afterwards every block resident in the
    bucket at [(l, idx)] has a position-map leaf [p] with
    [p >> (L - l) = idx] when [l > 0]; level 0 asks nothing. *)
Theorem subtree_correct (R : RandomSource) (o : PathORAM) (g : rng R)
    (op : string) (a : Z) (v : pyval) :
  reachable R o -> valid_access o op a ->
  exists r o' g', access R op a v (o, g) = Ok r (o', g')
    /\ forall l idx bid d, valid_node (o_L o') l idx ->
         (bid, d) ∈ bucket_of o' l idx ->
         exists p, position_at bid o' = Ok p o'
           /\ (0 < l -> Z.shiftr p (o_L o' - l) = idx).
Proof.
  intros Hr Hv. pose proof (reachable_wf R o Hr) as Hwf.
  destruct (access_spec R o g op a v Hwf Hv) as (x & d & o' & Hrun & _ & _ & _ & Hwf' & _).
  exists d, o', (rng_randrange R (leaf_space o) g).2. split; [done|].
  intros l idx bid d' Hn Hin.
  destruct (wf_subtree _ Hwf' l idx bid d' Hn Hin) as (p & Hp & Hsh).
  assert (0 <= bid < o_N o') as Hbid.
  { apply (conserved_range o' bid (wf_conserved _ Hwf')). unfold block_ids, pairs.
    rewrite fmap_app. apply elem_of_app. left.
    apply (list_elem_of_fmap_2 fst (concat (tree o')) (bid, d')).
    by eapply bucket_of_elem. }
  destruct (position_at_spec o' bid (wf_shape _ Hwf') Hbid) as (p' & Hat & Hp' & _).
  rewrite Hp in Hp'. injection Hp' as <-. exists p. by split.
Qed.

Lemma subtree_correct_witness :
  exists r o' g',
    access LCG.source "write" 0 (PStr "x") (Demo.engine, Demo.generator) = Ok r (o', g')
    /\ forall l idx bid d, valid_node (o_L o') l idx ->
         (bid, d) ∈ bucket_of o' l idx ->
         exists p, position_at bid o' = Ok p o'
           /\ (0 < l -> Z.shiftr p (o_L o' - l) = idx).
Proof.
  apply (subtree_correct LCG.source Demo.engine Demo.generator "write" 0 (PStr "x")).
  - apply (reach_init LCG.source 4 2 2 (Some 1) 0 Demo.engine Demo.generator).
    vm_compute. reflexivity.
  - split; [simpl; lia|by right].
Defined.

(** C4 (read after write).  On a reachable engine, for a block id [a] in
    [0, N), [access("write", a, v)] returns, and the next [access("read", a)]
    returns [v]: right after the write, or after any calls of [access] on
    other blocks in between. *)
Theorem read_after_write (R : RandomSource) (o : PathORAM) (g : rng R)
    (a : Z) (v d : pyval) (others : list (string * Z * pyval)) :
  reachable R o -> 0 <= a < o_N o ->
  Forall (fun c => (0 <= c.1.2 < o_N o /\ c.1.2 ≠ a)
                   /\ (c.1.1 = "read"%string \/ c.1.1 = "write"%string)) others ->
  exists r1 w1, access R "write" a v (o, g) = Ok r1 w1
    /\ exists rs w2, run_ops R others w1 = Ok rs w2
    /\ exists w3, access R "read" a d w2 = Ok v w3.
Proof.
  intros Hr Ha Hothers. pose proof (reachable_wf R o Hr) as Hwf.
  destruct (access_spec R o g "write" a v Hwf) as
    (x & r1 & o1 & Hrun & _ & _ & _ & Hwf1 & Hsp & _ & _ & Hd1 & _); [by split; [|right]|].
  exists r1, (o1, (rng_randrange R (leaf_space o) g).2). split; [done|].
  destruct (run_ops_keep R (o_N o) a others Hothers o1 (rng_randrange R (leaf_space o) g).2 Hwf1)
    as (rs & o2 & g2 & Hrun2 & Hwf2 & HN2 & Hd2); [apply Hsp|].
  exists rs, (o2, g2). split; [done|].
  destruct (access_spec R o2 g2 "read" a d Hwf2) as
    (x3 & r3 & o3 & Hrun3 & _ & _ & Hd3 & _).
  { split; [by rewrite HN2|by left]. }
  simpl in Hd1. rewrite Hd2, Hd1 in Hd3. injection Hd3 as <-. eauto.
Qed.

Lemma read_after_write_witness :
  exists r1 w1,
    access LCG.source "write" 0 (PStr "y") (Demo.engine, Demo.generator) = Ok r1 w1
    /\ exists rs w2, run_ops LCG.source [("write"%string, 2, PStr "z")] w1 = Ok rs w2
    /\ exists w3, access LCG.source "read" 0 PNone w2 = Ok (PStr "y") w3.
Proof.
  apply (read_after_write LCG.source Demo.engine Demo.generator 0 (PStr "y") PNone
           [("write"%string, 2, PStr "z")]).
  - apply (reach_init LCG.source 4 2 2 (Some 1) 0 Demo.engine Demo.generator).
    vm_compute. reflexivity.
  - simpl. lia.
  - repeat constructor; simpl; lia.
Defined.

(** The scenario of the specification on the concrete generator:
    [N=4, Z=2, L=2, seed=1], two writes to block 0, then a read. *)
Example scenario_write_write_read :
  session LCG.source 4 2 2 (Some 1)
    [("write"%string, 0, PStr "x"); ("write"%string, 0, PStr "y"); ("read"%string, 0, PNone)] 0
  = Ok ([PInt 0; PStr "x"; PStr "y"], 0) 486256185.
Proof. vm_compute. reflexivity. Qed.

(** C5 (path-read completeness).  In a valid [access] on a reachable
    engine, with [x] the block's leaf before the call, the state right
    after the path read has every bucket on the path to [x] empty and every
    pair those buckets held in the stash; the logical operation that
    follows leaves the tree as it is, and eviction starts from there. *)
Theorem path_read_complete (R : RandomSource) (o : PathORAM) (g : rng R)
    (op : string) (a : Z) (v : pyval) :
  reachable R o -> valid_access o op a ->
  exists x o1 g1,
    position_at a o = Ok x o
    /\ access_read R op a (o, g) = Ok x (o1, g1)
    /\ (forall l idx, (l, idx) ∈ path_nodes (o_L o) x ->
          tree o1 !! Z.to_nat (node_index l idx) = Some []
          /\ forall bid d, (bid, d) ∈ bucket_of o l idx ->
               dict_get bid (stash o1) = Some d)
    /\ exists old o2,
          access_serve op a v o1 = Ok old o2 /\ tree o2 = tree o1
          /\ access R op a v (o, g)
             = bind (lift_self R (evict x)) (fun _ => ret old) (o2, g1).
Proof.
  intros Hr Hv. pose proof (reachable_wf R o Hr) as Hwf.
  destruct (access_read_spec R o g op a Hwf Hv)
    as (x & o1 & Hrun1 & Hx & Hxr & _ & _ & _ & Hwf1 & Hemp & _ & _ & Hgot & Ha1).
  destruct (position_at_spec o a (wf_shape _ Hwf) (proj1 Hv)) as (x' & Hat & Hx' & _).
  rewrite Hx in Hx'. injection Hx' as <-.
  exists x, o1, (rng_randrange R (leaf_space o) g).2.
  split; [done|]. split; [done|]. split.
  - intros l idx Hin.
    assert (Z.to_nat (node_index l idx) ∈ path_slots (o_L o) x) as Hslot.
    { apply (list_elem_of_fmap_2 (fun nd : Z * Z => Z.to_nat (node_index nd.1 nd.2)) _ (l, idx) Hin). }
    split; [by apply Hemp|]. intros bid d Hb.
    apply dict_get_elem; [apply stash_keys_NoDup, Hwf1|].
    apply path_nodes_elem in Hin as [Hl Hidx]; [|done]. simpl in Hl, Hidx.
    assert (valid_node (o_L o) l idx) as Hn by (subst idx; by apply path_node_valid).
    destruct (bucket_spec o l idx (wf_shape _ Hwf) Hn) as [_ Hlt].
    by apply (Hgot _ _ _ Hslot (bucket_of_lookup o l idx Hlt)).
  - destruct (access_serve_spec o1 op a v Hwf1 Ha1) as (old & Hrun2 & _).
    eexists old, _. split; [exact Hrun2|]. split.
    + by destruct (String.eqb op "write").
    + unfold access. unfold bind at 1. rewrite Hrun1.
      unfold bind at 1. unfold lift_self at 1. cbn [fst snd]. by rewrite Hrun2.
Qed.

Lemma path_read_complete_witness :
  exists x o1 g1,
    position_at 0 Demo.engine = Ok x Demo.engine
    /\ access_read LCG.source "read" 0 (Demo.engine, Demo.generator) = Ok x (o1, g1)
    /\ (forall l idx, (l, idx) ∈ path_nodes (o_L Demo.engine) x ->
          tree o1 !! Z.to_nat (node_index l idx) = Some []
          /\ forall bid d, (bid, d) ∈ bucket_of Demo.engine l idx ->
               dict_get bid (stash o1) = Some d)
    /\ exists old o2,
          access_serve "read" 0 PNone o1 = Ok old o2 /\ tree o2 = tree o1
          /\ access LCG.source "read" 0 PNone (Demo.engine, Demo.generator)
             = bind (lift_self LCG.source (evict x)) (fun _ => ret old) (o2, g1).
Proof.
  apply (path_read_complete LCG.source Demo.engine Demo.generator "read" 0 PNone).
  - apply (reach_init LCG.source 4 2 2 (Some 1) 0 Demo.engine Demo.generator).
    vm_compute. reflexivity.
  - split; [simpl; lia|by left].
Defined.

(** C6 (tail counts).  On a reachable engine and with
    [total_ops > warmup_ops >= 0], [simulate] returns; the samples are the
    stash sizes the operation loop recorded, [total_ops - warmup_ops] of
    them; [max_stash] is the largest of them; and [tail_counts[i]], for
    every [i] from 0 to [max_stash], is the number of samples strictly
    greater than [i], which is 0 at [max_stash]. *)
Theorem tail_counts_correct (R : RandomSource) (o : PathORAM) (g : rng R)
    (total_ops warmup_ops : Z) :
  reachable R o -> 0 <= warmup_ops < total_ops ->
  exists tail_counts max_stash s w' loc,
    simulate R total_ops warmup_ops (o, g) = Ok (tail_counts, max_stash, s) w'
    /\ sim_loop R warmup_ops (py_range 0 total_ops)
         {| versions := replicate (Z.to_nat (o_N o)) 0;
            recorded_stash_sizes := [];
            block := 0 |} (o, g) = Ok loc w'
    /\ s = Z.of_nat (length (recorded_stash_sizes loc))
    /\ s = total_ops - warmup_ops
    /\ max_stash ∈ recorded_stash_sizes loc
    /\ (forall v, v ∈ recorded_stash_sizes loc -> v <= max_stash)
    /\ (forall i, 0 <= i <= max_stash ->
          dict_get i tail_counts = Some (count_gt i (recorded_stash_sizes loc)))
    /\ dict_get max_stash tail_counts = Some 0.
Proof.
  intros Hr Hops. pose proof (reachable_wf R o Hr) as Hwf.
  pose proof (shape_params _ (wf_shape _ Hwf)) as (HN & _).
  destruct (sim_loop_spec R warmup_ops (py_range 0 total_ops)
              {| versions := replicate (Z.to_nat (o_N o)) 0;
                 recorded_stash_sizes := []; block := 0 |} o g Hwf)
    as (loc & o' & g' & Hloop & _ & _ & extra & Hrec & Hpos & Hlen).
  { simpl. lia. }
  { simpl. rewrite length_replicate. lia. }
  simpl in Hrec. subst extra.
  unfold py_range in Hlen. rewrite Z.sub_0_r, filter_ge_seqZ_length in Hlen by lia.
  destruct (tail_statistics_spec (recorded_stash_sizes loc) Hpos) as (tc & Hstat & Htc & _).
  assert (recorded_stash_sizes loc ≠ []) as Hne.
  { intros Hnil. rewrite Hnil in Hlen. simpl in Hlen. lia. }
  pose proof (max_or_zero_in _ Hne) as Hin.
  exists tc, (max_or_zero (recorded_stash_sizes loc)),
    (Z.of_nat (length (recorded_stash_sizes loc))), (o', g'), loc.
  split.
  { unfold simulate, bind, assert.
    destruct (Z.ltb_spec warmup_ops total_ops); [|lia].
    destruct (Z.leb_spec 0 warmup_ops); [|lia]. simpl.
    by rewrite Hloop, Hstat. }
  split; [done|]. split; [done|]. split; [lia|]. split; [done|].
  split; [apply max_or_zero_ub|]. split; [done|].
  rewrite Htc by (specialize (Hpos _ Hin); lia).
  f_equal. apply count_gt_above, max_or_zero_ub.
Qed.

Lemma tail_counts_correct_witness :
  exists tail_counts max_stash s w' loc,
    simulate LCG.source 6 2 (Demo.engine, Demo.generator) = Ok (tail_counts, max_stash, s) w'
    /\ sim_loop LCG.source 2 (py_range 0 6)
         {| versions := replicate (Z.to_nat (o_N Demo.engine)) 0;
            recorded_stash_sizes := [];
            block := 0 |} (Demo.engine, Demo.generator) = Ok loc w'
    /\ s = Z.of_nat (length (recorded_stash_sizes loc))
    /\ s = 6 - 2
    /\ max_stash ∈ recorded_stash_sizes loc
    /\ (forall v, v ∈ recorded_stash_sizes loc -> v <= max_stash)
    /\ (forall i, 0 <= i <= max_stash ->
          dict_get i tail_counts = Some (count_gt i (recorded_stash_sizes loc)))
    /\ dict_get max_stash tail_counts = Some 0.
Proof.
  apply (tail_counts_correct LCG.source Demo.engine Demo.generator 6 2).
  - apply (reach_init LCG.source 4 2 2 (Some 1) 0 Demo.engine Demo.generator).
    vm_compute. reflexivity.
  - lia.
Defined.

(** C7 (fail fast).  In any engine state, an [access] whose block id is
    outside [0, N) or whose operation is neither ["read"] nor ["write"]
    raises [AssertionError] and leaves the tree, the stash, the position
    map and the generator as they were. *)
Theorem access_fail_fast (R : RandomSource) (o : PathORAM) (g : rng R)
    (op : string) (a : Z) (v : pyval) :
  ~ (0 <= a < o_N o) \/ (op <> "read"%string /\ op <> "write"%string) ->
  access R op a v (o, g) = Raise AssertionError (o, g).
Proof.
  intros Hbad. apply access_invalid. intros [Ha Hop]. destruct Hbad as [Hn|[H1 H2]].
  - by apply Hn.
  - by destruct Hop.
Qed.

Lemma access_fail_fast_witness :
  access LCG.source "read" 4 PNone (Demo.engine, Demo.generator)
  = Raise AssertionError (Demo.engine, Demo.generator).
Proof.
  apply (access_fail_fast LCG.source Demo.engine Demo.generator "read" 4 PNone).
  left. simpl. lia.
Defined.

(** C8 (construction validation).  [PathORAM(N, Z, L, seed)] either has
    [N <= 0], [Z <= 0], [L < 1] or [2^L < N] and raises [AssertionError]
    with the generator untouched and no engine built, or has none of them
    and returns an engine with these parameters. *)
Theorem construction_validation (R : RandomSource) (N Z' L : Z) (seed : option Z)
    (g : rng R) :
  ((N <= 0 \/ Z' <= 0 \/ L < 1 \/ 2 ^ L < N)
   /\ __init__ R N Z' L seed g = Raise AssertionError g)
  \/ ((0 < N /\ 0 < Z' /\ 1 <= L /\ N <= 2 ^ L)
      /\ exists o g', __init__ R N Z' L seed g = Ok o g'
           /\ o_N o = N /\ o_Z o = Z' /\ o_L o = L).
Proof.
  destruct (decide (valid_params N Z' L)) as [Hv|Hn].
  - right. split; [done|].
    destruct (init_ok R N Z' L seed g Hv) as (o & g' & Hrun & _ & Hp). eauto.
  - left. split; [|by apply init_fail]. unfold valid_params in Hn. lia.
Qed.

(** C9 (reproducibility).  Two sessions with the same parameters, the
    same seed and the same list of valid operations, started from any two
    states of the generator, both run to the end and give the same
    returned values and the same final stash size. *)
Theorem reproducible (R : RandomSource) (N Z' L s : Z)
    (ops : list (string * Z * pyval)) (g1 g2 : rng R) :
  valid_params N Z' L ->
  Forall (fun c => 0 <= c.1.2 < N /\ (c.1.1 = "read"%string \/ c.1.1 = "write"%string)) ops ->
  exists rs n g',
    session R N Z' L (Some s) ops g1 = Ok (rs, n) g'
    /\ session R N Z' L (Some s) ops g2 = Ok (rs, n) g'.
Proof.
  intros Hv Hops. unfold session. rewrite (init_seeded R N Z' L s g2 g1 Hv).
  destruct (init_ok R N Z' L (Some s) g1 Hv) as (o & g' & -> & Hwf & HN & _).
  destruct (run_ops_total R N ops Hops o g' Hwf HN) as (rs & o' & g'' & -> & _).
  by eexists _, _, _.
Qed.

Lemma reproducible_witness :
  exists rs n g',
    session LCG.source 4 2 2 (Some 1)
      [("write"%string, 0, PStr "x"); ("read"%string, 3, PNone)] 0 = Ok (rs, n) g'
    /\ session LCG.source 4 2 2 (Some 1)
      [("write"%string, 0, PStr "x"); ("read"%string, 3, PNone)] 99 = Ok (rs, n) g'.
Proof.
  apply (reproducible LCG.source 4 2 2 1
           [("write"%string, 0, PStr "x"); ("read"%string, 3, PNone)] 0 99).
  - unfold valid_params. simpl. lia.
  - repeat constructor; simpl; lia.
Defined.

(** C10 (frame of [access]).  A valid [access] to block [a] on a
    reachable engine, with [x] the block's leaf before the call, leaves
    every bucket off the path to [x] as it was, every entry of the position
    map but [a]'s as it was, and the data of every block other than [a] as
    it was, in whichever bucket or stash slot the block ends up. *)
Theorem access_frame (R : RandomSource) (o : PathORAM) (g : rng R)
    (op : string) (a : Z) (v : pyval) :
  reachable R o -> valid_access o op a ->
  exists x r o' g',
    position_at a o = Ok x o
    /\ access R op a v (o, g) = Ok r (o', g')
    /\ (forall j, j ∉ path_slots (o_L o) x -> tree o' !! j = tree o !! j)
    /\ (forall i, i ≠ Z.to_nat a -> position o' !! i = position o !! i)
    /\ (forall b d, b ≠ a -> (b, d) ∈ pairs o' <-> (b, d) ∈ pairs o).
Proof.
  intros Hr Hv. pose proof (reachable_wf R o Hr) as Hwf.
  destruct (access_spec R o g op a v Hwf Hv)
    as (x & r & o' & Hrun & Hx & _ & _ & Hwf' & _ & Hpos & Hfr & _ & Hdata).
  destruct (position_at_spec o a (wf_shape _ Hwf) (proj1 Hv)) as (x' & Hat & Hx' & _).
  rewrite Hx in Hx'. injection Hx' as <-.
  exists x, r, o', (rng_randrange R (leaf_space o) g).2.
  split; [done|]. split; [done|]. split; [done|]. split.
  - intros i Hi. rewrite Hpos. by apply list_lookup_insert_ne.
  - intros b d Hb. specialize (Hdata b Hb). unfold data_of in Hdata.
    pose proof (conserved_NoDup _ (wf_conserved _ Hwf)) as Hnd.
    pose proof (conserved_NoDup _ (wf_conserved _ Hwf')) as Hnd'.
    split; intros Hin.
    + apply dict_get_Some_elem. rewrite <- Hdata. by apply dict_get_elem.
    + apply dict_get_Some_elem. rewrite Hdata. by apply dict_get_elem.
Qed.

Lemma access_frame_witness :
  exists x r o' g',
    position_at 0 Demo.engine = Ok x Demo.engine
    /\ access LCG.source "write" 0 (PStr "x") (Demo.engine, Demo.generator) = Ok r (o', g')
    /\ (forall j, j ∉ path_slots (o_L Demo.engine) x -> tree o' !! j = tree Demo.engine !! j)
    /\ (forall i, i ≠ Z.to_nat 0 -> position o' !! i = position Demo.engine !! i)
    /\ (forall b d, b ≠ 0 -> (b, d) ∈ pairs o' <-> (b, d) ∈ pairs Demo.engine).
Proof.
  apply (access_frame LCG.source Demo.engine Demo.generator "write" 0 (PStr "x")).
  - apply (reach_init LCG.source 4 2 2 (Some 1) 0 Demo.engine Demo.generator).
    vm_compute. reflexivity.
  - split; [simpl; lia|by right].
Defined.

(** ** Initial placement, in detail *)

(** The placement loop either appends the block to the first bucket with
    room among the levels it tries, or finds every one of them full and
    changes nothing. *)
Lemma place_loop_effect o a leaf levels :
  shape o -> 0 <= leaf < 2 ^ o_L o ->
  (forall l, l ∈ levels -> 0 <= l <= o_L o) ->
  (exists l, l ∈ levels
     /\ place_loop a leaf levels o
        = Ok true (with_tree
                     (<[Z.to_nat (node_index l (Z.shiftr leaf (o_L o - l)))
                        := bucket_of o l (Z.shiftr leaf (o_L o - l)) ++ [(a, PInt a)]]>
                        (tree o)) o))
  \/ ((forall l, l ∈ levels ->
         o_Z o <= Z.of_nat (length (bucket_of o l (Z.shiftr leaf (o_L o - l)))))
      /\ place_loop a leaf levels o = Ok false o).
Proof.
  intros Hs Hleaf. induction levels as [|l levels IH]; intros Hl.
  - right. split; [|done]. intros l Hin. by apply elem_of_nil in Hin.
  - assert (0 <= l <= o_L o) as Hlr by (apply Hl; left).
    pose proof (path_node_valid _ _ _ Hlr Hleaf) as Hv.
    destruct (bucket_spec o _ _ Hs Hv) as [Hb Hlt].
    set (idx := Z.shiftr leaf (o_L o - l)) in *.
    assert (place_loop a leaf (l :: levels) o
            = if Z.of_nat (length (bucket_of o l idx)) <? o_Z o
              then Ok true (with_tree (<[Z.to_nat (node_index l idx)
                                         := bucket_of o l idx ++ [(a, PInt a)]]> (tree o)) o)
              else place_loop a leaf levels o) as Hstep.
    { simpl. unfold bind at 1. unfold get at 1. rewrite path_idx_eq by done. fold idx.
      unfold bind at 1. rewrite Hb. unfold bind at 1. unfold get at 1.
      assert (deref (Z.to_nat (node_index l idx)) o = bucket_of o l idx) as -> by done.
      by destruct (Z.of_nat (length (bucket_of o l idx)) <? o_Z o). }
    rewrite Hstep.
    destruct (Z.ltb_spec (Z.of_nat (length (bucket_of o l idx))) (o_Z o)) as [Hroom|Hfull].
    + left. exists l. split; [left|done].
    + destruct IH as [(l' & Hin & Hrun)|[Hall Hrun]].
      { intros l' Hin. apply Hl. by right. }
      * left. exists l'. split; [by right|done].
      * right. split; [|done]. intros l' Hin.
        apply elem_of_cons in Hin as [->|Hin]; [done|auto].
Qed.

Lemma place_block_effect o a :
  shape o -> 0 <= a < o_N o -> a ∉ (stash o).*1 ->
  exists leaf, position o !! Z.to_nat a = Some leaf /\ 0 <= leaf < 2 ^ o_L o
  /\ ((exists l, 0 <= l <= o_L o
        /\ place_block a o
           = Ok tt (with_tree
                      (<[Z.to_nat (node_index l (Z.shiftr leaf (o_L o - l)))
                         := bucket_of o l (Z.shiftr leaf (o_L o - l)) ++ [(a, PInt a)]]>
                         (tree o)) o))
      \/ ((forall l, 0 <= l <= o_L o ->
             o_Z o <= Z.of_nat (length (bucket_of o l (Z.shiftr leaf (o_L o - l)))))
          /\ place_block a o = Ok tt (with_stash (stash o ++ [(a, PInt a)]) o))).
Proof.
  intros Hs Ha Hfresh.
  destruct (position_at_spec o a Hs Ha) as (leaf & Hrun & Hp & Hleaf).
  exists leaf. split; [done|]. split; [done|].
  assert (place_block a o
          = match place_loop a leaf (py_range_down (o_L o)) o with
            | Ok placed o' => (if negb placed then stash_set a (PInt a) else ret tt) o'
            | Raise e o' => Raise e o'
            end) as ->.
  { unfold place_block, bind. by rewrite Hrun. }
  destruct (place_loop_effect o a leaf (py_range_down (o_L o)) Hs Hleaf)
    as [(l & Hin & ->)|[Hall ->]].
  { intros l Hin. by apply py_range_down_elem. }
  - left. exists l. split; [by apply py_range_down_elem|done].
  - right. split.
    + intros l Hl. apply Hall. by apply py_range_down_elem.
    + simpl. unfold stash_set, modify. by rewrite dict_set_fresh.
Qed.

(** Appending to one bucket shortens no bucket. *)
Lemma append_grows o r (b' : bucket) l idx :
  (forall b, tree o !! r = Some b -> length b <= length b')%nat ->
  (length (bucket_of o l idx) <= length (bucket_of (with_tree (<[r := b']> (tree o)) o) l idx))%nat.
Proof.
  intros Hb. unfold bucket_of. simpl.
  destruct (decide (r = Z.to_nat (node_index l idx))) as [->|Hne].
  - destruct (tree o !! Z.to_nat (node_index l idx)) as [b|] eqn:Hlk; simpl; [|lia].
    rewrite list_lookup_insert_eq by (by eapply lookup_lt_Some). simpl. by apply Hb.
  - by rewrite list_lookup_insert_ne.
Qed.

Section ConstructionDetail.

Context (R : RandomSource).

Lemma initial_place_fresh o g :
  shape o -> tree o = replicate (length (tree o)) [] -> stash o = [] ->
  exists o', _initial_place_blocks R (o, g)
             = Ok tt (o', (rng_shuffle R (py_range 0 (o_N o)) g).2)
    /\ fresh_engine o'.
Proof.
  intros Hs Ht Hst.
  set (order := (rng_shuffle R (py_range 0 (o_N o)) g).1).
  assert (order ≡ₚ py_range 0 (o_N o)) as Hperm by apply rng_shuffle_perm.
  assert (NoDup order) as Hnd by (rewrite Hperm; apply NoDup_seqZ).
  destruct (for_each_inv
    (fun pre o1 =>
       (same_params o o1 /\ position o1 = position o
        /\ capacity_ok o1 /\ subtree_ok o1 /\ block_ids o1 ≡ₚ pre)
       /\ fresh_engine o1)
    order place_block o) as (o' & Hrun & _ & Hfresh).
  - split.
    + split_and!; [apply same_params_refl|done| | |].
      * unfold capacity_ok. rewrite Ht. apply Forall_replicate. simpl.
        destruct Hs as [(? & ? & ? & ?) _ _ _ _ _]. lia.
      * intros l idx bid d _ Hin. unfold bucket_of in Hin. rewrite Ht in Hin.
        destruct (replicate (length (tree o)) [] !! Z.to_nat (node_index l idx)) as [b|] eqn:Hlk.
        { apply lookup_replicate in Hlk as [-> _]. by apply elem_of_nil in Hin. }
        by apply elem_of_nil in Hin.
      * unfold block_ids, pairs. by rewrite Ht, concat_replicate_nil, Hst.
    + unfold fresh_engine, pairs. rewrite Ht, concat_replicate_nil, Hst. simpl.
      split; intros; by match goal with H : _ ∈ [] |- _ => apply elem_of_nil in H end.
  - intros pre a post o1 Hsplit ((Hsp & Hpos & Hcap & Hsub & Hids) & Hdata & Hfull).
    pose proof (same_params_shape _ _ Hs Hsp Hpos) as Hs1.
    assert (a ∉ pre) as Hnew.
    { rewrite Hsplit in Hnd. apply NoDup_app in Hnd as (_ & Hdis & _).
      intros Hin. apply (Hdis _ Hin). left. }
    assert (0 <= a < o_N o1) as Ha.
    { rewrite (same_N _ _ Hsp). apply (py_range_elem 0). rewrite <- Hperm, Hsplit.
      apply elem_of_app. right. left. }
    assert (a ∉ (stash o1).*1) as Hns.
    { intros Hin. apply Hnew. rewrite <- Hids. unfold block_ids, pairs.
      rewrite fmap_app. apply elem_of_app. by right. }
    destruct (place_block_spec o1 a Hs1 Hcap Hsub Ha Hns)
      as (o2 & Hrun & Hsp2 & Hpos2 & Hcap2 & Hsub2 & Hp2).
    exists o2. split; [done|]. split.
    { split_and!; [by eapply same_params_trans|congruence|done|done|].
      unfold block_ids. rewrite Hp2. simpl. fold (block_ids o1). rewrite Hids.
      apply Permutation_cons_append. }
    split.
    { intros p Hp. rewrite Hp2 in Hp. apply elem_of_cons in Hp as [->|Hp]; [done|auto]. }
    destruct (place_block_effect o1 a Hs1 Ha Hns) as (leaf & Hleaf & Hlr & Heff).
    destruct Heff as [(l & Hl & Hrun')|[Hall Hrun']];
      rewrite Hrun in Hrun'; injection Hrun' as ->.
    + intros b d Hin. simpl in Hin. destruct (Hfull b d Hin) as (lf & Hlf & Hlv).
      exists lf. split; [done|]. intros l' Hl'. simpl. etrans; [by apply Hlv|].
      apply inj_le, append_grows. intros b0 Hb0. unfold bucket_of. rewrite Hb0. simpl.
      rewrite length_app. lia.
    + intros b d Hin. simpl in Hin. apply elem_of_app in Hin as [Hin|Hin].
      * destruct (Hfull b d Hin) as (lf & Hlf & Hlv). exists lf. by split.
      * apply list_elem_of_singleton in Hin. injection Hin as -> ->.
        exists leaf. by split.
  - exists o'. split; [|done].
    unfold _initial_place_blocks, bind, lift_self, lift_random, get, shuffle. cbn [fst snd].
    fold order. by rewrite Hrun.
Qed.

(** The constructor with valid parameters, unfolded up to the placement
    loop: the engine object it has built by then is empty and well shaped. *)
Lemma init_steps N Z' L seed g :
  valid_params N Z' L ->
  exists o0 g1,
    shape o0 /\ tree o0 = replicate (length (tree o0)) [] /\ stash o0 = []
    /\ o_N o0 = N /\ o_Z o0 = Z' /\ o_L o0 = L
    /\ __init__ R N Z' L seed g = construct R o0 (_initial_place_blocks R) g1.
Proof.
  intros Hv. destruct (valid_params_checks _ _ _ Hv) as (HcN & HcZ & HcL).
  destruct Hv as (HN & HZ & HL & Hfit).
  unfold __init__, bind, assert. rewrite HcN, HcZ, HcL. unfold ret at 1 2 3.
  set (g0 := match seed with Some s => rng_seed R s | None => g end).
  assert (0 < Z.shiftl 1 L) as Hls by (rewrite shiftl_1_pow by lia; apply pow2_pos; lia).
  destruct (comprehension_spec R (Z.to_nat N) (Z.shiftl 1 L) g0 Hls) as (ps & g1 & Hps & Hlen & Hall).
  assert ((match seed with Some s => seed_call R s | None => ret tt end) g = Ok tt g0) as ->.
  { by destruct seed. }
  rewrite Hps.
  eexists _, g1. split_and!; [| | | | | |reflexivity]; simpl; try done.
  - constructor; simpl.
    + done.
    + by rewrite shiftl_1_pow by lia.
    + by rewrite shiftl_1_pow by lia.
    + rewrite length_replicate, shiftl_1_pow by lia.
      assert (0 < 2 ^ (L + 1) - 1); [|lia].
      rewrite pow2_succ by lia. pose proof (pow2_pos L). lia.
    + rewrite Hlen. lia.
    + by rewrite shiftl_1_pow in Hall by lia.
  - by rewrite length_replicate.
Qed.

Lemma init_fresh N Z' L seed g :
  valid_params N Z' L ->
  exists o g', __init__ R N Z' L seed g = Ok o g'
    /\ wf o /\ o_N o = N /\ o_Z o = Z' /\ o_L o = L /\ fresh_engine o.
Proof.
  intros Hv.
  destruct (init_steps N Z' L seed g Hv) as (o0 & g1 & Hs0 & Ht0 & Hst0 & HN & HZ & HL & ->).
  destruct (initial_place_spec R o0 g1 Hs0 Ht0 Hst0) as (o' & Hrun & Hwf & Hsp & _).
  destruct (initial_place_fresh o0 g1 Hs0 Ht0 Hst0) as (o'' & Hrun' & Hfresh).
  rewrite Hrun in Hrun'. injection Hrun' as <-.
  unfold construct. rewrite Hrun. eexists _, _. split; [reflexivity|]. simpl.
  destruct Hsp as [sN sZ sL _ _ _ _]. split_and!; [done|congruence..|done].
Qed.

End ConstructionDetail.

(** ** Eviction is greedy *)

(** The scan stops short of the room left only when it has taken every
    key whose leaf passes the subtree test. *)
Lemma choose_loop_complete o x l capacity keys chosen :
  shape o -> (forall k, k ∈ keys -> 0 <= k < o_N o) ->
  Z.of_nat (length chosen) < capacity ->
  exists extra, choose_loop x l capacity keys chosen o = Ok (chosen ++ extra) o
    /\ (Z.of_nat (length (chosen ++ extra)) = capacity
        \/ forall bid p, bid ∈ keys -> position o !! Z.to_nat bid = Some p ->
             same_subtree_at_level (o_L o) p x l = true -> bid ∈ extra).
Proof.
  intros Hs. revert chosen. induction keys as [|bid keys IH]; intros chosen Hk Hlen.
  - exists []. rewrite app_nil_r. split; [done|]. right.
    intros bid p Hin. by apply elem_of_nil in Hin.
  - destruct (position_at_spec o bid Hs) as (p & Hp & Hlk & _); [apply Hk; left|].
    assert (choose_loop x l capacity (bid :: keys) chosen o
            = if same_subtree_at_level (o_L o) p x l then
                if Z.of_nat (length (chosen ++ [bid])) =? capacity
                then Ok (chosen ++ [bid]) o
                else choose_loop x l capacity keys (chosen ++ [bid]) o
              else choose_loop x l capacity keys chosen o) as ->.
    { simpl. unfold bind. rewrite Hp. unfold get.
      destruct (same_subtree_at_level (o_L o) p x l); [|done].
      by destruct (Z.of_nat (length (chosen ++ [bid])) =? capacity). }
    destruct (same_subtree_at_level (o_L o) p x l) eqn:Hsub.
    + destruct (Z.eqb_spec (Z.of_nat (length (chosen ++ [bid]))) capacity) as [Hfull|Hroom].
      * exists [bid]. split; [done|]. by left.
      * destruct (IH (chosen ++ [bid])) as (extra & Hrun & Hres).
        { intros k Hin. apply Hk. by right. }
        { rewrite length_app in *. simpl in *. lia. }
        exists (bid :: extra). rewrite Hrun, <- (assoc_L (++)). simpl.
        split; [done|]. rewrite <- (assoc_L (++)) in Hres. simpl in Hres.
        destruct Hres as [?|Hall]; [by left|right].
        intros b q Hin Hq Hpass. apply elem_of_cons in Hin as [->|Hin]; [left|].
        right. by eapply Hall.
    + destruct (IH chosen) as (extra & Hrun & Hres); [|done|].
      { intros k Hin. apply Hk. by right. }
      exists extra. split; [done|]. destruct Hres as [?|Hall]; [by left|right].
      intros b q Hin Hq Hpass. apply elem_of_cons in Hin as [->|Hin]; [|by eapply Hall].
      rewrite Hlk in Hq. injection Hq as <-. congruence.
Qed.

Lemma evict_level_greedy o x l :
  wf o -> 0 <= x < 2 ^ o_L o -> 0 <= l <= o_L o ->
  exists o', evict_level x l o = Ok tt o'
    /\ (forall k, k ∈ (stash o').*1 -> k ∈ (stash o).*1)
    /\ settled o' x l.
Proof.
  intros [Hs Hc Hcap Hsub] Hx Hl.
  pose proof (path_node_valid _ _ _ Hl Hx) as Hv.
  destruct (bucket_spec o _ _ Hs Hv) as [Hb Hlt].
  pose proof (bucket_of_lookup o _ _ Hlt) as Hlk.
  set (idx := Z.shiftr x (o_L o - l)) in *.
  set (r := Z.to_nat (node_index l idx)) in *.
  set (b := bucket_of o l idx) in *.
  set (cap := o_Z o - Z.of_nat (length b)).
  assert (evict_level x l o
          = if o_Z o <=? Z.of_nat (length b) then Ok tt o
            else match choose_loop x l cap (dict_keys (stash o)) [] o with
                 | Ok chosen o1 =>
                     for_each chosen
                       (fun bid => bind (stash_pop bid) (fun v => bucket_append r (bid, v))) o1
                 | Raise e o1 => Raise e o1
                 end) as ->.
  { unfold evict_level. unfold bind at 1. unfold get at 1.
    rewrite path_idx_eq by done. fold idx. unfold bind at 1. rewrite Hb.
    assert (deref r o = b) as -> by done.
    by destruct (o_Z o <=? Z.of_nat (length b)). }
  destruct (Z.leb_spec (o_Z o) (Z.of_nat (length b))) as [Hfull|Hroom].
  { exists o. split; [done|]. split; [done|]. by left. }
  destruct (choose_loop_complete o x l cap (dict_keys (stash o)) [] Hs)
    as (chosen & Hch & Hres).
  { intros k Hk. by apply stash_key_range. }
  { simpl. unfold cap. lia. }
  destruct (choose_loop_spec o x l cap (dict_keys (stash o)) [] Hs)
    as (chosen' & Hch' & Hsl & _).
  { intros k Hk. by apply stash_key_range. }
  { simpl. unfold cap. lia. }
  rewrite Hch in Hch'. injection Hch' as <-. simpl in Hch, Hres, Hsl. rewrite Hch.
  destruct (move_loop_spec o r b chosen Hlk) as (o' & mv & Hrun & Hmv & Hkeys & Ht & Hst).
  { eapply sublist_NoDup; [|done]. by apply stash_keys_NoDup. }
  { intros k Hk. by eapply elem_of_sublist. }
  exists o'. split; [done|].
  assert ((stash o).*1 ≡ₚ chosen ++ (stash o').*1) as Hsplit.
  { by rewrite Hst, fmap_app, Hkeys. }
  split.
  { intros k Hk. rewrite Hsplit. apply elem_of_app. by right. }
  unfold settled. rewrite (moved_Z _ _ Hmv), (moved_L _ _ Hmv), (moved_position _ _ Hmv).
  fold idx. unfold bucket_of. fold r. rewrite Ht, list_lookup_insert_eq by done. simpl.
  destruct Hres as [Hfull|Hall].
  - left. rewrite length_app.
    assert (length mv = length chosen) as -> by (by rewrite <- Hkeys, length_fmap).
    unfold cap in Hfull. lia.
  - right. intros bid p Hin Hp.
    destruct (same_subtree_at_level (o_L o) p x l) eqn:Hpass; [|done]. exfalso.
    assert (bid ∈ chosen) as Hc1.
    { apply (Hall bid p); [|done|done]. unfold dict_keys. rewrite Hsplit.
      apply elem_of_app. by right. }
    pose proof (stash_keys_NoDup o Hc) as Hnd. rewrite Hsplit in Hnd.
    apply NoDup_app in Hnd as (_ & Hdis & _). by apply (Hdis bid).
Qed.

Lemma py_range_down_NoDup L : NoDup (py_range_down L).
Proof. unfold py_range_down, py_range. rewrite reverse_Permutation. apply NoDup_seqZ. Qed.

Lemma evict_greedy o x :
  wf o -> 0 <= x < 2 ^ o_L o ->
  exists o', evict x o = Ok tt o'
    /\ forall l, 0 <= l <= o_L o -> settled o' x l.
Proof.
  intros Hwf Hx. unfold evict, bind, get.
  destruct (for_each_inv
    (fun pre o1 => wf o1 /\ moved o o1 /\ forall l, l ∈ pre -> settled o1 x l)
    (py_range_down (o_L o)) (evict_level x) o) as (o' & Hrun & _ & _ & Hall).
  - split_and!; [done|apply moved_refl|]. intros l Hin. by apply elem_of_nil in Hin.
  - intros pre l post o1 Hsplit (Hwf1 & Hmv & Hpre).
    assert (0 <= l <= o_L o) as Hl.
    { apply py_range_down_elem. rewrite Hsplit. apply elem_of_app. right. left. }
    pose proof (moved_L _ _ Hmv) as HL.
    destruct (evict_level_spec o1 x l Hwf1) as (o2 & Hrun & Hwf2 & Hmv2 & Hfr2);
      [by rewrite HL..|].
    destruct (evict_level_greedy o1 x l Hwf1) as (o2' & Hrun' & Hsub & Hset);
      [by rewrite HL..|].
    rewrite Hrun in Hrun'. injection Hrun' as <-.
    exists o2. split; [done|]. split; [done|]. split; [by eapply moved_trans|].
    intros l0 Hin. apply elem_of_app in Hin as [Hin|Hin].
    + assert (l0 ≠ l) as Hne.
      { pose proof (py_range_down_NoDup (o_L o)) as Hnd. rewrite Hsplit in Hnd.
        apply NoDup_app in Hnd as (_ & Hdis & _). intros ->. apply (Hdis l Hin). left. }
      assert (0 <= l0 <= o_L o) as Hl0.
      { apply py_range_down_elem. rewrite Hsplit. apply elem_of_app. by left. }
      destruct (Hpre l0 Hin) as [Hfull|Hnone]; [left|right].
      * rewrite (moved_Z _ _ Hmv2), (moved_L _ _ Hmv2). unfold bucket_of.
        rewrite Hfr2; [done|]. rewrite HL.
        pose proof (path_node_valid _ _ _ Hl0 Hx) as Hv0.
        pose proof (path_node_valid _ _ _ Hl Hx) as Hv1.
        pose proof (node_index_bound _ _ _ Hv0). pose proof (node_index_bound _ _ _ Hv1).
        intros Heq. apply Hne. apply (node_index_inj (o_L o) _ _ _ _ Hv0 Hv1). lia.
      * intros bid p Hb Hp. rewrite (moved_L _ _ Hmv2).
        rewrite (moved_position _ _ Hmv2) in Hp. by apply (Hnone bid p); [apply Hsub|].
    + apply list_elem_of_singleton in Hin as ->. done.
  - exists o'. split; [done|]. intros l Hl. by apply Hall, py_range_down_elem.
Qed.

Section AccessDetail.

Context (R : RandomSource).

(** The three phases of a valid [access] and the states between them. *)
Lemma access_phases o g op a v :
  wf o -> valid_access o op a ->
  exists x o1 d o2 o3,
    access_read R op a (o, g) = Ok x (o1, (rng_randrange R (leaf_space o) g).2)
    /\ access_serve op a v o1 = Ok d o2
    /\ evict x o2 = Ok tt o3
    /\ access R op a v (o, g) = Ok d (o3, (rng_randrange R (leaf_space o) g).2)
    /\ position o !! Z.to_nat a = Some x /\ 0 <= x < 2 ^ o_L o
    /\ wf o2 /\ wf o3 /\ moved o2 o3
    /\ o_L o2 = o_L o /\ o_Z o2 = o_Z o /\ o_N o2 = o_N o.
Proof.
  intros Hwf Hva.
  destruct (access_read_spec R o g op a Hwf Hva)
    as (x & o1 & Hrun1 & Hx & Hxr & Hsp1 & _ & _ & Hwf1 & _ & _ & _ & _ & Ha1).
  destruct (access_serve_spec o1 op a v Hwf1 Ha1) as (d & Hrun2 & _).
  set (o2 := if String.eqb op "write" then with_stash (dict_set a v (stash o1)) o1 else o1) in *.
  assert (wf o2) as Hwf2.
  { unfold o2. destruct (String.eqb op "write"); [by apply write_wf|done]. }
  assert (o_L o2 = o_L o1 /\ o_Z o2 = o_Z o1 /\ o_N o2 = o_N o1) as (HL2 & HZ2 & HN2).
  { unfold o2. by destruct (String.eqb op "write"). }
  destruct (evict_spec o2 x Hwf2) as (o3 & Hrun3 & Hwf3 & Hmv3 & _).
  { by rewrite HL2, (same_L _ _ Hsp1). }
  exists x, o1, d, o2, o3. split; [done|]. split; [done|]. split; [done|]. split.
  { unfold access, bind. rewrite Hrun1. unfold lift_self at 1. cbn [fst snd].
    rewrite Hrun2. unfold lift_self. cbn [fst snd]. by rewrite Hrun3. }
  rewrite HL2, HZ2, HN2, (same_L _ _ Hsp1), (same_Z _ _ Hsp1), (same_N _ _ Hsp1).
  split_and!; (done || lia).
Qed.

Lemma access_settled o g op a v :
  wf o -> valid_access o op a ->
  exists x d o',
    access R op a v (o, g) = Ok d (o', (rng_randrange R (leaf_space o) g).2)
    /\ position o !! Z.to_nat a = Some x
    /\ wf o' /\ o_L o' = o_L o /\ o_Z o' = o_Z o /\ o_N o' = o_N o
    /\ forall l, 0 <= l <= o_L o -> settled o' x l.
Proof.
  intros Hwf Hva.
  destruct (access_phases o g op a v Hwf Hva)
    as (x & o1 & d & o2 & o3 & _ & _ & Hrun3 & Hrun & Hx & Hxr & Hwf2 & Hwf3 & Hmv & HL & HZ & HN).
  destruct (evict_greedy o2 x Hwf2) as (o3' & Hrun3' & Hset); [by rewrite HL|].
  rewrite Hrun3 in Hrun3'. injection Hrun3' as <-.
  exists x, d, o3. split; [done|]. split; [done|]. split; [done|].
  rewrite (moved_L _ _ Hmv), (moved_Z _ _ Hmv), (moved_N _ _ Hmv).
  split_and!; [done..|]. intros l Hl. apply Hset. by rewrite HL.
Qed.

(** In a reachable engine the stash holds a block only while the root
    bucket is full. *)
Lemma root_full o :
  reachable R o -> stash o ≠ [] -> Z.of_nat (length (bucket_of o 0 0)) = o_Z o.
Proof.
  intros Hr Hne. pose proof (reachable_wf R o Hr) as Hwf.
  assert (Z.of_nat (length (bucket_of o 0 0)) <= o_Z o) as Hle.
  { unfold bucket_of. destruct (tree o !! Z.to_nat (node_index 0 0)) as [b|] eqn:Hlk; simpl.
    - by apply (Forall_lookup_1 _ _ _ _ (wf_capacity _ Hwf) Hlk).
    - destruct (shape_params _ (wf_shape _ Hwf)) as (? & ? & ? & ?). lia. }
  pose proof (shape_L _ (wf_shape _ Hwf)) as HL.
  destruct (stash o) as [|[bid d] rest] eqn:Hst; [done|]. clear Hne.
  assert (o_Z o <= Z.of_nat (length (bucket_of o 0 0))); [|lia].
  inversion Hr as [N Z' L seed g oi g' Hrun Heq|o0 g op a v r oi g' Hr0 Hrun Heq]; subst oi.
  - pose proof (init_ok_valid R _ _ _ _ _ _ _ Hrun) as Hv.
    destruct (init_fresh R N Z' L seed g Hv) as (o1 & g1 & Hrun1 & _ & _ & _ & _ & _ & Hfull).
    rewrite Hrun in Hrun1. injection Hrun1 as <- <-.
    destruct (Hfull bid d) as (leaf & Hleaf & Hlv); [rewrite Hst; left|].
    specialize (Hlv 0 ltac:(lia)). rewrite Z.sub_0_r in Hlv.
    rewrite shiftr_leaf_root in Hlv; [done|done|].
    by apply (Forall_lookup_1 _ _ _ _ (shape_leaf _ (wf_shape _ Hwf)) Hleaf).
  - pose proof (reachable_wf R o0 Hr0) as Hwf0.
    pose proof (access_ok_valid R _ _ _ _ _ _ _ Hrun) as Hv.
    destruct (access_settled o0 g op a v Hwf0 Hv)
      as (x & d' & o1 & Hrun1 & Hx & _ & HL1 & _ & _ & Hset).
    rewrite Hrun in Hrun1. injection Hrun1 as <- <- _.
    pose proof (shape_L _ (wf_shape _ Hwf0)) as HL0.
    destruct (Hset 0 ltac:(lia)) as [Hfull|Hnone].
    + rewrite HL1, Z.sub_0_r in Hfull. rewrite shiftr_leaf_root in Hfull; [done|done|].
      by apply (Forall_lookup_1 _ _ _ _ (shape_leaf _ (wf_shape _ Hwf0)) Hx).
    + exfalso.
      assert (0 <= bid < o_N o) as Hbid.
      { apply stash_key_range; [apply Hwf|]. rewrite Hst. left. }
      destruct (position_at_spec o bid (wf_shape _ Hwf) Hbid) as (p & _ & Hp & _).
      specialize (Hnone bid p). rewrite Hst in Hnone.
      by specialize (Hnone ltac:(left) Hp).
Qed.

(** With room for every block in one bucket the stash stays empty. *)
Lemma stash_empty_wide o : reachable R o -> o_N o <= o_Z o -> stash o = [].
Proof.
  intros Hr HNZ. destruct (stash o) as [|p rest] eqn:Hst; [done|]. exfalso.
  pose proof (root_full o Hr) as Hroot. rewrite Hst in Hroot. specialize (Hroot ltac:(done)).
  pose proof (reachable_wf R o Hr) as Hwf.
  pose proof (Permutation_length (wf_conserved _ Hwf)) as Hlen.
  unfold block_ids, pairs, py_range in Hlen.
  rewrite length_fmap, length_app, length_seqZ, Hst in Hlen. simpl in Hlen.
  assert (length (bucket_of o 0 0) <= length (concat (tree o)))%nat as Hsub.
  { unfold bucket_of. destruct (tree o) as [|b t]; simpl; [lia|]. rewrite length_app. lia. }
  lia.
Qed.

End AccessDetail.

(** ** The harness, in detail *)

Lemma count_gt_nonneg i l : 0 <= count_gt i l.
Proof. unfold count_gt. lia. Qed.

Lemma count_gt_le_length i l : count_gt i l <= Z.of_nat (length l).
Proof. unfold count_gt. pose proof (length_filter (fun v => i < v) l). lia. Qed.

Lemma count_gt_antitone i j l : i <= j -> count_gt j l <= count_gt i l.
Proof.
  intros Hij. induction l as [|v l IH]; [done|].
  rewrite !count_gt_cons. destruct (decide (j < v)), (decide (i < v)); lia.
Qed.

(** The last loop of the post-processing files new keys in the order
    it visits them. *)
Lemma fill_tail_keys max_stash suffix_ge idxs :
  forall tail_counts tail_counts',
  fill_tail idxs max_stash suffix_ge tail_counts = Some tail_counts' ->
  NoDup (tail_counts.*1 ++ idxs) ->
  tail_counts'.*1 = tail_counts.*1 ++ idxs.
Proof.
  induction idxs as [|i idxs IH]; intros tc tc' Hrun Hnd; simpl in Hrun.
  - injection Hrun as <-. by rewrite app_nil_r.
  - destruct (if i + 1 <=? max_stash then list_get suffix_ge (i + 1) else Some 0) as [v|];
      [|done]. simpl in Hrun.
    assert (i ∉ tc.*1) as Hi.
    { apply NoDup_app in Hnd as (_ & Hdis & _). intros Hin. apply (Hdis _ Hin). left. }
    rewrite dict_set_fresh in Hrun by done.
    rewrite (IH _ _ Hrun); rewrite fmap_app; simpl.
    + by rewrite <- (assoc_L (++)).
    + by rewrite <- (assoc_L (++)).
Qed.

Lemma tail_statistics_keys samples tail_counts max_stash s :
  tail_statistics samples = Some (tail_counts, max_stash, s) ->
  dict_keys tail_counts = py_range 0 (max_stash + 1).
Proof.
  unfold tail_statistics. intros Hstat.
  destruct (fill_hist samples _) as [hist|]; [|done]. simpl in Hstat.
  destruct (fill_suffix _ hist 0 _) as [sfx|]; [|done]. simpl in Hstat.
  destruct (fill_tail _ _ sfx []) as [tc0|] eqn:Hfill; [|done].
  simpl in Hstat. injection Hstat as <- <- _.
  unfold dict_keys. rewrite (fill_tail_keys _ _ _ _ _ Hfill); [done|].
  simpl. unfold py_range. apply NoDup_seqZ.
Qed.

Lemma stash_size_bound o : wf o -> Z.of_nat (length (stash o)) <= o_N o.
Proof.
  intros Hwf. pose proof (Permutation_length (wf_conserved _ Hwf)) as Hlen.
  unfold block_ids, pairs, py_range in Hlen.
  rewrite length_fmap, length_app, length_seqZ in Hlen.
  destruct (shape_params _ (wf_shape _ Hwf)) as (? & _). lia.
Qed.

Section SimulationDetail.

Context (R : RandomSource).

(** One round of the loop takes a reachable engine to a reachable
    engine. *)
Lemma sim_step_reach warmup_ops loc t o g :
  reachable R o -> 0 <= block loc < o_N o -> Z.of_nat (length (versions loc)) = o_N o ->
  exists loc' o' g', sim_step R warmup_ops loc t (o, g) = Ok loc' (o', g')
    /\ reachable R o' /\ o_N o' = o_N o /\ o_Z o' = o_Z o /\ o_L o' = o_L o
    /\ 0 <= block loc' < o_N o /\ Z.of_nat (length (versions loc')) = o_N o
    /\ recorded_stash_sizes loc'
       = if warmup_ops <=? t
         then recorded_stash_sizes loc ++ [Z.of_nat (length (stash o'))]
         else recorded_stash_sizes loc.
Proof.
  intros Hr Hb Hvs. pose proof (reachable_wf R o Hr) as Hwf.
  unfold sim_step. unfold bind at 1. unfold lift_random, getrandbits. cbn [fst snd].
  set (g1 := (rng_getrandbits R 1 g).2).
  unfold bind at 1. unfold lift_self at 1, get at 1. cbn [fst snd].
  assert (0 <= (if block loc + 1 =? o_N o then 0 else block loc + 1) < o_N o) as Hb'.
  { destruct (Z.eqb_spec (block loc + 1) (o_N o)); lia. }
  destruct ((rng_getrandbits R 1 g).1 =? 0).
  - simpl String.eqb. cbv iota.
    destruct (access_spec R o g1 "read" (block loc) PNone Hwf)
      as (x & d & o' & Hrun & _ & _ & _ & Hwf' & Hsp & _); [by split; [|left]|].
    pose proof (reach_access R _ _ _ _ _ _ _ _ Hr Hrun) as Hr'.
    unfold bind. rewrite Hrun. unfold ret, lift_self, get. cbn [fst snd].
    eexists _, o', _. split; [reflexivity|]. simpl.
    split_and!; [done|apply Hsp|apply Hsp|apply Hsp|lia|lia|done|done].
  - simpl String.eqb. cbv iota.
    rewrite list_get_in by lia.
    destruct (lookup_lt_is_Some_2 (versions loc) (Z.to_nat (block loc))) as [ver Hver]; [lia|].
    rewrite Hver, list_set_in by lia.
    destruct (access_spec R o g1 "write" (block loc) (PTuple (block loc) (ver + 1)) Hwf)
      as (x & d & o' & Hrun & _ & _ & _ & Hwf' & Hsp & _); [by split; [|right]|].
    pose proof (reach_access R _ _ _ _ _ _ _ _ Hr Hrun) as Hr'.
    unfold bind. rewrite Hrun. unfold ret, lift_self, get. cbn [fst snd].
    eexists _, o', _. split; [reflexivity|]. simpl.
    split_and!; [done|apply Hsp|apply Hsp|apply Hsp|lia|lia| |done]. by rewrite length_insert.
Qed.

Lemma sim_loop_reach warmup_ops ts :
  forall loc o g,
  reachable R o -> 0 <= block loc < o_N o -> Z.of_nat (length (versions loc)) = o_N o ->
  exists loc' o' g', sim_loop R warmup_ops ts loc (o, g) = Ok loc' (o', g')
    /\ reachable R o' /\ o_N o' = o_N o /\ o_Z o' = o_Z o /\ o_L o' = o_L o
    /\ exists extra,
         recorded_stash_sizes loc' = recorded_stash_sizes loc ++ extra
         /\ (forall v, v ∈ extra -> sample_of R o v)
         /\ length extra = length (filter (fun t => warmup_ops <= t) ts).
Proof.
  induction ts as [|t ts IH]; intros loc o g Hr Hb Hvs; simpl.
  - exists loc, o, g. split_and!; [done..|]. exists []. rewrite app_nil_r.
    split_and!; [done| |done]. intros v Hv. by apply elem_of_nil in Hv.
  - destruct (sim_step_reach warmup_ops loc t o g Hr Hb Hvs)
      as (loc1 & o1 & g1 & Hrun & Hr1 & HN1 & HZ1 & HL1 & Hb1 & Hvs1 & Hrec1).
    unfold bind. rewrite Hrun.
    destruct (IH loc1 o1 g1 Hr1)
      as (loc' & o' & g' & Hloop & Hr' & HN' & HZ' & HL' & extra & Hrec & Hsam & Hlen).
    { by rewrite HN1. }
    { by rewrite HN1. }
    exists loc', o', g'. split; [done|]. split; [done|].
    split; [congruence|]. split; [congruence|]. split; [congruence|].
    assert (forall v, v ∈ extra -> sample_of R o v) as Hsam'.
    { intros v Hv. destruct (Hsam v Hv) as (ot & ? & ? & ? & ?).
      exists ot. split_and!; [done|congruence|congruence|done]. }
    rewrite Hrec, Hrec1, filter_cons.
    destruct (Z.leb_spec warmup_ops t) as [Hle|Hgt].
    + exists (Z.of_nat (length (stash o1)) :: extra). rewrite <- (assoc_L (++)).
      split; [done|]. split.
      * intros v Hv. apply elem_of_cons in Hv as [->|Hv]; [|auto]. by exists o1.
      * destruct (decide (warmup_ops <= t)); [|lia]. simpl. by rewrite Hlen.
    + exists extra. split; [done|]. split; [done|].
      destruct (decide (warmup_ops <= t)); [lia|done].
Qed.

(** [simulate] on a reachable engine, up to the post-processing. *)
Lemma simulate_run o g total_ops warmup_ops :
  reachable R o -> 0 <= warmup_ops < total_ops ->
  exists samples o' g',
    simulate R total_ops warmup_ops (o, g)
    = match tail_statistics samples with
      | Some res => Ok res (o', g')
      | None => Raise IndexError (o', g')
      end
    /\ reachable R o' /\ o_N o' = o_N o /\ o_Z o' = o_Z o /\ o_L o' = o_L o
    /\ Z.of_nat (length samples) = total_ops - warmup_ops
    /\ forall v, v ∈ samples -> sample_of R o v.
Proof.
  intros Hr Hops. pose proof (reachable_wf R o Hr) as Hwf.
  pose proof (shape_params _ (wf_shape _ Hwf)) as (HN & _).
  destruct (sim_loop_reach warmup_ops (py_range 0 total_ops)
              {| versions := replicate (Z.to_nat (o_N o)) 0;
                 recorded_stash_sizes := []; block := 0 |} o g Hr)
    as (loc & o' & g' & Hloop & Hr' & HN' & HZ' & HL' & extra & Hrec & Hsam & Hlen).
  { simpl. lia. }
  { simpl. rewrite length_replicate. lia. }
  simpl in Hrec. subst extra.
  unfold py_range in Hlen. rewrite Z.sub_0_r, filter_ge_seqZ_length in Hlen by lia.
  exists (recorded_stash_sizes loc), o', g'. split.
  { unfold simulate, bind, assert.
    destruct (Z.ltb_spec warmup_ops total_ops); [|lia].
    destruct (Z.leb_spec 0 warmup_ops); [|lia]. simpl.
    rewrite Hloop. by destruct (tail_statistics (recorded_stash_sizes loc)). }
  split_and!; [done..| |done]. lia.
Qed.

Lemma sample_range o v : sample_of R o v -> 0 <= v <= o_N o.
Proof.
  intros (ot & Hr & HN & _ & ->). pose proof (stash_size_bound ot (reachable_wf R ot Hr)). lia.
Qed.

End SimulationDetail.

(** ** Further properties of the tree layout *)

Lemma path_nodes_lookup L x (l : nat) :
  Z.of_nat l <= L ->
  path_nodes L x !! l
  = Some (Z.of_nat l, if 0 <? Z.of_nat l then Z.shiftr x (L - Z.of_nat l) else 0).
Proof.
  intros Hl. unfold path_nodes, py_range. rewrite list_lookup_fmap.
  rewrite lookup_seqZ_lt by lia. simpl. by rewrite Z.add_0_l.
Qed.

(** X1 (flat layout).  For a tree of height [L >= 0], [node_index] sends
    the nodes [(l, idx)] with [0 <= l <= L] and [0 <= idx < 2^l] into the
    slots [0 .. 2^(L+1) - 2] of the flat array, no two nodes to the same
    slot, and every slot is the slot of a node. *)
Theorem node_index_bijection (L : Z) :
  0 <= L ->
  (forall l idx, valid_node L l idx -> 0 <= node_index l idx < 2 ^ (L + 1) - 1)
  /\ (forall l idx l' idx', valid_node L l idx -> valid_node L l' idx' ->
        node_index l idx = node_index l' idx' -> l = l' /\ idx = idx')
  /\ (forall j, 0 <= j < 2 ^ (L + 1) - 1 ->
        exists l idx, valid_node L l idx /\ node_index l idx = j).
Proof.
  intros HL. split_and!.
  - apply node_index_bound.
  - apply node_index_inj.
  - intros j Hj. by apply node_index_surj.
Qed.

Lemma node_index_bijection_witness :
  (forall l idx, valid_node 2 l idx -> 0 <= node_index l idx < 2 ^ (2 + 1) - 1)
  /\ (forall l idx l' idx', valid_node 2 l idx -> valid_node 2 l' idx' ->
        node_index l idx = node_index l' idx' -> l = l' /\ idx = idx')
  /\ (forall j, 0 <= j < 2 ^ (2 + 1) - 1 ->
        exists l idx, valid_node 2 l idx /\ node_index l idx = j).
Proof. apply (node_index_bijection 2). lia. Defined.

(** X2 (the path is a root-to-leaf chain).  For a leaf [x] of a tree of
    height [L >= 1], [path_nodes(L, x)] has [L + 1] nodes, starts at the
    root [(0, 0)], ends at the leaf [(L, x)], and each node is the parent of
    the next: its index is the next index shifted right by one, and in the
    flat array the next node sits at twice its slot plus one or two. *)
Theorem path_nodes_chain (L x : Z) :
  1 <= L -> 0 <= x < 2 ^ L ->
  length (path_nodes L x) = Z.to_nat (L + 1)
  /\ path_nodes L x !! 0%nat = Some (0, 0)
  /\ path_nodes L x !! Z.to_nat L = Some (L, x)
  /\ forall l : nat, Z.of_nat l < L ->
       exists i c,
         path_nodes L x !! l = Some (Z.of_nat l, i)
         /\ path_nodes L x !! S l = Some (Z.of_nat l + 1, c)
         /\ i = Z.shiftr c 1
         /\ node_index (Z.of_nat l + 1) c = 2 * node_index (Z.of_nat l) i + 1 + c mod 2.
Proof.
  intros HL Hx. split_and!.
  - unfold path_nodes, py_range. rewrite length_fmap, length_seqZ. f_equal. lia.
  - by rewrite path_nodes_lookup by lia.
  - rewrite path_nodes_lookup by lia. rewrite Z2Nat.id by lia.
    destruct (Z.ltb_spec 0 L); [|lia]. by rewrite Z.sub_diag, Z.shiftr_0_r.
  - intros l Hl.
    exists (Z.shiftr x (L - Z.of_nat l)), (Z.shiftr x (L - (Z.of_nat l + 1))).
    split_and!.
    + rewrite path_nodes_lookup by lia. f_equal. f_equal. apply path_idx_eq; lia.
    + rewrite path_nodes_lookup by lia.
      replace (Z.of_nat (S l)) with (Z.of_nat l + 1) by lia.
      destruct (Z.ltb_spec 0 (Z.of_nat l + 1)); [done|lia].
    + rewrite Z.shiftr_shiftr by lia. f_equal. lia.
    + set (c := Z.shiftr x (L - (Z.of_nat l + 1))).
      assert (Z.shiftr x (L - Z.of_nat l) = c / 2) as ->.
      { unfold c. replace (L - Z.of_nat l) with (L - (Z.of_nat l + 1) + 1) by lia.
        rewrite <- Z.shiftr_shiftr by lia. by rewrite (Z.shiftr_div_pow2 _ 1) by lia. }
      unfold node_index. rewrite !shiftl_1_pow, pow2_succ by lia.
      pose proof (Z.div_mod c 2 ltac:(lia)). lia.
Qed.

Lemma path_nodes_chain_witness :
  length (path_nodes 2 3) = Z.to_nat (2 + 1)
  /\ path_nodes 2 3 !! 0%nat = Some (0, 0)
  /\ path_nodes 2 3 !! Z.to_nat 2 = Some (2, 3)
  /\ forall l : nat, Z.of_nat l < 2 ->
       exists i c,
         path_nodes 2 3 !! l = Some (Z.of_nat l, i)
         /\ path_nodes 2 3 !! S l = Some (Z.of_nat l + 1, c)
         /\ i = Z.shiftr c 1
         /\ node_index (Z.of_nat l + 1) c = 2 * node_index (Z.of_nat l) i + 1 + c mod 2.
Proof. apply (path_nodes_chain 2 3); simpl; lia. Defined.

(** X3 (the subtree test is an equivalence that coarsens upward).  At a
    level [l] with [0 <= l <= L], [same_subtree_at_level] is reflexive,
    symmetric and transitive on leaves; two leaves that pass it at level [l]
    pass it at every level above; and at the leaf level [L >= 1] it holds
    exactly for equal leaves. *)
Theorem same_subtree_equivalence (L l : Z) :
  0 <= l <= L ->
  (forall a, same_subtree_at_level L a a l = true)
  /\ (forall a b, same_subtree_at_level L a b l = true ->
        same_subtree_at_level L b a l = true)
  /\ (forall a b c, same_subtree_at_level L a b l = true ->
        same_subtree_at_level L b c l = true ->
        same_subtree_at_level L a c l = true)
  /\ (forall a b l', 0 <= l' <= l -> same_subtree_at_level L a b l = true ->
        same_subtree_at_level L a b l' = true)
  /\ (forall a b, 1 <= L -> same_subtree_at_level L a b L = true <-> a = b).
Proof.
  intros Hl. unfold same_subtree_at_level. split_and!.
  - intros a. destruct (l =? 0); [done|]. apply Z.eqb_refl.
  - intros a b. destruct (l =? 0); [done|]. rewrite !Z.eqb_eq. congruence.
  - intros a b c. destruct (l =? 0); [done|]. rewrite !Z.eqb_eq. congruence.
  - intros a b l' Hl'. destruct (Z.eqb_spec l' 0); [done|].
    destruct (Z.eqb_spec l 0); [lia|]. rewrite !Z.eqb_eq. intros Heq.
    replace (L - l') with (L - l + (l - l')) by lia.
    rewrite <- !(Z.shiftr_shiftr _ (L - l)) by lia. by rewrite Heq.
  - intros a b HL. destruct (Z.eqb_spec L 0); [lia|].
    by rewrite Z.sub_diag, !Z.shiftr_0_r, Z.eqb_eq.
Qed.

Lemma same_subtree_equivalence_witness :
  (forall a, same_subtree_at_level 3 a a 2 = true)
  /\ (forall a b, same_subtree_at_level 3 a b 2 = true ->
        same_subtree_at_level 3 b a 2 = true)
  /\ (forall a b c, same_subtree_at_level 3 a b 2 = true ->
        same_subtree_at_level 3 b c 2 = true ->
        same_subtree_at_level 3 a c 2 = true)
  /\ (forall a b l', 0 <= l' <= 2 -> same_subtree_at_level 3 a b 2 = true ->
        same_subtree_at_level 3 a b l' = true)
  /\ (forall a b, 1 <= 3 -> same_subtree_at_level 3 a b 3 = true <-> a = b).
Proof. apply (same_subtree_equivalence 3 2). lia. Defined.

(** X4 (the subtree test compares path nodes).  For a level [l] with
    [0 <= l <= L], two leaves pass [same_subtree_at_level] exactly when
    their paths have the same node at level [l]. *)
Theorem same_subtree_path_node (L a b : Z) (l : nat) :
  Z.of_nat l <= L ->
  same_subtree_at_level L a b (Z.of_nat l) = true
  <-> path_nodes L a !! l = path_nodes L b !! l.
Proof.
  intros Hl. rewrite !path_nodes_lookup by done. unfold same_subtree_at_level.
  destruct (Z.eqb_spec (Z.of_nat l) 0) as [H0|H0].
  - destruct (Z.ltb_spec 0 (Z.of_nat l)); [lia|]. done.
  - destruct (Z.ltb_spec 0 (Z.of_nat l)); [|lia]. rewrite Z.eqb_eq.
    split; [by intros ->|]. by intros [= ->].
Qed.

Lemma same_subtree_path_node_witness :
  same_subtree_at_level 3 5 4 (Z.of_nat 2) = true
  <-> path_nodes 3 5 !! 2%nat = path_nodes 3 4 !! 2%nat.
Proof. apply (same_subtree_path_node 3 5 4 2). simpl. lia. Defined.

(** ** The engine as a memory *)

Lemma fresh_data o a :
  wf o -> fresh_engine o -> 0 <= a < o_N o -> data_of o a = Some (PInt a).
Proof.
  intros Hwf [Hown _] Ha.
  destruct (conserved_has_data o a (wf_conserved _ Hwf) Ha) as [d Hd].
  rewrite Hd. f_equal. apply dict_get_Some_elem in Hd. apply (Hown (a, d) Hd).
Qed.

Section Memory.

Context (R : RandomSource).

(** A run of valid calls returns what the plain array returns, as long
    as the engine's data agrees with the array at the start. *)
Lemma run_ops_ram N ops :
  Forall (fun c => 0 <= c.1.2 < N /\ (c.1.1 = "read"%string \/ c.1.1 = "write"%string)) ops ->
  forall o g (m : ram), wf o -> o_N o = N ->
  (forall a, 0 <= a < N -> data_of o a = Some (m a)) ->
  exists o' g', run_ops R ops (o, g) = Ok (ram_run m ops) (o', g').
Proof.
  induction 1 as [|[[op a] v] ops [Ha Hop] _ IH]; intros o g m Hwf HN Hm; simpl.
  - by exists o, g.
  - simpl in Ha, Hop.
    destruct (access_spec R o g op a v Hwf)
      as (x & d & o1 & Hrun & _ & _ & Hd & Hwf1 & Hsp & _ & _ & Hd1 & Hkeep).
    { split; [by rewrite HN|done]. }
    unfold bind. rewrite Hrun.
    rewrite (Hm a Ha) in Hd. injection Hd as <-.
    destruct (IH o1 (rng_randrange R (leaf_space o) g).2
                (if String.eqb op "write" then fun b => if b =? a then v else m b else m) Hwf1)
      as (o' & g' & ->).
    { by rewrite (same_N _ _ Hsp). }
    { intros b Hb. destruct (Z.eqb_spec b a) as [->|Hne].
      - rewrite Hd1. destruct (String.eqb op "write"); [by rewrite Z.eqb_refl|done].
      - rewrite (Hkeep b Hne), (Hm b Hb).
        destruct (String.eqb op "write"); [|done]. by destruct (Z.eqb_spec b a). }
    by eexists _, _.
Qed.

End Memory.

(** ** Further theorems *)

(** X5 (initial data).  A construction with valid parameters returns an
    engine in which every stored pair is [(a, a)]: each block carries its
    own id, and the first [access] to a block, read or write, returns that
    id. *)
Theorem initial_data (R : RandomSource) (N Z' L : Z) (seed : option Z) (g : rng R) :
  valid_params N Z' L ->
  exists o g', __init__ R N Z' L seed g = Ok o g'
    /\ (forall bid d, (bid, d) ∈ pairs o -> d = PInt bid)
    /\ forall g2 op a v, valid_access o op a ->
         exists w, access R op a v (o, g2) = Ok (PInt a) w.
Proof.
  intros Hv.
  destruct (init_fresh R N Z' L seed g Hv) as (o & g' & Hrun & Hwf & HN & _ & _ & Hfresh).
  exists o, g'. split; [done|]. split.
  - intros bid d Hin. apply (proj1 Hfresh (bid, d) Hin).
  - intros g2 op a v Hva.
    destruct (access_spec R o g2 op a v Hwf Hva) as (x & d & o' & Hacc & _ & _ & Hd & _).
    rewrite (fresh_data o a Hwf Hfresh (proj1 Hva)) in Hd. injection Hd as <-. eauto.
Qed.

Lemma initial_data_witness :
  exists o g', __init__ LCG.source 4 2 2 (Some 1) 0 = Ok o g'
    /\ (forall bid d, (bid, d) ∈ pairs o -> d = PInt bid)
    /\ forall g2 op a v, valid_access o op a ->
         exists w, access LCG.source op a v (o, g2) = Ok (PInt a) w.
Proof. apply (initial_data LCG.source 4 2 2 (Some 1) 0). unfold valid_params. simpl. lia. Defined.

(** X6 (the initial stash is overflow only).  After a construction with
    valid parameters, a block sits in the stash only if every bucket on the
    path to its leaf, root to leaf, holds exactly [Z] blocks. *)
Theorem initial_stash_overflow (R : RandomSource) (N Z' L : Z) (seed : option Z)
    (g : rng R) :
  valid_params N Z' L ->
  exists o g', __init__ R N Z' L seed g = Ok o g'
    /\ forall a d, (a, d) ∈ stash o ->
         exists leaf, position_at a o = Ok leaf o
           /\ forall l idx, (l, idx) ∈ path_nodes L leaf ->
                Z.of_nat (length (bucket_of o l idx)) = Z'.
Proof.
  intros Hv.
  destruct (init_fresh R N Z' L seed g Hv)
    as (o & g' & Hrun & Hwf & HN & HZ & HL & _ & Hfull).
  exists o, g'. split; [done|]. intros a d Hin.
  destruct (Hfull a d Hin) as (leaf & Hleaf & Hlv).
  assert (0 <= a < o_N o) as Ha.
  { apply stash_key_range; [apply Hwf|]. by apply (list_elem_of_fmap_2 fst _ (a, d)). }
  destruct (position_at_spec o a (wf_shape _ Hwf) Ha) as (p & Hat & Hp & Hpr).
  rewrite Hleaf in Hp. injection Hp as <-.
  exists leaf. split; [done|]. intros l idx Hnd. rewrite <- HL in Hnd.
  apply path_nodes_elem in Hnd as [Hl Hidx]; [|done]. simpl in Hl, Hidx. subst idx.
  pose proof (path_node_valid _ _ _ Hl Hpr) as Hn.
  destruct (bucket_spec o _ _ (wf_shape _ Hwf) Hn) as [_ Hlt].
  pose proof (Forall_lookup_1 _ _ _ _ (wf_capacity _ Hwf) (bucket_of_lookup o _ _ Hlt)) as Hcap.
  simpl in Hcap. specialize (Hlv l Hl). lia.
Qed.

Lemma initial_stash_overflow_witness :
  exists o g', __init__ Stuck.source 4 1 2 None tt = Ok o g'
    /\ forall a d, (a, d) ∈ stash o ->
         exists leaf, position_at a o = Ok leaf o
           /\ forall l idx, (l, idx) ∈ path_nodes 2 leaf ->
                Z.of_nat (length (bucket_of o l idx)) = 1.
Proof.
  apply (initial_stash_overflow Stuck.source 4 1 2 None tt). unfold valid_params. simpl. lia.
Defined.

(** X7 (the engine is a memory).  A session with valid parameters and
    valid operations returns, call by call, what a plain array returns
    whose cell [a] holds [a] at first: a read returns the last value
    written to the block, a write returns the value it replaces, whatever
    the generator draws. *)
Theorem oram_refines_ram (R : RandomSource) (N Z' L : Z) (seed : option Z)
    (ops : list (string * Z * pyval)) (g : rng R) :
  valid_params N Z' L ->
  Forall (fun c => 0 <= c.1.2 < N /\ (c.1.1 = "read"%string \/ c.1.1 = "write"%string)) ops ->
  exists n g', session R N Z' L seed ops g = Ok (ram_run ram_init ops, n) g'.
Proof.
  intros Hv Hops. unfold session.
  destruct (init_fresh R N Z' L seed g Hv) as (o & g' & -> & Hwf & HN & _ & _ & Hfresh).
  destruct (run_ops_ram R N ops Hops o g' ram_init Hwf HN) as (o' & g'' & ->).
  { intros a Ha. apply fresh_data; [done|done|by rewrite HN]. }
  by eexists _, _.
Qed.

Lemma oram_refines_ram_witness :
  exists n g',
    session LCG.source 4 2 2 None
      [("write"%string, 1, PStr "p"); ("read"%string, 1, PNone); ("read"%string, 2, PNone)] 5
    = Ok (ram_run ram_init
            [("write"%string, 1, PStr "p"); ("read"%string, 1, PNone);
             ("read"%string, 2, PNone)], n) g'.
Proof.
  apply (oram_refines_ram LCG.source 4 2 2 None
           [("write"%string, 1, PStr "p"); ("read"%string, 1, PNone);
            ("read"%string, 2, PNone)] 5).
  - unfold valid_params. simpl. lia.
  - repeat constructor; simpl; lia.
Defined.

(** X8 (eviction is greedy).  After a valid [access] on a reachable
    engine, with [x] the block's leaf before the call, every bucket on the
    path to [x] either holds exactly [Z] blocks or is one no block left in
    the stash could enter: each stash block fails the subtree test against
    [x] at that level. *)
Theorem eviction_greedy (R : RandomSource) (o : PathORAM) (g : rng R)
    (op : string) (a : Z) (v : pyval) :
  reachable R o -> valid_access o op a ->
  exists x r o' g',
    position_at a o = Ok x o
    /\ access R op a v (o, g) = Ok r (o', g')
    /\ forall l idx, (l, idx) ∈ path_nodes (o_L o) x ->
         Z.of_nat (length (bucket_of o' l idx)) = o_Z o
         \/ forall bid d, (bid, d) ∈ stash o' ->
              exists p, position_at bid o' = Ok p o'
                /\ same_subtree_at_level (o_L o) p x l = false.
Proof.
  intros Hr Hva. pose proof (reachable_wf R o Hr) as Hwf.
  destruct (access_settled R o g op a v Hwf Hva)
    as (x & d & o' & Hrun & Hx & Hwf' & HL & HZ & HN & Hset).
  destruct (position_at_spec o a (wf_shape _ Hwf) (proj1 Hva)) as (x' & Hat & Hx' & Hxr).
  rewrite Hx in Hx'. injection Hx' as <-.
  exists x, d, o', (rng_randrange R (leaf_space o) g).2.
  split; [done|]. split; [done|]. intros l idx Hnd.
  apply path_nodes_elem in Hnd as [Hl Hidx]; [|done]. simpl in Hl, Hidx. subst idx.
  destruct (Hset l Hl) as [Hfull|Hnone]; [left|right].
  - rewrite HL, HZ in Hfull.
    pose proof (path_node_valid _ _ _ Hl Hxr) as Hn. rewrite <- HL in Hn.
    destruct (bucket_spec o' _ _ (wf_shape _ Hwf') Hn) as [_ Hlt].
    pose proof (Forall_lookup_1 _ _ _ _ (wf_capacity _ Hwf') (bucket_of_lookup o' _ _ Hlt)) as Hcap.
    simpl in Hcap. rewrite HL, HZ in Hcap. lia.
  - intros bid d' Hin.
    assert (bid ∈ (stash o').*1) as Hk by (by apply (list_elem_of_fmap_2 fst _ (bid, d'))).
    assert (0 <= bid < o_N o') as Hb by (apply stash_key_range; [apply Hwf'|done]).
    destruct (position_at_spec o' bid (wf_shape _ Hwf') Hb) as (p & Hpat & Hp & _).
    exists p. split; [done|]. rewrite <- HL. by apply (Hnone bid p).
Qed.

Lemma eviction_greedy_witness :
  exists x r o' g',
    position_at 3 Stuck.engine = Ok x Stuck.engine
    /\ access Stuck.source "read" 3 PNone (Stuck.engine, tt) = Ok r (o', g')
    /\ forall l idx, (l, idx) ∈ path_nodes (o_L Stuck.engine) x ->
         Z.of_nat (length (bucket_of o' l idx)) = o_Z Stuck.engine
         \/ forall bid d, (bid, d) ∈ stash o' ->
              exists p, position_at bid o' = Ok p o'
                /\ same_subtree_at_level (o_L Stuck.engine) p x l = false.
Proof.
  apply (eviction_greedy Stuck.source Stuck.engine tt "read" 3 PNone).
  - apply (reach_init Stuck.source 4 1 2 None tt Stuck.engine tt).
    vm_compute. reflexivity.
  - split; [simpl; lia|by left].
Defined.

(** X9 (a stash means a full root).  In every reachable engine state the
    stash holds a block only if the root bucket holds exactly [Z] blocks;
    so with [N <= Z] the stash is empty after construction and after every
    access. *)
Theorem stash_needs_full_root (R : RandomSource) (o : PathORAM) :
  reachable R o ->
  (stash o ≠ [] -> Z.of_nat (length (bucket_of o 0 0)) = o_Z o)
  /\ (o_N o <= o_Z o -> stash o = []).
Proof.
  intros Hr. split; [by apply (root_full R)|by apply (stash_empty_wide R)].
Qed.

Lemma stash_needs_full_root_witness :
  (stash Stuck.engine ≠ [] -> Z.of_nat (length (bucket_of Stuck.engine 0 0)) = 1)
  /\ (4 <= 1 -> stash Stuck.engine = []).
Proof.
  apply (stash_needs_full_root Stuck.source Stuck.engine).
  apply (reach_init Stuck.source 4 1 2 None tt Stuck.engine tt).
  vm_compute. reflexivity.
Defined.

(** X10 (shape of a reachable engine).  In every reachable state the
    parameters are valid, the tree has [2^(L+1) - 1] buckets, the position
    map has [N] entries, and [position[a]] is a leaf in [0, 2^L) for every
    block id [a]; a successful [access] changes none of [N], [Z], [L]. *)
Theorem reachable_shape (R : RandomSource) (o : PathORAM) :
  reachable R o ->
  valid_params (o_N o) (o_Z o) (o_L o)
  /\ Z.of_nat (length (tree o)) = 2 ^ (o_L o + 1) - 1
  /\ num_nodes o = 2 ^ (o_L o + 1) - 1
  /\ leaf_space o = 2 ^ o_L o
  /\ Z.of_nat (length (position o)) = o_N o
  /\ (forall a, 0 <= a < o_N o ->
        exists p, position_at a o = Ok p o /\ 0 <= p < 2 ^ o_L o)
  /\ (forall g op a v r o' g', access R op a v (o, g) = Ok r (o', g') ->
        o_N o' = o_N o /\ o_Z o' = o_Z o /\ o_L o' = o_L o).
Proof.
  intros Hr. pose proof (reachable_wf R o Hr) as Hwf.
  pose proof (wf_shape _ Hwf) as Hs. destruct Hs as [Hp Hn Hl Ht Hpo Hlf].
  split_and!; [done|congruence|done..| |].
  - intros a Ha. destruct (position_at_spec o a (wf_shape _ Hwf) Ha) as (p & ? & _ & ?). eauto.
  - intros g op a v r o' g' Hrun.
    pose proof (access_ok_valid R _ _ _ _ _ _ _ Hrun) as Hva.
    destruct (access_spec R o g op a v Hwf Hva) as (x & d & o1 & Hrun1 & _ & _ & _ & _ & Hsp & _).
    rewrite Hrun in Hrun1. injection Hrun1 as _ <- _. by destruct Hsp.
Qed.

Lemma reachable_shape_witness :
  valid_params 4 2 2
  /\ Z.of_nat (length (tree Demo.engine)) = 2 ^ (2 + 1) - 1
  /\ num_nodes Demo.engine = 2 ^ (2 + 1) - 1
  /\ leaf_space Demo.engine = 2 ^ 2
  /\ Z.of_nat (length (position Demo.engine)) = 4
  /\ (forall a, 0 <= a < 4 ->
        exists p, position_at a Demo.engine = Ok p Demo.engine /\ 0 <= p < 2 ^ 2)
  /\ (forall g op a v r o' g',
        access LCG.source op a v (Demo.engine, g) = Ok r (o', g') ->
        o_N o' = 4 /\ o_Z o' = 2 /\ o_L o' = 2).
Proof.
  apply (reachable_shape LCG.source Demo.engine).
  apply (reach_init LCG.source 4 2 2 (Some 1) 0 Demo.engine Demo.generator).
  vm_compute. reflexivity.
Defined.

(** X11 (the only failure of [access]).  On a reachable engine a call of
    [access] either has a valid operation and block id and returns, or has
    not and raises [AssertionError] with nothing changed; it never raises
    [IndexError], [KeyError] or [ValueError]. *)
Theorem access_outcomes (R : RandomSource) (o : PathORAM) (g : rng R)
    (op : string) (a : Z) (v : pyval) :
  reachable R o ->
  (valid_access o op a /\ exists r o' g', access R op a v (o, g) = Ok r (o', g'))
  \/ (~ valid_access o op a /\ access R op a v (o, g) = Raise AssertionError (o, g)).
Proof.
  intros Hr. pose proof (reachable_wf R o Hr) as Hwf.
  destruct (access R op a v (o, g)) as [r [o' g']|e w] eqn:Hrun.
  - left. split; [by eapply access_ok_valid|]. eauto.
  - right. assert (~ valid_access o op a) as Hn.
    { intros Hva. destruct (access_spec R o g op a v Hwf Hva) as (x & d & o1 & Hrun1 & _).
      by rewrite Hrun in Hrun1. }
    split; [done|]. by rewrite <- Hrun, access_invalid.
Qed.

Lemma access_outcomes_witness :
  (valid_access Demo.engine "erase" 1
   /\ exists r o' g', access LCG.source "erase" 1 PNone (Demo.engine, Demo.generator)
                      = Ok r (o', g'))
  \/ (~ valid_access Demo.engine "erase" 1
      /\ access LCG.source "erase" 1 PNone (Demo.engine, Demo.generator)
         = Raise AssertionError (Demo.engine, Demo.generator)).
Proof.
  apply (access_outcomes LCG.source Demo.engine Demo.generator "erase" 1 PNone).
  apply (reach_init LCG.source 4 2 2 (Some 1) 0 Demo.engine Demo.generator).
  vm_compute. reflexivity.
Defined.

(** X12 (tail counts never rise).  On a reachable engine and with
    [total_ops > warmup_ops >= 0], the table [simulate] returns is
    non-increasing in the threshold, and every count lies between 0 and the
    number of samples [S]; in particular [tail_counts[0] <= S]. *)
Theorem tail_counts_monotone (R : RandomSource) (o : PathORAM) (g : rng R)
    (total_ops warmup_ops : Z) :
  reachable R o -> 0 <= warmup_ops < total_ops ->
  exists tail_counts max_stash s w',
    simulate R total_ops warmup_ops (o, g) = Ok (tail_counts, max_stash, s) w'
    /\ (forall i j ci cj, i <= j ->
          dict_get i tail_counts = Some ci -> dict_get j tail_counts = Some cj ->
          cj <= ci)
    /\ (forall i c, dict_get i tail_counts = Some c -> 0 <= c <= s).
Proof.
  intros Hr Hops.
  destruct (simulate_run R o g total_ops warmup_ops Hr Hops)
    as (samples & o' & g' & Hrun & _ & _ & _ & _ & _ & Hsam).
  destruct (tail_statistics_spec samples) as (tc & Hstat & Hin & Hout).
  { intros v Hv. by apply (sample_range R o v), Hsam. }
  rewrite Hstat in Hrun. eexists tc, _, _, (o', g'). split; [done|].
  assert (forall i c, dict_get i tc = Some c ->
            0 <= i <= max_or_zero samples /\ c = count_gt i samples) as Hval.
  { intros i c Hc.
    destruct (decide (0 <= i <= max_or_zero samples)) as [Hi|Hi].
    - rewrite (Hin i Hi) in Hc. by injection Hc as <-.
    - by rewrite (Hout i Hi) in Hc. }
  split.
  - intros i j ci cj Hij Hi Hj.
    apply Hval in Hi as [_ ->]. apply Hval in Hj as [_ ->]. by apply count_gt_antitone.
  - intros i c Hc. apply Hval in Hc as [_ ->].
    split; [apply count_gt_nonneg|apply count_gt_le_length].
Qed.

Lemma tail_counts_monotone_witness :
  exists tail_counts max_stash s w',
    simulate LCG.source 6 2 (Demo.engine, Demo.generator) = Ok (tail_counts, max_stash, s) w'
    /\ (forall i j ci cj, i <= j ->
          dict_get i tail_counts = Some ci -> dict_get j tail_counts = Some cj ->
          cj <= ci)
    /\ (forall i c, dict_get i tail_counts = Some c -> 0 <= c <= s).
Proof.
  apply (tail_counts_monotone LCG.source Demo.engine Demo.generator 6 2).
  - apply (reach_init LCG.source 4 2 2 (Some 1) 0 Demo.engine Demo.generator).
    vm_compute. reflexivity.
  - lia.
Defined.

(** X13 (the thresholds of the table).  The keys of the table [simulate]
    returns are exactly [0, 1, ..., max_stash], in this order, and
    [max_stash] is at most [N]. *)
Theorem tail_counts_keys (R : RandomSource) (o : PathORAM) (g : rng R)
    (total_ops warmup_ops : Z) :
  reachable R o -> 0 <= warmup_ops < total_ops ->
  exists tail_counts max_stash s w',
    simulate R total_ops warmup_ops (o, g) = Ok (tail_counts, max_stash, s) w'
    /\ dict_keys tail_counts = py_range 0 (max_stash + 1)
    /\ 0 <= max_stash <= o_N o.
Proof.
  intros Hr Hops.
  destruct (simulate_run R o g total_ops warmup_ops Hr Hops)
    as (samples & o' & g' & Hrun & _ & _ & _ & _ & Hlen & Hsam).
  assert (forall v, v ∈ samples -> 0 <= v <= o_N o) as Hrange.
  { intros v Hv. by apply (sample_range R o v), Hsam. }
  destruct (tail_statistics_spec samples) as (tc & Hstat & _).
  { intros v Hv. by apply Hrange. }
  rewrite Hstat in Hrun. eexists tc, _, _, (o', g'). split; [done|].
  assert (samples ≠ []) as Hne.
  { intros ->. simpl in Hlen. lia. }
  split; [|apply Hrange, max_or_zero_in, Hne].
  by apply (tail_statistics_keys samples tc _ _ Hstat).
Qed.

Lemma tail_counts_keys_witness :
  exists tail_counts max_stash s w',
    simulate LCG.source 6 2 (Demo.engine, Demo.generator) = Ok (tail_counts, max_stash, s) w'
    /\ dict_keys tail_counts = py_range 0 (max_stash + 1)
    /\ 0 <= max_stash <= 4.
Proof.
  apply (tail_counts_keys LCG.source Demo.engine Demo.generator 6 2).
  - apply (reach_init LCG.source 4 2 2 (Some 1) 0 Demo.engine Demo.generator).
    vm_compute. reflexivity.
  - lia.
Defined.

(** X14 ([simulate] fails fast).  In any engine state, [simulate] with
    [total_ops <= warmup_ops] or [warmup_ops < 0] raises [AssertionError]
    before any operation: the engine and the generator are as they were. *)
Theorem simulate_fail_fast (R : RandomSource) (o : PathORAM) (g : rng R)
    (total_ops warmup_ops : Z) :
  total_ops <= warmup_ops \/ warmup_ops < 0 ->
  simulate R total_ops warmup_ops (o, g) = Raise AssertionError (o, g).
Proof.
  intros Hbad. unfold simulate, bind, assert.
  destruct (Z.ltb_spec warmup_ops total_ops); [|done].
  destruct (Z.leb_spec 0 warmup_ops); [lia|done].
Qed.

Lemma simulate_fail_fast_witness :
  simulate LCG.source 3 3 (Demo.engine, Demo.generator)
  = Raise AssertionError (Demo.engine, Demo.generator).
Proof. apply (simulate_fail_fast LCG.source Demo.engine Demo.generator 3 3). lia. Defined.

(** X15 ([simulate] keeps the engine reachable).  On a reachable engine
    and with [total_ops > warmup_ops >= 0], the engine [simulate] leaves is
    again reachable, with the same [N], [Z] and [L]: conservation, capacity
    and subtree placement hold after a simulation as after an access. *)
Theorem simulate_reachable (R : RandomSource) (o : PathORAM) (g : rng R)
    (total_ops warmup_ops : Z) :
  reachable R o -> 0 <= warmup_ops < total_ops ->
  exists res o' g',
    simulate R total_ops warmup_ops (o, g) = Ok res (o', g')
    /\ reachable R o'
    /\ o_N o' = o_N o /\ o_Z o' = o_Z o /\ o_L o' = o_L o.
Proof.
  intros Hr Hops.
  destruct (simulate_run R o g total_ops warmup_ops Hr Hops)
    as (samples & o' & g' & Hrun & Hr' & HN & HZ & HL & _ & Hsam).
  destruct (tail_statistics_spec samples) as (tc & Hstat & _).
  { intros v Hv. by apply (sample_range R o v), Hsam. }
  rewrite Hstat in Hrun. by eexists _, o', g'.
Qed.

Lemma simulate_reachable_witness :
  exists res o' g',
    simulate LCG.source 6 2 (Demo.engine, Demo.generator) = Ok res (o', g')
    /\ reachable LCG.source o'
    /\ o_N o' = 4 /\ o_Z o' = 2 /\ o_L o' = 2.
Proof.
  apply (simulate_reachable LCG.source Demo.engine Demo.generator 6 2).
  - apply (reach_init LCG.source 4 2 2 (Some 1) 0 Demo.engine Demo.generator).
    vm_compute. reflexivity.
  - lia.
Defined.

(** X16 (no stash when a bucket holds everything).  On a reachable engine
    with [N <= Z] and with [total_ops > warmup_ops >= 0], every sample is 0
    and [simulate] returns the table [{0: 0}], [max_stash = 0] and
    [S = total_ops - warmup_ops]. *)
Theorem simulate_wide_buckets (R : RandomSource) (o : PathORAM) (g : rng R)
    (total_ops warmup_ops : Z) :
  reachable R o -> 0 <= warmup_ops < total_ops -> o_N o <= o_Z o ->
  exists w', simulate R total_ops warmup_ops (o, g)
             = Ok ([(0, 0)], 0, total_ops - warmup_ops) w'.
Proof.
  intros Hr Hops HNZ.
  destruct (simulate_run R o g total_ops warmup_ops Hr Hops)
    as (samples & o' & g' & Hrun & _ & _ & _ & _ & Hlen & Hsam).
  assert (forall v, v ∈ samples -> v = 0) as Hzero.
  { intros v Hv. destruct (Hsam v Hv) as (ot & Hrt & HNt & HZt & ->).
    rewrite (stash_empty_wide R ot Hrt); [done|lia]. }
  assert (samples ≠ []) as Hne.
  { intros ->. simpl in Hlen. lia. }
  assert (max_or_zero samples = 0) as Hmax by apply Hzero, max_or_zero_in, Hne.
  destruct (tail_statistics_spec samples) as (tc & Hstat & Hin & _).
  { intros v Hv. by rewrite (Hzero v Hv). }
  pose proof (tail_statistics_keys _ _ _ _ Hstat) as Hkeys.
  rewrite Hmax in Hkeys, Hstat, Hin. specialize (Hin 0 ltac:(lia)).
  rewrite count_gt_above in Hin by (intros v Hv; by rewrite (Hzero v Hv)).
  destruct tc as [|[k c] [|? ?]]; [done| |done].
  injection Hkeys as ->. simpl in Hin. injection Hin as ->.
  exists (o', g'). by rewrite Hrun, Hstat, Hlen.
Qed.

Lemma simulate_wide_buckets_witness :
  exists w', simulate LCG.source 7 3 (Wide.engine, Wide.generator)
             = Ok ([(0, 0)], 0, 7 - 3) w'.
Proof.
  apply (simulate_wide_buckets LCG.source Wide.engine Wide.generator 7 3).
  - apply (reach_init LCG.source 2 2 1 (Some 1) 0 Wide.engine Wide.generator).
    vm_compute. reflexivity.
  - lia.
  - simpl. lia.
Defined.

(** ** The statistics file *)

Example py_int_examples :
  py_int " 12 " = Some 12 /\ py_int "-7" = Some (-7) /\ py_int "+0_5" = Some 5
  /\ py_int "" = None /\ py_int "1__0" = None /\ py_int "_1" = None
  /\ py_int "1_" = None /\ py_int "- 1" = None /\ py_int "1,2" = None
  /\ py_int "0012" = Some 12 /\ py_int "+-1" = None /\ py_int "-_1" = None
  /\ py_int "+" = None /\ py_int "1 2" = None /\ py_int "0_0" = Some 0.
Proof. repeat split; reflexivity. Qed.

(** ** Facts about the text functions *)

Lemma append_assoc (a b c : string) : (a +++ b) +++ c = a +++ b +++ c.
Proof. induction a as [|x a IH]; simpl; [done|]. by rewrite IH. Qed.

Lemma all_chars_app p a b :
  all_chars p (a +++ b) = all_chars p a && all_chars p b.
Proof. induction a as [|x a IH]; simpl; [done|]. by rewrite IH, andb_assoc. Qed.

Lemma py_str_nonneg_total z : 0 <= z -> String.prefix "-1" (py_str z) = false.
Proof.
  intros Hz. unfold py_str. destruct z as [|p|p]; [done| |lia]. simpl.
  unfold NilZero.string_of_uint. by destruct (Pos.to_uint p).
Qed.

Lemma field_char_facts c :
  is_field_char c = true -> is_space c = false /\ is_newline c = false.
Proof.
  destruct c as [[] [] [] [] [] [] [] []]; vm_compute; intros H; by try discriminate H.
Qed.

Lemma numeral_not_comma c : is_numeral c = true -> is_comma c = false.
Proof.
  destruct c as [[] [] [] [] [] [] [] []]; vm_compute; intros H; by try discriminate H.
Qed.

Lemma strip_plain s :
  all_chars (fun c => negb (is_space c)) s = true -> strip s = s.
Proof.
  intros Hs. unfold strip.
  assert (lstrip s = s) as ->.
  { destruct s as [|c r]; [done|]. simpl in *.
    apply andb_true_iff in Hs as [Hc _]. by destruct (is_space c). }
  induction s as [|c r IH]; [done|]. simpl in *.
  apply andb_true_iff in Hs as [Hc Hr]. rewrite (IH Hr).
  destruct r; [|done]. by destruct (is_space c).
Qed.

Lemma split_at_plain sep s :
  all_chars (fun c => negb (sep c)) s = true -> split_at sep s = [s].
Proof.
  induction s as [|c r IH]; [done|]. simpl.
  intros [Hc Hr]%andb_true_iff. rewrite (IH Hr). by destruct (sep c).
Qed.

Lemma split_at_app sep a c b :
  all_chars (fun c => negb (sep c)) a = true -> sep c = true ->
  split_at sep (a +++ String c b) = a :: split_at sep b.
Proof.
  intros Ha Hc. induction a as [|x a IH]; simpl.
  - by rewrite Hc.
  - simpl in Ha. apply andb_true_iff in Ha as [Hx Ha]. rewrite (IH Ha).
    by destruct (sep x).
Qed.

Lemma line_chars k v :
  all_chars is_field_char (py_str k +++ "," +++ py_str v) = true.
Proof.
  rewrite all_chars_app. simpl. unfold is_field_char.
  rewrite !numeral_fields; [done|by intros c ->..].
Qed.

Section ReaderFacts.

Context (P : IntSyntax).

(** A line ["i,c"] with [i >= 0] files [c] under [i]. *)
Lemma read_line_entry k v st :
  0 <= k ->
  read_line P (py_str k +++ "," +++ py_str v) st = Val (st.1, dict_set k v st.2).
Proof.
  intros Hk. unfold read_line.
  rewrite strip_plain.
  2:{ eapply all_chars_impl; [|apply line_chars]. intros c Hc.
      by rewrite (proj1 (field_char_facts c Hc)). }
  assert (py_str k +++ "," +++ py_str v ≠ EmptyString) as Hne.
  { unfold py_str. destruct (Z.to_int k) as [d|d]; simpl;
      unfold NilZero.string_of_uint; by destruct d. }
  assert (split_at is_comma (py_str k +++ "," +++ py_str v) = [py_str k; py_str v]) as Hsplit.
  { change ("," +++ py_str v) with (String "," (py_str v)).
    rewrite (split_at_app is_comma (py_str k) "," (py_str v)); [|apply numeral_fields|done].
    - rewrite split_at_plain; [done|]. apply numeral_fields.
      intros c Hc. by rewrite numeral_not_comma.
    - intros c Hc. by rewrite numeral_not_comma. }
  destruct (py_str k +++ "," +++ py_str v) as [|c0 r0] eqn:Hline; [done|].
  rewrite Hsplit, (py_str_nonneg_total k Hk), !int_of_str_str. done.
Qed.

(** A line whose first field starts with ["-1"] sets the total. *)
Lemma read_line_total z c st :
  String.prefix "-1" (py_str z) = true ->
  read_line P (py_str z +++ "," +++ py_str c) st = Val (Some c, st.2).
Proof.
  intros Hz. unfold read_line.
  rewrite strip_plain.
  2:{ eapply all_chars_impl; [|apply line_chars]. intros x Hx.
      by rewrite (proj1 (field_char_facts x Hx)). }
  assert (py_str z +++ "," +++ py_str c ≠ EmptyString) as Hne.
  { unfold py_str. destruct (Z.to_int z) as [d|d]; simpl;
      unfold NilZero.string_of_uint; by destruct d. }
  assert (split_at is_comma (py_str z +++ "," +++ py_str c) = [py_str z; py_str c]) as Hsplit.
  { change ("," +++ py_str c) with (String "," (py_str c)).
    rewrite (split_at_app is_comma (py_str z) "," (py_str c)); [|apply numeral_fields|done].
    - rewrite split_at_plain; [done|]. apply numeral_fields.
      intros x Hx. by rewrite numeral_not_comma.
    - intros x Hx. by rewrite numeral_not_comma. }
  destruct (py_str z +++ "," +++ py_str c) as [|c0 r0] eqn:Hline; [done|].
  rewrite Hsplit, Hz, int_of_str_str. done.
Qed.

Lemma read_lines_cons line rest st st' :
  read_line P line st = Val st' ->
  read_lines P (line :: rest) st = read_lines P rest st'.
Proof. intros H. simpl. by rewrite H. Qed.

Lemma read_lines_table sub :
  forall acc total,
  (forall p, p ∈ sub -> 0 <= p.1) -> NoDup (acc.*1 ++ sub.*1) ->
  read_lines P (split_at is_newline (lines_of sub)) (total, acc) = Val (total, acc ++ sub).
Proof.
  induction sub as [|[k v] sub IH]; intros acc total Hpos Hnd.
  - simpl. by rewrite app_nil_r.
  - simpl lines_of. rewrite split_at_app; [|..|done].
    2:{ eapply all_chars_impl; [|apply line_chars]. intros c Hc.
        by rewrite (proj2 (field_char_facts c Hc)). }
    rewrite (read_lines_cons _ _ _ _ (read_line_entry k v (total, acc) (Hpos (k, v) ltac:(left)))).
    cbn [fst snd].
    assert (k ∉ acc.*1) as Hk.
    { apply NoDup_app in Hnd as (_ & Hdis & _). intros Hin. apply (Hdis _ Hin). left. }
    rewrite dict_set_fresh by done.
    rewrite IH.
    + by rewrite <- (assoc_L (++)).
    + intros p Hp. apply Hpos. by right.
    + rewrite fmap_app. simpl. by rewrite <- (assoc_L (++)).
Qed.

End ReaderFacts.

Lemma record_lines_table (t : dict Z) :
  NoDup t.*1 ->
  forall sub, (forall p, p ∈ sub -> p ∈ t) ->
  record_lines sub.*1 t = Some (lines_of sub).
Proof.
  intros Hnd. induction sub as [|[k v] sub IH]; intros Hsub; [done|].
  assert (Hsub' : forall p, p ∈ sub -> p ∈ t) by (intros p Hp; apply Hsub; by right).
  specialize (IH Hsub').
  assert (Hget : dict_get k t = Some v) by (apply (dict_get_elem k v t Hnd), Hsub; left).
  change (((k, v) :: sub).*1) with (k :: sub.*1).
  cbn [record_lines lines_of]. rewrite Hget, IH. cbn [mbind option_bind].
  f_equal. rewrite !append_assoc. reflexivity.
Qed.

(** A file that opens with a total line, followed by the lines of a table
    with distinct keys from 0 on. *)
Lemma read_total_then_table (P : IntSyntax) (z c : Z) (t : dict Z) :
  String.prefix "-1" (py_str z) = true ->
  (forall p, p ∈ t -> 0 <= p.1) -> NoDup t.*1 ->
  read_simulation_file P ((py_str z +++ "," +++ py_str c) +++ String "010" (lines_of t))
  = Val (c, t).
Proof.
  intros Hz Hpos Hnd. unfold read_simulation_file.
  rewrite split_at_app; [|..|done].
  2:{ eapply all_chars_impl; [|apply line_chars]. intros x Hx.
      by rewrite (proj2 (field_char_facts x Hx)). }
  rewrite (read_lines_cons P _ _ _ _ (read_line_total P z c (None, []) Hz)).
  cbn [fst snd].
  by rewrite (read_lines_table P t [] (Some c) Hpos Hnd).
Qed.

(** What the writer writes for a table whose keys are [0 .. max_stash],
    the reader reads back. *)
Lemma record_read (P : IntSyntax) (s max_stash : Z) (t : dict Z) :
  dict_keys t = py_range 0 (max_stash + 1) ->
  exists text, record_text s max_stash t = Some text
    /\ read_simulation_file P text = Val (s, t).
Proof.
  unfold dict_keys. intros Hkeys.
  assert (NoDup t.*1) as Hnd by (rewrite Hkeys; apply NoDup_seqZ).
  exists ((py_str (-1) +++ "," +++ py_str s) +++ String "010" (lines_of t)). split.
  - unfold record_text. rewrite <- Hkeys, (record_lines_table t Hnd t) by done.
    cbn [mbind option_bind]. reflexivity.
  - apply read_total_then_table; [done| |done].
    intros p Hp. apply (list_elem_of_fmap_2 fst) in Hp. rewrite Hkeys in Hp.
    apply py_range_elem in Hp. lia.
Qed.

Lemma read_lines_entries (P : IntSyntax) sub :
  forall acc total,
  (forall p, p ∈ sub -> 0 <= p.1) ->
  exists acc', read_lines P (split_at is_newline (lines_of sub)) (total, acc) = Val (total, acc').
Proof.
  induction sub as [|[k v] sub IH]; intros acc total Hpos.
  - by exists acc.
  - simpl lines_of. rewrite split_at_app; [|..|done].
    2:{ eapply all_chars_impl; [|apply line_chars]. intros c Hc.
        by rewrite (proj2 (field_char_facts c Hc)). }
    rewrite (read_lines_cons P _ _ _ _ (read_line_entry P k v (total, acc) (Hpos (k, v) ltac:(left)))).
    cbn [fst snd]. apply IH. intros p Hp. apply Hpos. by right.
Qed.

(** X17 (the statistics file reads back).  On a reachable engine and with
    [0 <= warmup_ops < total_ops], [simulate] with a record file returns
    what it returns without one, and [read_simulation_file] on the text it
    wrote returns the number of samples and the very table [simulate]
    returned, for any [int] that reads back what [str] prints. *)
Theorem record_round_trip (R : RandomSource) (P : IntSyntax) (o : PathORAM) (g : rng R)
    (total_ops warmup_ops : Z) :
  reachable R o -> 0 <= warmup_ops < total_ops ->
  exists tail_counts max_stash s text w',
    simulate R total_ops warmup_ops (o, g) = Ok (tail_counts, max_stash, s) w'
    /\ simulate_record R total_ops warmup_ops (o, g)
       = Ok (tail_counts, max_stash, s, text) w'
    /\ read_simulation_file P text = Val (s, tail_counts).
Proof.
  intros Hr Hops.
  destruct (simulate_run R o g total_ops warmup_ops Hr Hops)
    as (samples & o' & g' & Hrun & _ & _ & _ & _ & _ & Hsam).
  destruct (tail_statistics_spec samples) as (tc & Hstat & _).
  { intros v Hv. by apply (sample_range R o v), Hsam. }
  rewrite Hstat in Hrun.
  pose proof (tail_statistics_keys _ _ _ _ Hstat) as Hkeys.
  destruct (record_read P (Z.of_nat (length samples)) (max_or_zero samples) tc Hkeys)
    as (text & Htext & Hread).
  exists tc, (max_or_zero samples), (Z.of_nat (length samples)), text, (o', g').
  split; [exact Hrun|]. split; [|exact Hread].
  unfold simulate_record, bind. rewrite Hrun. cbn [fst snd]. by rewrite Htext.
Qed.

Lemma record_round_trip_witness :
  exists tail_counts max_stash s text w',
    simulate LCG.source 6 2 (Demo.engine, Demo.generator) = Ok (tail_counts, max_stash, s) w'
    /\ simulate_record LCG.source 6 2 (Demo.engine, Demo.generator)
       = Ok (tail_counts, max_stash, s, text) w'
    /\ read_simulation_file python_int text = Val (s, tail_counts).
Proof.
  apply (record_round_trip LCG.source python_int Demo.engine Demo.generator 6 2).
  - apply (reach_init LCG.source 4 2 2 (Some 1) 0 Demo.engine Demo.generator).
    vm_compute. reflexivity.
  - lia.
Defined.

(** X18 (the total line is required).  A file that holds only lines
    [i,c] with [i >= 0], or nothing at all, makes [read_simulation_file]
    raise [ValueError], whatever the entries are. *)
Theorem read_needs_total (P : IntSyntax) (t : dict Z) :
  (forall p, p ∈ t -> 0 <= p.1) ->
  read_simulation_file P (lines_of t) = Err ValueError.
Proof.
  intros Hpos. unfold read_simulation_file.
  destruct (read_lines_entries P t [] None Hpos) as (acc' & ->). done.
Qed.

Lemma read_needs_total_witness :
  read_simulation_file python_int (lines_of [(0, 3); (1, 0)]) = Err ValueError.
Proof.
  apply (read_needs_total python_int [(0, 3); (1, 0)]).
  intros p Hp. repeat (apply elem_of_cons in Hp as [->|Hp]; [simpl; lia|]).
  by apply elem_of_nil in Hp.
Defined.


